(** * Immune-based edge placement: a shallow embedding

    The development follows [immune_placement.py] (the engine: distance
    lookups, objective evaluation, the solution factory and the clonal
    selection loop) and [simulation_runner.py] (the baselines and the
    metrics routine that scores them).

    Conventions of the embedding.
    - Python floats are idealised as exact rationals ([Q]); [float('inf')]
      is the extra point [PInf] of [xQ].  Rounding, overflow and NaN are
      outside the model; where the range of a double decides what the
      evaluator does, it is embedded once more over binary64 numbers
      (module [Binary64]).
    - A Python [dict] whose iteration order is observable (the peers, an
      edge assignment) is an insertion-ordered association list with unique
      keys ([Dict]); the two latency tables, which are only ever looked up,
      are [gmap]s.
    - A Python exception is the [Raise] branch of [result].
    - The [random] module is a tape of raw draws threaded through every
      stochastic call. *)

From Stdlib Require Import QArith ZArith Lia Lqa Permutation.
From stdpp Require Import gmap strings list fin_maps.

Open Scope string_scope.
Open Scope Q_scope.

(** ** Exceptions and results *)

Inductive exn :=
  | KeyError
  | ValueError
  | IndexError
  | ZeroDivisionError
  | AttributeError.

Inductive result (A : Type) :=
  | Ok (a : A)
  | Raise (e : exn).
Arguments Ok {A} a.
Arguments Raise {A} e.

Definition rbind {A B} (r : result A) (k : A -> result B) : result B :=
  match r with
  | Ok a => k a
  | Raise e => Raise e
  end.

Definition succeeds {A} (r : result A) : Prop := exists a, r = Ok a.

(** ** Numbers *)

Definition Qltb (x y : Q) : bool :=
  match x ?= y with Lt => true | _ => false end.

(** Extended rationals: [PInf] is [float('inf')]. *)
Inductive xQ :=
  | Fin (q : Q)
  | PInf.

Definition xadd (x : xQ) (q : Q) : xQ :=
  match x with
  | Fin a => Fin (a + q)
  | PInf => PInf
  end.

(** [min(a, b)] in Python keeps [a] unless [b < a]. *)
Definition min2 (a b : Q) : Q := if Qltb b a then b else a.

(** [min(x, b)] for a possibly infinite [x] and a finite [b]. *)
Definition xmin (x : xQ) (b : Q) : Q :=
  match x with
  | Fin a => min2 a b
  | PInf => b
  end.

(** [min(generator)] over a non-empty sequence. *)
Definition min_list (first : Q) (rest : list Q) : Q :=
  fold_left min2 rest first.

(** [sum(generator)]: left to right from 0. *)
Definition qsum (l : list Q) : Q := fold_left Qplus l 0.

(** ** Insertion-ordered dictionaries with string keys *)

Module Dict.

Definition t (V : Type) := list (string * V).

Definition empty {V} : t V := [].

(** [k in d] / [d.get(k)] *)
Fixpoint get {V} (d : t V) (k : string) : option V :=
  match d with
  | [] => None
  | (k', v) :: r => if String.eqb k' k then Some v else get r k
  end.

(** [d.get(k, default)] *)
Definition get_default {V} (d : t V) (k : string) (default : V) : V :=
  match get d k with
  | Some v => v
  | None => default
  end.

(** [d[k]] *)
Definition index {V} (d : t V) (k : string) : result V :=
  match get d k with
  | Some v => Ok v
  | None => Raise KeyError
  end.

(** [d[k] = v]: an existing key keeps its position, a new key goes last. *)
Fixpoint set {V} (d : t V) (k : string) (v : V) : t V :=
  match d with
  | [] => [(k, v)]
  | (k', v') :: r =>
      if String.eqb k' k then (k', v) :: r else (k', v') :: set r k v
  end.

Definition keys {V} (d : t V) : list string := map fst d.
Definition values {V} (d : t V) : list V := map snd d.
Definition items {V} (d : t V) : list (string * V) := d.

(** [{key(x): val(x) for x in l}] *)
Definition comprehension {X V} (key : X -> string) (val : X -> V)
    (l : list X) : t V :=
  fold_left (fun d x => set d (key x) (val x)) l empty.

End Dict.

(** ** Data model ([immune_placement.py], lines 22-49) *)

Record Peer := {
  id : string;
  region : string;
  demand : Q;
  rtt_to_edge_a : Q;
  rtt_to_edge_b : Q;
  neighbors : list string
}.

Record RTTMatrix := {
  peer_to_peer : gmap (string * string) Q;
  peer_to_edge : gmap (string * string) Q
}.

Record Solution := {
  super_peers : list string;
  edge_assignments : Dict.t string;
  fitness : Q;
  avg_delay : Q;
  load_imbalance : Q;
  edge_a_load : Q;
  edge_b_load : Q
}.

(** [Solution(super_peers=..., edge_assignments=...)]: the derived fields
    take their dataclass defaults. *)
Definition new_Solution (sp : list string) (ea : Dict.t string) : Solution :=
  {| super_peers := sp; edge_assignments := ea;
     fitness := 0; avg_delay := 0; load_imbalance := 0;
     edge_a_load := 0; edge_b_load := 0 |}.

(** The attributes of [ImmunePlacementAlgorithm] that the engine reads. *)
Record ImmunePlacementAlgorithm := {
  peers : Dict.t Peer;
  peer_list : list string;
  rtt_matrix : RTTMatrix;
  num_super_peers : Z;
  alpha : Q;
  beta : Q;
  edge_capacity : Q;
  pop_size : Z;
  clone_factor : Z;
  mutation_rate : Q;
  max_generations : Z
}.

(** [__init__] (lines 57-85). *)
Definition init (ps : list Peer) (rtt : RTTMatrix) (nsp : Z) (a b cap : Q)
    (psize cf : Z) (mr : Q) (gens : Z) : ImmunePlacementAlgorithm :=
  {| peers := Dict.comprehension id (fun p => p) ps;
     peer_list := map id ps;
     rtt_matrix := rtt;
     num_super_peers := nsp;
     alpha := a; beta := b; edge_capacity := cap;
     pop_size := psize; clone_factor := cf;
     mutation_rate := mr; max_generations := gens |}.

(** ** Distance oracle (lines 87-103) *)

Definition get_peer_rtt (self : ImmunePlacementAlgorithm)
    (peer_i peer_j : string) : Q :=
  if String.eqb peer_i peer_j then 0
  else
    let key1 := (peer_i, peer_j) in
    let key2 := (peer_j, peer_i) in
    default (default 100 (peer_to_peer (rtt_matrix self) !! key2))
            (peer_to_peer (rtt_matrix self) !! key1).

Definition get_edge_rtt (self : ImmunePlacementAlgorithm)
    (peer_id edge : string) : result Q :=
  let key := (peer_id, edge) in
  match peer_to_edge (rtt_matrix self) !! key with
  | Some v => Ok v
  | None =>
      rbind (Dict.index (peers self) peer_id) (fun peer =>
      Ok (if String.eqb edge "A" then rtt_to_edge_a peer
          else rtt_to_edge_b peer))
  end.

Notation "x <- e ;; k" := (rbind e (fun x => k))
  (at level 100, e at next level, right associativity, only parsing).

(** A [for] loop whose body may raise: the first exception ends the loop. *)
Fixpoint for_each {S X} (body : S -> X -> result S) (l : list X) (s : S)
    : result S :=
  match l with
  | [] => Ok s
  | x :: r => s' <- body s x ;; for_each body r s'
  end.

(** [a / b] on floats raises when [b] is zero. *)
Definition py_div (a b : Q) : result Q :=
  if Qeq_bool b 0 then Raise ZeroDivisionError else Ok (a / b).

(** ** Objective evaluator (lines 105-172) *)

(** [edge_loads = {'A': 0.0, 'B': 0.0}] as the pair of its two values;
    [edge_loads[edge] += d] raises [KeyError] on any other key. *)
Definition add_load (loads : Q * Q) (edge : string) (d : Q) : result (Q * Q) :=
  if String.eqb edge "A" then Ok (fst loads + d, snd loads)
  else if String.eqb edge "B" then Ok (fst loads, snd loads + d)
  else Raise KeyError.

(** Lines 118-123. *)
Definition d_super_of (self : ImmunePlacementAlgorithm) (sps : list string)
    (peer_id : string) : xQ :=
  match sps with
  | [] => PInf
  | sp :: rest =>
      Fin (min_list (get_peer_rtt self peer_id sp)
                    (map (get_peer_rtt self peer_id) rest))
  end.

(** The state of the per-peer loop: [effective_delays] as the list of its
    [(d_effective, demand)] components, and [edge_loads]. *)
Definition eval_acc : Type := list (Q * Q) * (Q * Q).

(** Body of the loop at lines 116-136. *)
Definition evaluate_peer (self : ImmunePlacementAlgorithm) (solution : Solution)
    (acc : eval_acc) (item : string * Peer) : result eval_acc :=
  let '(effective_delays, edge_loads) := acc in
  let '(peer_id, peer) := item in
  let d_super := d_super_of self (super_peers solution) peer_id in
  let assigned_edge := Dict.get_default (edge_assignments solution) peer_id "A" in
  d_edge <- get_edge_rtt self peer_id assigned_edge ;;
  let d_effective := xmin (xadd d_super 5) d_edge in
  edge_loads' <- add_load edge_loads assigned_edge (demand peer) ;;
  Ok ((effective_delays ++ [(d_effective, demand peer)])%list, edge_loads').

(** The five numbers [evaluate_solution] returns. *)
Record Evaluation := {
  ev_fitness : Q;
  ev_avg_delay : Q;
  ev_load_imbalance : Q;
  ev_load_a : Q;
  ev_load_b : Q
}.

(** Lines 145-149, shared textually by the metrics routine (lines 165-166). *)
Definition imbalance_of (load_a load_b : Q) : Q :=
  let load_avg := (load_a + load_b) / 2 in
  (1 # 2) * ((load_a - load_avg) ^ 2 + (load_b - load_avg) ^ 2).

(** [evaluate_solution] returns the tuple and stores it on the solution it
    was given; the updated solution is the first component. *)
Definition evaluate_solution (self : ImmunePlacementAlgorithm)
    (solution : Solution) : result (Solution * Evaluation) :=
  acc <- for_each (evaluate_peer self solution)
                  (Dict.items (peers self)) ([], (0, 0)) ;;
  let '(effective_delays, edge_loads) := acc in
  let total_demand := qsum (map demand (Dict.values (peers self))) in
  let avg_delay :=
    if Qltb 0 total_demand
    then qsum (map (fun dr => fst dr * snd dr) effective_delays) / total_demand
    else 0 in
  let load_a := fst edge_loads in
  let load_b := snd edge_loads in
  let load_imbalance := imbalance_of load_a load_b in
  let normalized_delay := avg_delay / 200 in
  let max_imbalance := (total_demand / 2) ^ 2 in
  let normalized_imbalance :=
    if Qltb 0 max_imbalance then load_imbalance / max_imbalance else 0 in
  let objective :=
    alpha self * normalized_delay + beta self * normalized_imbalance in
  fitness <- py_div 1 (objective + (1 # 1000000)) ;;
  Ok ({| super_peers := super_peers solution;
         edge_assignments := edge_assignments solution;
         fitness := fitness; avg_delay := avg_delay;
         load_imbalance := load_imbalance;
         edge_a_load := load_a; edge_b_load := load_b |},
      {| ev_fitness := fitness; ev_avg_delay := avg_delay;
         ev_load_imbalance := load_imbalance;
         ev_load_a := load_a; ev_load_b := load_b |}).


(** ** The random source

    [random] is library code.  Its state is a tape of raw draws with a
    cursor; [random.random()] and [randbelow] reduce one draw to their
    range, so every tape is a possible run of the generator. *)

Record Rng := {
  tape : nat -> N;
  cursor : nat
}.

(** Computations that draw random numbers and may raise. *)
Definition M (A : Type) : Type := Rng -> result (A * Rng).

Definition ret {A} (a : A) : M A := fun g => Ok (a, g).

Definition bind {A B} (m : M A) (k : A -> M B) : M B :=
  fun g =>
    match m g with
    | Ok (a, g') => k a g'
    | Raise e => Raise e
    end.

Definition lift {A} (r : result A) : M A :=
  fun g =>
    match r with
    | Ok a => Ok (a, g)
    | Raise e => Raise e
    end.

Definition raise {A} (e : exn) : M A := fun _ => Raise e.

Notation "x <~ e ;; k" := (bind e (fun x => k))
  (at level 100, e at next level, right associativity, only parsing).

Definition next_raw : M N :=
  fun g => Ok (tape g (cursor g), {| tape := tape g; cursor := S (cursor g) |}).

(** [random.random()]: a float in [[0, 1)]. *)
Definition random : M Q :=
  r <~ next_raw ;;
  ret (Z.of_N (r mod 2 ^ 53) # 2 ^ 53).

(** [randbelow(n)] for [n > 0]: an integer in [[0, n)]. *)
Definition randbelow (n : nat) : M nat :=
  r <~ next_raw ;;
  ret (N.to_nat r mod n)%nat.

(** [random.randint(0, n - 1)] as called at line 210, where [n > 0]. *)
Definition randint0 (n : nat) : M nat := randbelow n.

(** [random.choice(seq)]: an empty sequence raises [IndexError]. *)
Definition choice (seq : list string) : M string :=
  match seq with
  | [] => raise IndexError
  | _ =>
      j <~ randbelow (length seq) ;;
      ret (nth j seq "")
  end.

(** The selection loop of [random.sample]: [result[i] = pool[j]], then the
    last live slot of the pool moves to position [j]. *)
Fixpoint sample_loop (pool : list string) (k : nat) : M (list string) :=
  match k with
  | O => ret []
  | S k' =>
      j <~ randbelow (length pool) ;;
      let picked := nth j pool "" in
      let pool' := removelast (<[j := List.last pool ""]> pool) in
      rest <~ sample_loop pool' k' ;;
      ret (picked :: rest)
  end.

(** [random.sample(population, k)]: [ValueError] unless [0 <= k <= n].
    (For large populations CPython selects the [k] distinct positions by
    rejection instead of by the pool; the reachable results are the same.) *)
Definition sample (population : list string) (k : Z) : M (list string) :=
  if (0 <=? k)%Z && (k <=? Z.of_nat (length population))%Z
  then sample_loop population (Z.to_nat k)
  else raise ValueError.

(** A [for] loop in [M]. *)
Fixpoint for_each_M {S X} (body : S -> X -> M S) (l : list X) (s : S) : M S :=
  match l with
  | [] => ret s
  | x :: r => s' <~ body s x ;; for_each_M body r s'
  end.

(** [for _ in range(n)] in [M]. *)
Fixpoint repeat_M {S} (body : S -> M S) (n : nat) (s : S) : M S :=
  match n with
  | O => ret s
  | S n' => s' <~ body s ;; repeat_M body n' s'
  end.

(** ** Solution factory (lines 174-222) *)

(** Lines 181-187. *)
Definition random_edge (edge_assignments : Dict.t string)
    (item : string * Peer) : M (Dict.t string) :=
  let '(peer_id, peer) := item in
  u <~ random ;;
  ret (Dict.set edge_assignments peer_id
         (if Qltb (rtt_to_edge_a peer) (rtt_to_edge_b peer)
          then (if Qltb u (7 # 10) then "A" else "B")
          else (if Qltb u (7 # 10) then "B" else "A"))).

Definition generate_random_solution (self : ImmunePlacementAlgorithm)
    : M Solution :=
  super_peers <~ sample (peer_list self)
                   (Z.min (num_super_peers self)
                          (Z.of_nat (length (peer_list self)))) ;;
  edge_assignments <~
    for_each_M random_edge (Dict.items (peers self)) Dict.empty ;;
  let solution := new_Solution super_peers edge_assignments in
  evaluated <~ lift (evaluate_solution self solution) ;;
  ret (fst evaluated).

(** Lines 196-201: the two [.copy()] calls build new containers holding the
    same (immutable) strings; as values they are the fields themselves. *)
Definition clone_solution (solution : Solution) : Solution :=
  new_Solution (super_peers solution) (edge_assignments solution).

(** [p not in l] *)
Definition not_in (l : list string) (p : string) : bool :=
  negb (existsb (String.eqb p) l).

(** Lines 208-214, on the clone's super-peer list. *)
Definition mutate_super_peers (self : ImmunePlacementAlgorithm)
    (sps : list string) : M (list string) :=
  u <~ random ;;
  if Qltb u (mutation_rate self) && (0 <? length sps)%nat
  then
    idx <~ randint0 (length sps) ;;
    let candidates := List.filter (not_in sps) (peer_list self) in
    match candidates with
    | [] => ret sps
    | _ => c <~ choice candidates ;; ret (<[idx := c]> sps)
    end
  else ret sps.

(** Body of the loop at lines 217-220. *)
Definition mutate_edge (self : ImmunePlacementAlgorithm)
    (edge_assignments : Dict.t string) (peer_id : string)
    : M (Dict.t string) :=
  u <~ random ;;
  if Qltb u (mutation_rate self * (1 # 2))
  then
    current <~ lift (Dict.index edge_assignments peer_id) ;;
    ret (Dict.set edge_assignments peer_id
           (if String.eqb current "A" then "B" else "A"))
  else ret edge_assignments.

Definition mutate_solution (self : ImmunePlacementAlgorithm)
    (solution : Solution) : M Solution :=
  let mutated := clone_solution solution in
  sps <~ mutate_super_peers self (super_peers mutated) ;;
  ea <~ for_each_M (mutate_edge self)
          (Dict.keys (edge_assignments mutated)) (edge_assignments mutated) ;;
  ret (new_Solution sps ea).

(** ** Optimization loop (lines 224-307) *)

Record history_entry := {
  generation : Z;
  best_fitness : Q;
  avg_fitness : Q;
  best_avg_delay : Q;
  best_load_imbalance : Q;
  best_edge_a_load : Q;
  best_edge_b_load : Q
}.

(** The variables [optimize] carries from one generation to the next. *)
Record opt_state := {
  st_population : list Solution;
  st_best_solution : option Solution;
  st_best_fitness : Q;
  st_history : list history_entry
}.

(** Lines 245-246. *)
Fixpoint evaluate_all (self : ImmunePlacementAlgorithm)
    (population : list Solution) : result (list Solution) :=
  match population with
  | [] => Ok []
  | s :: r =>
      e <- evaluate_solution self s ;;
      r' <- evaluate_all self r ;;
      Ok (fst e :: r')
  end.

(** Lines 249-252. *)
Definition track_best (best : option Solution * Q) (solution : Solution)
    : option Solution * Q :=
  if Qltb (snd best) (fitness solution)
  then (Some (clone_solution solution), fitness solution)
  else best.

(** [population.sort(key=lambda s: s.fitness, reverse=True)]: a stable sort
    into descending fitness. *)
Fixpoint insert_desc (s : Solution) (l : list Solution) : list Solution :=
  match l with
  | [] => [s]
  | y :: r =>
      if Qltb (fitness s) (fitness y) then y :: insert_desc s r
      else s :: y :: r
  end.

Definition sort_desc (population : list Solution) : list Solution :=
  fold_right insert_desc [] population.

(** [int(x)] on a float: truncation towards zero. *)
Definition py_int (x : Q) : Z := Z.quot (Qnum x) (Z.pos (Qden x)).

(** [l[i]] for [i >= 0]. *)
Definition list_index {A} (l : list A) (i : nat) : result A :=
  match l !! i with
  | Some a => Ok a
  | None => Raise IndexError
  end.

(** Body of the loop at lines 283-291. *)
Definition clone_elite (self : ImmunePlacementAlgorithm)
    (population : list Solution) (new_population : list Solution) (idx : nat)
    : M (list Solution) :=
  solution <~ lift (list_index population idx) ;;
  head <~ lift (list_index population 0) ;;
  let fit_ratio :=
    if Qltb 0 (fitness head) then fitness solution / fitness head else 1 in
  let num_clones :=
    Z.max 1 (py_int (inject_Z (clone_factor self) * fit_ratio)) in
  repeat_M (fun np =>
              clone <~ mutate_solution self solution ;;
              ret (np ++ [clone])%list)
           (Z.to_nat num_clones) new_population.

(** Lines 294-295: every turn of the [while] appends one solution, so the
    loop runs [pop_size - len(new_population)] times when that is
    positive and not at all otherwise. *)
Definition fill_random (self : ImmunePlacementAlgorithm)
    (new_population : list Solution) : M (list Solution) :=
  repeat_M (fun np =>
              s <~ generate_random_solution self ;;
              ret (np ++ [s])%list)
           (Z.to_nat (pop_size self - Z.of_nat (length new_population)))
           new_population.

(** [best_solution.<field>] when [best_solution] may still be [None]. *)
Definition deref (best_solution : option Solution) : result Solution :=
  match best_solution with
  | Some b => Ok b
  | None => Raise AttributeError
  end.

(** One turn of the loop at lines 243-297. *)
Definition generation_step (self : ImmunePlacementAlgorithm) (g : Z)
    (st : opt_state) : M opt_state :=
  population <~ lift (evaluate_all self (st_population st)) ;;
  let '(best_solution, best_fitness) :=
    fold_left track_best population
              (st_best_solution st, st_best_fitness st) in
  let population := sort_desc population in
  avg_fitness <~ lift (py_div (qsum (map fitness population))
                              (inject_Z (Z.of_nat (length population)))) ;;
  best <~ lift (deref best_solution) ;;
  let history_entry :=
    {| generation := g;
       best_fitness := best_fitness;
       avg_fitness := avg_fitness;
       best_avg_delay := avg_delay best;
       best_load_imbalance := load_imbalance best;
       best_edge_a_load := edge_a_load best;
       best_edge_b_load := edge_b_load best |} in
  let M := Z.max 1 (pop_size self / 3) in
  new_population <~
    for_each_M (clone_elite self population) (seq 0 (Z.to_nat M)) [] ;;
  new_population <~ fill_random self new_population ;;
  ret {| st_population := new_population;
         st_best_solution := best_solution;
         st_best_fitness := best_fitness;
         st_history := (st_history st ++ [history_entry])%list |}.

(** [for generation in range(max_generations)], [n] turns from [g]. *)
Fixpoint run_generations (self : ImmunePlacementAlgorithm) (n : nat) (g : Z)
    (st : opt_state) : M opt_state :=
  match n with
  | O => ret st
  | S n' =>
      st' <~ generation_step self g st ;;
      run_generations self n' (g + 1)%Z st'
  end.

(** Line 232. *)
Definition initial_population (self : ImmunePlacementAlgorithm)
    : M (list Solution) :=
  repeat_M (fun pop =>
              s <~ generate_random_solution self ;;
              ret (pop ++ [s])%list)
           (Z.to_nat (pop_size self)) [].

(** [optimize]: the closing report (lines 302-305) reads the fields of
    [best_solution], which is still [None] if no generation ran.  The
    history starts empty, as [__init__] leaves [self.generation_history]:
    this is the first call on an engine (a later call on the same engine
    goes on appending to the same list). *)
Definition optimize (self : ImmunePlacementAlgorithm)
    : M (Solution * list history_entry) :=
  population <~ initial_population self ;;
  st <~ run_generations self (Z.to_nat (max_generations self)) 0%Z
          {| st_population := population;
             st_best_solution := None;
             st_best_fitness := -(1);
             st_history := [] |} ;;
  best <~ lift (deref (st_best_solution st)) ;;
  ret (best, st_history st).

(** ** Baselines and their metrics ([simulation_runner.py]) *)

Module SimulationRunner.

(** Lines 90-99: [enumerate(peers)], even positions to A. *)
Fixpoint round_robin_assign (i : nat) (ps : list Peer) (d : Dict.t string)
    : Dict.t string :=
  match ps with
  | [] => d
  | peer :: r =>
      round_robin_assign (S i) r
        (Dict.set d (id peer) (if Nat.even i then "A" else "B"))
  end.

Definition _round_robin_baseline (ps : list Peer) (rtt : RTTMatrix)
    : Solution :=
  new_Solution [] (round_robin_assign 0 ps Dict.empty).

(** Lines 101-110. *)
Definition nearest_assign (ps : list Peer) : Dict.t string :=
  fold_left (fun d peer =>
      Dict.set d (id peer)
        (if Qltb (rtt_to_edge_a peer) (rtt_to_edge_b peer) then "A" else "B"))
    ps Dict.empty.

Definition _nearest_edge_baseline (ps : list Peer) (rtt : RTTMatrix)
    : Solution :=
  new_Solution [] (nearest_assign ps).

(** Lines 112-123: [random.sample] of the ids, then the nearest edge. *)
Definition _random_super_peers_baseline (ps : list Peer) (rtt : RTTMatrix)
    (num_super_peers : Z) : M Solution :=
  super_peers <~ sample (map id ps) num_super_peers ;;
  ret (new_Solution super_peers (nearest_assign ps)).

(** The dictionary returned by [_evaluate_solution_metrics]. *)
Record Metrics := {
  avg_delay_ms : Q;
  m_load_imbalance : Q;
  edge_a_load_kbps : Q;
  edge_b_load_kbps : Q;
  edge_a_utilization : Q;
  edge_b_utilization : Q;
  p2p_hit_rate : Q;
  edge_a_hits : Z;
  edge_b_hits : Z;
  p2p_hits : Z;
  m_super_peers : list string;
  m_num_super_peers : nat
}.

(** Loop state of lines 130-161: [effective_delays], [edge_loads],
    [p2p_hits], [edge_hits] and [total_demand]. *)
Record metrics_acc := {
  acc_delays : list (Q * Q);
  acc_loads : Q * Q;
  acc_p2p_hits : Z;
  acc_edge_hits : Z * Z;
  acc_total_demand : Q
}.

(** [edge_hits[edge] += 1] *)
Definition add_hit (hits : Z * Z) (edge : string) : result (Z * Z) :=
  if String.eqb edge "A" then Ok ((fst hits + 1)%Z, snd hits)
  else if String.eqb edge "B" then Ok (fst hits, (snd hits + 1)%Z)
  else Raise KeyError.

(** Lines 140-146: the pairwise table is read directly. *)
Definition table_rtt (rtt : RTTMatrix) (peer_id sp : string) : Q :=
  default (default 100 (peer_to_peer rtt !! (sp, peer_id)))
          (peer_to_peer rtt !! (peer_id, sp)).

Definition d_super_of (rtt : RTTMatrix) (sps : list string)
    (peer_id : string) : xQ :=
  match sps with
  | [] => PInf
  | sp :: rest =>
      Fin (min_list (table_rtt rtt peer_id sp)
                    (map (table_rtt rtt peer_id) rest))
  end.

(** [d_super + 5.0 < d_edge] with a possibly infinite left side. *)
Definition xltb (x : xQ) (b : Q) : bool :=
  match x with
  | Fin a => Qltb a b
  | PInf => false
  end.

(** Body of the loop at lines 136-161. *)
Definition metrics_peer (solution : Solution) (rtt : RTTMatrix)
    (acc : metrics_acc) (item : string * Peer) : result metrics_acc :=
  let '(peer_id, peer) := item in
  let total_demand := acc_total_demand acc + demand peer in
  let d_super := d_super_of rtt (super_peers solution) peer_id in
  let assigned_edge :=
    Dict.get_default (edge_assignments solution) peer_id "A" in
  let d_edge :=
    if String.eqb assigned_edge "A" then rtt_to_edge_a peer
    else rtt_to_edge_b peer in
  hit <-
    match xadd d_super 5 with
    | Fin p2p =>
        if xltb (xadd d_super 5) d_edge
        then Ok (p2p, (acc_p2p_hits acc + 1)%Z, acc_edge_hits acc)
        else
          eh <- add_hit (acc_edge_hits acc) assigned_edge ;;
          Ok (d_edge, acc_p2p_hits acc, eh)
    | PInf =>
        eh <- add_hit (acc_edge_hits acc) assigned_edge ;;
        Ok (d_edge, acc_p2p_hits acc, eh)
    end ;;
  let '(d_effective, p2p, eh) := hit in
  loads <- add_load (acc_loads acc) assigned_edge (demand peer) ;;
  Ok {| acc_delays := (acc_delays acc ++ [(d_effective, demand peer)])%list;
        acc_loads := loads;
        acc_p2p_hits := p2p;
        acc_edge_hits := eh;
        acc_total_demand := total_demand |}.

(** Lines 125-184. *)
Definition _evaluate_solution_metrics (solution : Solution)
    (ps : list Peer) (rtt : RTTMatrix) : result Metrics :=
  let peer_dict := Dict.comprehension id (fun p => p) ps in
  acc <- for_each (metrics_peer solution rtt) (Dict.items peer_dict)
           {| acc_delays := []; acc_loads := (0, 0); acc_p2p_hits := 0;
              acc_edge_hits := (0%Z, 0%Z); acc_total_demand := 0 |} ;;
  let total_demand := acc_total_demand acc in
  let avg_delay :=
    if Qltb 0 total_demand
    then qsum (map (fun dr => fst dr * snd dr) (acc_delays acc)) / total_demand
    else 0 in
  let load_a := fst (acc_loads acc) in
  let load_b := snd (acc_loads acc) in
  let load_imbalance := imbalance_of load_a load_b in
  let p2p_hit_rate :=
    match ps with
    | [] => 0
    | _ => inject_Z (acc_p2p_hits acc) / inject_Z (Z.of_nat (length ps))
    end in
  Ok {| avg_delay_ms := avg_delay;
        m_load_imbalance := load_imbalance;
        edge_a_load_kbps := load_a;
        edge_b_load_kbps := load_b;
        edge_a_utilization := load_a / 10000;
        edge_b_utilization := load_b / 10000;
        p2p_hit_rate := p2p_hit_rate;
        edge_a_hits := fst (acc_edge_hits acc);
        edge_b_hits := snd (acc_edge_hits acc);
        p2p_hits := acc_p2p_hits acc;
        m_super_peers := super_peers solution;
        m_num_super_peers := length (super_peers solution) |}.

End SimulationRunner.

(** ** The containers of a Solution as objects of a store

    [clone_solution] and [mutate_solution] once more, now with the
    super-peer list and the edge-assignment dictionary as mutable objects
    that a Solution refers to, so that sharing between a solution and its
    clone would be visible.  [h] is the store; a reference that does not
    hold an object of the expected kind raises. *)

Module Store.

Definition loc := positive.

Inductive obj :=
  | ListObj (l : list string)
  | DictObj (d : Dict.t string).

Record SolutionRef := {
  super_peers_ref : loc;
  edge_assignments_ref : loc
}.

(** [x.copy()]: a new object with the content of [x]. *)
Definition copy (h : gmap loc obj) (r : loc) : result (loc * gmap loc obj) :=
  match h !! r with
  | Some o => let r' := fresh (dom h) in Ok (r', <[r' := o]> h)
  | None => Raise AttributeError
  end.

Definition load_list (h : gmap loc obj) (r : loc) : result (list string) :=
  match h !! r with
  | Some (ListObj l) => Ok l
  | _ => Raise AttributeError
  end.

Definition load_dict (h : gmap loc obj) (r : loc) : result (Dict.t string) :=
  match h !! r with
  | Some (DictObj d) => Ok d
  | _ => Raise AttributeError
  end.

(** Lines 196-201. *)
Definition clone_solution (h : gmap loc obj) (solution : SolutionRef)
    : result (SolutionRef * gmap loc obj) :=
  c1 <- copy h (super_peers_ref solution) ;;
  c2 <- copy (snd c1) (edge_assignments_ref solution) ;;
  Ok ({| super_peers_ref := fst c1; edge_assignments_ref := fst c2 |},
      snd c2).

(** Lines 208-214: the only write is [mutated.super_peers[idx] = ...]. *)
Definition mutate_super_peers (self : ImmunePlacementAlgorithm)
    (mutated : SolutionRef) (h : gmap loc obj) : M (gmap loc obj) :=
  u <~ random ;;
  sps <~ lift (load_list h (super_peers_ref mutated)) ;;
  if Qltb u (mutation_rate self) && (0 <? length sps)%nat
  then
    idx <~ randint0 (length sps) ;;
    let candidates := List.filter (not_in sps) (peer_list self) in
    match candidates with
    | [] => ret h
    | _ =>
        c <~ choice candidates ;;
        ret (<[super_peers_ref mutated := ListObj (<[idx := c]> sps)]> h)
    end
  else ret h.

(** Lines 218-220: the only write is
    [mutated.edge_assignments[peer_id] = ...]. *)
Definition mutate_edge (self : ImmunePlacementAlgorithm)
    (mutated : SolutionRef) (h : gmap loc obj) (peer_id : string)
    : M (gmap loc obj) :=
  u <~ random ;;
  if Qltb u (mutation_rate self * (1 # 2))
  then
    ea <~ lift (load_dict h (edge_assignments_ref mutated)) ;;
    current <~ lift (Dict.index ea peer_id) ;;
    ret (<[edge_assignments_ref mutated :=
             DictObj (Dict.set ea peer_id
                        (if String.eqb current "A" then "B" else "A"))]> h)
  else ret h.

(** Lines 203-222. *)
Definition mutate_solution (self : ImmunePlacementAlgorithm)
    (solution : SolutionRef) (h : gmap loc obj)
    : M (SolutionRef * gmap loc obj) :=
  c <~ lift (clone_solution h solution) ;;
  let mutated := fst c in
  h1 <~ mutate_super_peers self mutated (snd c) ;;
  ea <~ lift (load_dict h1 (edge_assignments_ref mutated)) ;;
  h2 <~ for_each_M (mutate_edge self mutated) (Dict.keys ea) h1 ;;
  ret (mutated, h2).

End Store.

(** * The synthetic network, the scenario runner and the report

    [generate_synthetic_network] (the end of [immune_placement.py]),
    [run_baseline_comparison] ([simulation_runner.py]) and the two
    computations of [generate_report.py].  Printing, timing and the JSON
    file between the runner and the report are not modelled: a history
    reaches the report as [optimize] returned it. *)

From stdpp Require Import pretty.

Open Scope string_scope.
Open Scope Q_scope.

(** ** More of the [random] module *)

(** [random.seed(s)]: the generator restarts on the stream the seed
    selects, whatever its state was. *)
Definition seed (stream : nat -> N) : M unit :=
  fun _ => Ok (tt, {| tape := stream; cursor := 0 |}).

(** [random.uniform(a, b)] is [a + (b - a) * random()].  Over the
    rationals the result stays below [b]; the rounded sum of the
    interpreter can be [b] itself, so only [a <= x <= b] is relied on. *)
Definition uniform (a b : Q) : M Q :=
  r <~ random ;;
  ret (a + (b - a) * r).

(** ** Python built-ins *)

(** [range(lo, hi)] *)
Definition py_range (lo hi : Z) : list Z :=
  map (fun k => (lo + Z.of_nat k)%Z) (seq 0 (Z.to_nat (hi - lo))).

(** [max(a, b)] keeps [a] unless [b] is strictly larger. *)
Definition py_max (a b : Q) : Q := if Qltb a b then b else a.

(** [x in l] for a list of strings. *)
Definition in_list (x : string) (l : list string) : bool :=
  existsb (String.eqb x) l.

(** [enumerate(l)] *)
Definition enumerate {X} (l : list X) : list (nat * X) :=
  combine (seq 0 (length l)) l.

(** [s.split('-')[0]]: what precedes the first dash. *)
Fixpoint split_head (s : string) : string :=
  match s with
  | EmptyString => EmptyString
  | String c r =>
      if String.eqb (String c EmptyString) "-" then EmptyString
      else String c (split_head r)
  end.

(** ** [generate_synthetic_network] (lines 310-390) *)

Definition regions : list string :=
  ["us-east"; "us-west"; "eu-west"; "eu-central"; "asia-pacific";
   "asia-southeast"; "india"; "australia"; "brazil"; "canada"].

(** [f"peer-{i}"] *)
Definition peer_name (i : Z) : string := "peer-" +:+ pretty i.

(** Lines 337-346: the two edge latencies, biased by region. *)
Definition edge_rtts (region : string) : M (Q * Q) :=
  if in_list region ["us-east"; "us-west"; "canada"; "brazil"] then
    rtt_a <~ uniform 15 50 ;;
    rtt_b <~ uniform 80 150 ;;
    ret (rtt_a, rtt_b)
  else if in_list region ["eu-west"; "eu-central"] then
    rtt_a <~ uniform 70 120 ;;
    rtt_b <~ uniform 20 45 ;;
    ret (rtt_a, rtt_b)
  else
    rtt_a <~ uniform 100 200 ;;
    rtt_b <~ uniform 30 80 ;;
    ret (rtt_a, rtt_b).

(** Lines 358-360: [i != j and random.random() < 0.3]; nothing is drawn
    for [j = i]. *)
Definition neighbor_step (i : Z) (neighbors : list string) (j : Z)
    : M (list string) :=
  if (i =? j)%Z then ret neighbors
  else
    r <~ random ;;
    ret (if Qltb r (3 # 10) then (neighbors ++ [peer_name j])%list
         else neighbors).

(** Body of the loop at lines 332-375. *)
Definition generate_peer (num_peers : Z) (acc : list Peer * RTTMatrix)
    (i : Z) : M (list Peer * RTTMatrix) :=
  let '(peers, rtt_matrix) := acc in
  let peer_id := peer_name i in
  region <~ choice regions ;;
  ab <~ edge_rtts region ;;
  noise_a <~ uniform (-5) 5 ;;
  noise_b <~ uniform (-5) 5 ;;
  let rtt_a := py_max 10 (fst ab + noise_a) in
  let rtt_b := py_max 10 (snd ab + noise_b) in
  demand <~ uniform 50 500 ;;
  neighbors <~ for_each_M (neighbor_step i) (py_range 1 (num_peers + 1)) [] ;;
  let peer := {| id := peer_id; region := region; demand := demand;
                 rtt_to_edge_a := rtt_a; rtt_to_edge_b := rtt_b;
                 neighbors := neighbors |} in
  ret ((peers ++ [peer])%list,
       {| peer_to_peer := peer_to_peer rtt_matrix;
          peer_to_edge :=
            <[(peer_id, "B") := rtt_b]>
              (<[(peer_id, "A") := rtt_a]> (peer_to_edge rtt_matrix)) |}).

(** Lines 381-386: the latency of a pair, by region proximity. *)
Definition base_rtt (peer_i peer_j : Peer) : M Q :=
  if String.eqb (region peer_i) (region peer_j) then uniform 10 30
  else if String.eqb (split_head (region peer_i)) (split_head (region peer_j))
  then uniform 30 80
  else uniform 80 200.

(** Body of the inner loop at lines 379-388. *)
Definition pair_step (ip : nat * Peer)
    (p2p : gmap (string * string) Q) (jp : nat * Peer)
    : M (gmap (string * string) Q) :=
  if Nat.eqb (fst ip) (fst jp) then ret p2p
  else
    rtt <~ base_rtt (snd ip) (snd jp) ;;
    ret (<[(id (snd ip), id (snd jp)) := rtt]> p2p).

(** The generator is seeded first, so the network depends on the stream
    of the seed alone. *)
Definition generate_synthetic_network (num_peers : Z) (stream : nat -> N)
    : M (list Peer * RTTMatrix) :=
  _ <~ seed stream ;;
  acc <~ for_each_M (generate_peer num_peers) (py_range 1 (num_peers + 1))
           ([], {| peer_to_peer := ∅; peer_to_edge := ∅ |}) ;;
  let '(peers, rtt_matrix) := acc in
  p2p <~ for_each_M (fun p2p ip =>
                       for_each_M (pair_step ip) (enumerate peers) p2p)
           (enumerate peers) (peer_to_peer rtt_matrix) ;;
  ret (peers, {| peer_to_peer := p2p;
                 peer_to_edge := peer_to_edge rtt_matrix |}).

(** ** [run_baseline_comparison] (runner, lines 27-88) *)

(** The dictionary the scenario returns. *)
Record BaselineComparison := {
  bc_num_peers : Z;
  round_robin : SimulationRunner.Metrics;
  nearest_edge : SimulationRunner.Metrics;
  random_super_peers : SimulationRunner.Metrics;
  optimized : SimulationRunner.Metrics;
  convergence_history : list history_entry
}.

(** [stream42] is the stream of the seed 42. *)
Definition run_baseline_comparison (stream42 : nat -> N) (num_peers : Z)
    : M BaselineComparison :=
  network <~ generate_synthetic_network num_peers stream42 ;;
  let '(peers, rtt_matrix) := network in
  let round_robin_solution :=
    SimulationRunner._round_robin_baseline peers rtt_matrix in
  rr <~ lift (SimulationRunner._evaluate_solution_metrics
                round_robin_solution peers rtt_matrix) ;;
  let nearest_solution :=
    SimulationRunner._nearest_edge_baseline peers rtt_matrix in
  ne <~ lift (SimulationRunner._evaluate_solution_metrics
                nearest_solution peers rtt_matrix) ;;
  random_super_solution <~
    SimulationRunner._random_super_peers_baseline peers rtt_matrix 15 ;;
  rs <~ lift (SimulationRunner._evaluate_solution_metrics
                random_super_solution peers rtt_matrix) ;;
  let algorithm :=
    init peers rtt_matrix 15 (7 # 10) (3 # 10) 10000 30 3 (1 # 10) 100 in
  best_history <~ optimize algorithm ;;
  let '(best_solution, history) := best_history in
  opt <~ lift (SimulationRunner._evaluate_solution_metrics
                 best_solution peers rtt_matrix) ;;
  ret {| bc_num_peers := num_peers;
         round_robin := rr; nearest_edge := ne; random_super_peers := rs;
         optimized := opt; convergence_history := history |}.

(** ** [run_parameter_sensitivity] (runner, lines 186-247) *)

(** The dictionary the analysis returns: a record per weight pair and a
    record per number of super-peers. *)
Record ParameterSensitivity := {
  ps_num_peers : Z;
  alpha_beta_tests : list (Q * Q * SimulationRunner.Metrics);
  super_peer_tests : list (Z * SimulationRunner.Metrics)
}.

(** Body of the loop at lines 203-223. *)
Definition alpha_beta_test (peers : list Peer) (rtt_matrix : RTTMatrix)
    (tests : list (Q * Q * SimulationRunner.Metrics)) (alpha : Q)
    : M (list (Q * Q * SimulationRunner.Metrics)) :=
  let beta := 1 - alpha in
  let algorithm :=
    init peers rtt_matrix 15 alpha beta 10000 20 3 (1 # 10) 50 in
  best_history <~ optimize algorithm ;;
  metrics <~ lift (SimulationRunner._evaluate_solution_metrics
                     (fst best_history) peers rtt_matrix) ;;
  ret (tests ++ [(alpha, beta, metrics)])%list.

(** Body of the loop at lines 227-245. *)
Definition super_peer_test (peers : list Peer) (rtt_matrix : RTTMatrix)
    (tests : list (Z * SimulationRunner.Metrics)) (num_sp : Z)
    : M (list (Z * SimulationRunner.Metrics)) :=
  let algorithm :=
    init peers rtt_matrix num_sp (7 # 10) (3 # 10) 10000 20 3 (1 # 10) 50 in
  best_history <~ optimize algorithm ;;
  metrics <~ lift (SimulationRunner._evaluate_solution_metrics
                     (fst best_history) peers rtt_matrix) ;;
  ret (tests ++ [(num_sp, metrics)])%list.

Definition run_parameter_sensitivity (stream42 : nat -> N) (num_peers : Z)
    : M ParameterSensitivity :=
  network <~ generate_synthetic_network num_peers stream42 ;;
  let '(peers, rtt_matrix) := network in
  ab <~ for_each_M (alpha_beta_test peers rtt_matrix)
          [5 # 10; 6 # 10; 7 # 10; 8 # 10; 9 # 10] [] ;;
  sp <~ for_each_M (super_peer_test peers rtt_matrix)
          [5; 10; 15; 20; 25; 30]%Z [] ;;
  ret {| ps_num_peers := num_peers;
         alpha_beta_tests := ab;
         super_peer_tests := sp |}.

(** ** [generate_report.py] *)

Module ReportGenerator.

(** Lines 273-277. *)
Definition _calculate_improvement (baseline optimized : Q) : Q :=
  if Qeq_bool baseline 0 then 0
  else ((baseline - optimized) / baseline) * 100.

(** [history[0]] *)
Definition first_entry (history : list history_entry)
    : result history_entry :=
  match history with
  | [] => Raise IndexError
  | e :: _ => Ok e
  end.

(** [history[-1]] *)
Definition last_entry (history : list history_entry)
    : result history_entry :=
  match rev history with
  | [] => Raise IndexError
  | e :: _ => Ok e
  end.

(** The six numbers of the convergence section. *)
Record Convergence := {
  initial_fitness : Q;
  final_fitness : Q;
  improvement : Q;
  initial_delay : Q;
  final_delay : Q;
  delay_reduction : Q
}.

(** Lines 128-133 of [generate_report], in the order the lines are
    evaluated. *)
Definition convergence_section (history : list history_entry)
    : result Convergence :=
  first <- first_entry history ;;
  last <- last_entry history ;;
  ratio <- py_div (best_fitness last - best_fitness first)
                  (best_fitness first) ;;
  let improvement := ratio * 100 in
  delay_ratio <- py_div (best_avg_delay first - best_avg_delay last)
                        (best_avg_delay first) ;;
  Ok {| initial_fitness := best_fitness first;
        final_fitness := best_fitness last;
        improvement := improvement;
        initial_delay := best_avg_delay first;
        final_delay := best_avg_delay last;
        delay_reduction := delay_ratio * 100 |}.

End ReportGenerator.

(** * The objective evaluator over IEEE 754 doubles

    The rest of the development idealises Python floats as exact
    rationals.  Where the range of a double decides what the evaluator
    does, that idealisation says nothing: [x ** 2] raises [OverflowError]
    when the square of a finite [x] is out of range, a product can
    overflow to infinity, and a quotient by infinity is 0.  This module
    embeds lines 87-172 of [immune_placement.py] once more, operation for
    operation, over Rocq's primitive binary64 numbers (round to nearest,
    ties to even, as CPython computes). *)

From Stdlib Require Floats.

Open Scope string_scope.
Open Scope Q_scope.

Module Binary64.

Import Floats.
Local Open Scope float_scope.
Local Set Warnings "-inexact-float".

Inductive exn :=
  | KeyError
  | ZeroDivisionError
  | OverflowError.

Inductive result (A : Type) : Type :=
  | Ok (a : A)
  | Raise (e : exn).

Arguments Ok {A} a.
Arguments Raise {A} e.

Definition rbind {A B} (r : result A) (k : A -> result B) : result B :=
  match r with
  | Ok a => k a
  | Raise e => Raise e
  end.

Fixpoint for_each {S X} (body : S -> X -> result S) (l : list X) (s : S)
    : result S :=
  match l with
  | [] => Ok s
  | x :: r => rbind (body s x) (for_each body r)
  end.

(** [min(a, b)] keeps [a] unless [b < a]. *)
Definition min2 (a b : float) : float := if b <? a then b else a.

(** [min(generator)] over a non-empty sequence. *)
Definition min_list (first : float) (rest : list float) : float :=
  fold_left min2 rest first.

(** One step of the compensated sum: the running sum, and what the
    addition lost. *)
Definition neumaier_step (st : float * float) (x : float) : float * float :=
  let '(f_result, c) := st in
  let t := f_result + x in
  (t, if abs x <=? abs f_result
      then c + ((f_result - t) + x)
      else c + ((x - t) + f_result)).

(** The built-in [sum] of floats, from the integer 0.  Up to CPython 3.11
    it adds from left to right; from 3.12 on it also carries Neumaier's
    compensation term, and adds it at the end when it is finite and not
    zero.  [compensated] says which interpreter runs the code. *)
Definition py_sum (compensated : bool) (l : list float) : float :=
  match l with
  | [] => 0
  | x :: rest =>
      if compensated then
        let '(f_result, c) := fold_left neumaier_step rest (0 + x, 0) in
        if negb (c =? 0) && is_finite c then f_result + c else f_result
      else fold_left PrimFloat.add rest (0 + x)
  end.

(** [x ** 2]: the square, rounded, and [OverflowError] when the square of
    a finite number is out of range. *)
Definition pow2 (x : float) : result float :=
  let y := x * x in
  if is_infinity y && negb (is_infinity x) then Raise OverflowError
  else Ok y.

(** [a / b] raises when [b] is zero. *)
Definition py_div (a b : float) : result float :=
  if b =? 0 then Raise ZeroDivisionError else Ok (a / b).

Record Peer := {
  id : string;
  region : string;
  demand : float;
  rtt_to_edge_a : float;
  rtt_to_edge_b : float;
  neighbors : list string
}.

Record RTTMatrix := {
  peer_to_peer : gmap (string * string) float;
  peer_to_edge : gmap (string * string) float
}.

Record Solution := {
  super_peers : list string;
  edge_assignments : Dict.t string;
  fitness : float;
  avg_delay : float;
  load_imbalance : float;
  edge_a_load : float;
  edge_b_load : float
}.

Definition new_Solution (sp : list string) (ea : Dict.t string) : Solution :=
  {| super_peers := sp; edge_assignments := ea;
     fitness := 0; avg_delay := 0; load_imbalance := 0;
     edge_a_load := 0; edge_b_load := 0 |}.

(** The attributes of the engine that the evaluator reads. *)
Record ImmunePlacementAlgorithm := {
  peers : Dict.t Peer;
  rtt_matrix : RTTMatrix;
  alpha : float;
  beta : float
}.

(** Lines 87-94. *)
Definition get_peer_rtt (self : ImmunePlacementAlgorithm)
    (peer_i peer_j : string) : float :=
  if String.eqb peer_i peer_j then 0
  else
    let key1 := (peer_i, peer_j) in
    let key2 := (peer_j, peer_i) in
    default (default 100 (peer_to_peer (rtt_matrix self) !! key2))
            (peer_to_peer (rtt_matrix self) !! key1).

(** Lines 96-103. *)
Definition get_edge_rtt (self : ImmunePlacementAlgorithm)
    (peer_id edge : string) : result float :=
  match peer_to_edge (rtt_matrix self) !! (peer_id, edge) with
  | Some v => Ok v
  | None =>
      match Dict.get (peers self) peer_id with
      | Some peer =>
          Ok (if String.eqb edge "A" then rtt_to_edge_a peer
              else rtt_to_edge_b peer)
      | None => Raise KeyError
      end
  end.

(** [edge_loads[edge] += d] *)
Definition add_load (loads : float * float) (edge : string) (d : float)
    : result (float * float) :=
  if String.eqb edge "A" then Ok (fst loads + d, snd loads)
  else if String.eqb edge "B" then Ok (fst loads, snd loads + d)
  else Raise KeyError.

(** Lines 118-123. *)
Definition d_super_of (self : ImmunePlacementAlgorithm) (sps : list string)
    (peer_id : string) : float :=
  match sps with
  | [] => infinity
  | sp :: rest =>
      min_list (get_peer_rtt self peer_id sp)
               (map (get_peer_rtt self peer_id) rest)
  end.

(** Body of the loop at lines 116-136. *)
Definition evaluate_peer (self : ImmunePlacementAlgorithm)
    (solution : Solution) (acc : list (float * float) * (float * float))
    (item : string * Peer)
    : result (list (float * float) * (float * float)) :=
  let '(effective_delays, edge_loads) := acc in
  let '(peer_id, peer) := item in
  let d_super := d_super_of self (super_peers solution) peer_id in
  let assigned_edge :=
    Dict.get_default (edge_assignments solution) peer_id "A" in
  rbind (get_edge_rtt self peer_id assigned_edge) (fun d_edge =>
  let d_effective := min2 (d_super + 5) d_edge in
  rbind (add_load edge_loads assigned_edge (demand peer)) (fun edge_loads' =>
  Ok ((effective_delays ++ [(d_effective, demand peer)])%list,
      edge_loads'))).

Record Evaluation := {
  ev_fitness : float;
  ev_avg_delay : float;
  ev_load_imbalance : float;
  ev_load_a : float;
  ev_load_b : float
}.

(** Lines 105-172. *)
Definition evaluate_solution (compensated : bool)
    (self : ImmunePlacementAlgorithm) (solution : Solution)
    : result (Solution * Evaluation) :=
  rbind (for_each (evaluate_peer self solution)
                   (Dict.items (peers self)) ([], (0, 0))) (fun acc =>
  let '(effective_delays, edge_loads) := acc in
  let total_demand :=
    py_sum compensated (map demand (Dict.values (peers self))) in
  let avg_delay :=
    if 0 <? total_demand
    then py_sum compensated
           (map (fun dr => fst dr * snd dr) effective_delays) / total_demand
    else 0 in
  let load_a := fst edge_loads in
  let load_b := snd edge_loads in
  let load_avg := (load_a + load_b) / 2 in
  rbind (pow2 (load_a - load_avg)) (fun square_a =>
  rbind (pow2 (load_b - load_avg)) (fun square_b =>
  let load_imbalance := 0.5 * (square_a + square_b) in
  let normalized_delay := avg_delay / 200 in
  rbind (pow2 (total_demand / 2)) (fun max_imbalance =>
  let normalized_imbalance :=
    if 0 <? max_imbalance then load_imbalance / max_imbalance else 0 in
  let objective := alpha self * normalized_delay
                   + beta self * normalized_imbalance in
  rbind (py_div 1 (objective + 1e-6)) (fun fitness =>
  Ok ({| super_peers := super_peers solution;
         edge_assignments := edge_assignments solution;
         fitness := fitness; avg_delay := avg_delay;
         load_imbalance := load_imbalance;
         edge_a_load := load_a; edge_b_load := load_b |},
      {| ev_fitness := fitness; ev_avg_delay := avg_delay;
         ev_load_imbalance := load_imbalance;
         ev_load_a := load_a; ev_load_b := load_b |})))))).

(** One peer, assigned to edge A, and an engine without latency tables. *)
Definition lone_peer (demand rtt_a rtt_b : float) : list Peer :=
  [{| id := "p1"; region := "us-east"; demand := demand;
      rtt_to_edge_a := rtt_a; rtt_to_edge_b := rtt_b; neighbors := [] |}].

Definition engine (ps : list Peer) (alpha beta : float)
    : ImmunePlacementAlgorithm :=
  {| peers := Dict.comprehension id (fun p => p) ps;
     rtt_matrix := {| peer_to_peer := ∅; peer_to_edge := ∅ |};
     alpha := alpha; beta := beta |}.

Definition on_A : Solution := new_Solution [] [("p1", "A")].

(** A demand of 1e200 with the default weights. *)
Definition huge_demand_engine : ImmunePlacementAlgorithm :=
  engine (lone_peer 1e200 50 80) 0.7 0.3.

(** A weight of 1e308 and latencies of 4000 ms. *)
Definition huge_weight_engine : ImmunePlacementAlgorithm :=
  engine (lone_peer 100 4000 4000) 1e308 0.3.

(** [x <= 0] *)
Definition not_positive (x : float) : bool := x <=? 0.

End Binary64.

(** ** Predicates and formulas of the specification *)

(** Demands and latencies (stored on the peers or in the tables) are
    non-negative. *)
Definition nonneg_inputs (self : ImmunePlacementAlgorithm) : Prop :=
  (forall k p, In (k, p) (peers self) ->
     0 <= demand p /\ 0 <= rtt_to_edge_a p /\ 0 <= rtt_to_edge_b p) /\
  (forall k v, peer_to_peer (rtt_matrix self) !! k = Some v -> 0 <= v) /\
  (forall k v, peer_to_edge (rtt_matrix self) !! k = Some v -> 0 <= v).

(** Every label an assignment holds is one of the two edges. *)
Definition labels_ok (ea : Dict.t string) : Prop :=
  forall v, In v (Dict.values ea) -> v = "A" \/ v = "B".

(** The invariants of a Solution (section 3 of the specification): the
    assignment is a dictionary whose key set is the population's id set and
    whose labels are A or B; the super-peers are distinct population ids. *)
Record well_formed (self : ImmunePlacementAlgorithm) (s : Solution) : Prop := {
  wf_keys_nodup : List.NoDup (Dict.keys (edge_assignments s));
  wf_total : forall k, In k (Dict.keys (edge_assignments s)) <->
                       In k (Dict.keys (peers self));
  wf_labels : labels_ok (edge_assignments s);
  wf_super_nodup : List.NoDup (super_peers s);
  wf_super_subset : forall p, In p (super_peers s) ->
                              In p (Dict.keys (peers self))
}.

(** The super-peer list is no longer than [min(configuredCount, |population|)]. *)
Definition super_peers_capped (self : ImmunePlacementAlgorithm) (s : Solution)
    : Prop :=
  (Z.of_nat (length (super_peers s))
   <= Z.min (num_super_peers self) (Z.of_nat (length (Dict.keys (peers self)))))%Z.

(** An engine as [__init__] builds it from peers with unique ids. *)
Definition valid_instance (self : ImmunePlacementAlgorithm) : Prop :=
  List.NoDup (peer_list self) /\ Dict.keys (peers self) = peer_list self.

Definition total_demand_of (self : ImmunePlacementAlgorithm) : Q :=
  qsum (map demand (Dict.values (peers self))).

(** Section 4.2: [alpha * normDelay + beta * normImbalance]. *)
Definition objective_of (self : ImmunePlacementAlgorithm)
    (avg_delay load_imbalance : Q) : Q :=
  let max_imbalance := (total_demand_of self / 2) ^ 2 in
  alpha self * (avg_delay / 200)
  + beta self * (if Qltb 0 max_imbalance
                 then load_imbalance / max_imbalance else 0).

(** The loads alone: each peer's demand goes to its assigned edge. *)
Definition loads_of (ea : Dict.t string) (items : list (string * Peer))
    (loads : Q * Q) : result (Q * Q) :=
  for_each (fun l (item : string * Peer) =>
              add_load l (Dict.get_default ea (fst item) "A")
                       (demand (snd item)))
           items loads.

(** What [evaluate_solution] computes once the per-peer loop has ended. *)
Definition avg_delay_of (self : ImmunePlacementAlgorithm)
    (delays : list (Q * Q)) : Q :=
  if Qltb 0 (total_demand_of self)
  then qsum (map (fun dr => fst dr * snd dr) delays) / total_demand_of self
  else 0.

Definition evaluated (solution : Solution) (f avg : Q) (loads : Q * Q)
    : Solution * Evaluation :=
  ({| super_peers := super_peers solution;
      edge_assignments := edge_assignments solution;
      fitness := f; avg_delay := avg;
      load_imbalance := imbalance_of (fst loads) (snd loads);
      edge_a_load := fst loads; edge_b_load := snd loads |},
   {| ev_fitness := f; ev_avg_delay := avg;
      ev_load_imbalance := imbalance_of (fst loads) (snd loads);
      ev_load_a := fst loads; ev_load_b := snd loads |}).

Definition delays_nonneg (delays : list (Q * Q)) : Prop :=
  forall dr, In dr delays -> 0 <= fst dr /\ 0 <= snd dr.




(** ** Reasoning about computations in [M]

    [post E m Q] says that on every tape [m] either returns a value
    satisfying [Q] or raises, the latter only if [E] holds: with [E := True]
    it is partial correctness, with [E := False] it is total correctness. *)
Definition post {A} (E : Prop) (m : M A) (Q : A -> Prop) : Prop :=
  forall g,
    match m g with
    | Ok (a, _) => Q a
    | Raise _ => E
    end.

(** [m] returns on every tape. *)
Definition total {A} (m : M A) : Prop := forall g, succeeds (m g).

(** What every solution of the factory and of the loop satisfies. *)
Definition solution_inv (self : ImmunePlacementAlgorithm) (s : Solution)
    : Prop :=
  well_formed self s /\ super_peers_capped self s.

(** The invariant of the loop state: every member of the population
    satisfies [solution_inv], the population has at least [pop_size]
    members, and the best-ever solution, once there is one, satisfies
    [solution_inv] (before that the best fitness is still -1). *)
Definition state_inv (self : ImmunePlacementAlgorithm) (st : opt_state)
    : Prop :=
  (forall s, In s (st_population st) -> solution_inv self s) /\
  (pop_size self <= Z.of_nat (length (st_population st)))%Z /\
  match st_best_solution st with
  | Some b => solution_inv self b
  | None => st_best_fitness st = -(1)
  end.

(** The history is ordered by best fitness and bounded by the current
    best fitness. *)
Definition history_inv (st : opt_state) : Prop :=
  (forall i j e1 e2, (i <= j)%nat ->
     st_history st !! i = Some e1 -> st_history st !! j = Some e2 ->
     best_fitness e1 <= best_fitness e2) /\
  (forall e, In e (st_history st) -> best_fitness e <= st_best_fitness st).

(** A population under construction: [np] extends [population] by [j]
    solutions and all its members satisfy [solution_inv]. *)
Definition grown (self : ImmunePlacementAlgorithm)
    (population : list Solution) (j : nat) (np : list Solution) : Prop :=
  (forall s, In s np -> solution_inv self s) /\
  length np = (length population + j)%nat.

(** ** Further predicates used by the properties of the remaining code *)

(** The label the evaluator uses for a peer: its entry, or A. *)
Definition assigned_edge_of (solution : Solution) (peer_id : string) : string :=
  Dict.get_default (edge_assignments solution) peer_id "A".

(** Some peer of the population carries a label other than A and B. *)
Definition has_bad_label (self : ImmunePlacementAlgorithm)
    (solution : Solution) : Prop :=
  exists peer_id peer,
    In (peer_id, peer) (Dict.items (peers self)) /\
    assigned_edge_of solution peer_id <> "A" /\
    assigned_edge_of solution peer_id <> "B".

(** The other edge, as line 220 computes it. *)
Definition flip_edge (label : string) : string :=
  if String.eqb label "A" then "B" else "A".

(** The solution [s] with another super-peer list. *)
Definition with_super_peers (s : Solution) (sps : list string) : Solution :=
  {| super_peers := sps;
     edge_assignments := edge_assignments s;
     fitness := fitness s; avg_delay := avg_delay s;
     load_imbalance := load_imbalance s;
     edge_a_load := edge_a_load s; edge_b_load := edge_b_load s |}.

(** Order on possibly infinite latencies. *)
Definition xle (x y : xQ) : Prop :=
  match x, y with
  | _, PInf => True
  | Fin a, Fin b => a <= b
  | PInf, Fin _ => False
  end.

(** [sum(d * r for _, d, r in effective_delays)] *)
Definition weighted_sum (delays : list (Q * Q)) : Q :=
  qsum (map (fun dr => fst dr * snd dr) delays).

(** The derived fields still hold their dataclass defaults. *)
Definition derived_fields_zero (s : Solution) : Prop :=
  fitness s = 0 /\ avg_delay s = 0 /\ load_imbalance s = 0 /\
  edge_a_load s = 0 /\ edge_b_load s = 0.

(** A record of the history whose four metrics are the 0 of a fresh
    clone. *)
Definition entry_ok (e : history_entry) : Prop :=
  best_avg_delay e = 0 /\ best_load_imbalance e = 0 /\
  best_edge_a_load e = 0 /\ best_edge_b_load e = 0.

Definition bookkeeping_inv (st : opt_state) : Prop :=
  (forall i e, st_history st !! i = Some e -> entry_ok e) /\
  (forall b, st_best_solution st = Some b -> derived_fields_zero b).

(** A population in descending order of fitness. *)
Fixpoint desc_sorted (l : list Solution) : Prop :=
  match l with
  | [] => True
  | x :: r => (forall y, In y r -> fitness y <= fitness x) /\ desc_sorted r
  end.

(** The largest number of clones one elite solution can get. *)
Definition max_clones (self : ImmunePlacementAlgorithm) : Z :=
  Z.max 1 (clone_factor self).

(** The number of elite solutions, [M] at line 280. *)
Definition elite_count (self : ImmunePlacementAlgorithm) : Z :=
  Z.max 1 (pop_size self / 3).

(** The label [_nearest_edge_baseline] gives a peer: A when edge A is
    strictly closer, B otherwise. *)
Definition nearest_label (peer : Peer) : string :=
  if Qltb (rtt_to_edge_a peer) (rtt_to_edge_b peer) then "A" else "B".

(** The label [_round_robin_baseline] gives the peer at position [i]. *)
Definition round_robin_label (i : nat) : string :=
  if Nat.even i then "A" else "B".

(** An engine over the given peers and tables with default settings. *)
Definition default_engine (ps : list Peer) (rtt : RTTMatrix)
    : ImmunePlacementAlgorithm :=
  init ps rtt 10 (7 # 10) (3 # 10) 10000 30 3 (1 # 10) 100.

(** The latency a peer record stores for an edge label: the A field for
    A, the B field for anything else (line 150 of the runner). *)
Definition stored_edge_rtt (peer : Peer) (edge : string) : Q :=
  if String.eqb edge "A" then rtt_to_edge_a peer else rtt_to_edge_b peer.

(** The delay the metrics routine records for a peer whose edge latency is
    [d_edge]: the P2P delay with its 5 ms overhead when that is strictly
    smaller, the edge latency otherwise (lines 153-158). *)
Definition metrics_delay (rtt : RTTMatrix) (sps : list string)
    (peer_id : string) (d_edge : Q) : Q :=
  match xadd (SimulationRunner.d_super_of rtt sps peer_id) 5 with
  | Fin p2p => if Qltb p2p d_edge then p2p else d_edge
  | PInf => d_edge
  end.

(** The delay record the metrics routine appends for an item of the peer
    dictionary. *)
Definition metrics_entry (solution : Solution) (rtt : RTTMatrix)
    (item : string * Peer) : Q * Q :=
  (metrics_delay rtt (super_peers solution) (fst item)
     (stored_edge_rtt (snd item) (assigned_edge_of solution (fst item))),
   demand (snd item)).

(** All the hits counted so far. *)
Definition hits_total (acc : SimulationRunner.metrics_acc) : Z :=
  (SimulationRunner.acc_p2p_hits acc
   + fst (SimulationRunner.acc_edge_hits acc)
   + snd (SimulationRunner.acc_edge_hits acc))%Z.

(** The edge table, where it has an entry for a peer of the list, agrees
    with the latency stored on the peer (as the synthetic generator builds
    it). *)
Definition edge_table_consistent (ps : list Peer) (rtt : RTTMatrix) : Prop :=
  forall p edge v, In p ps ->
    peer_to_edge rtt !! (id p, edge) = Some v -> v = stored_edge_rtt p edge.

(** The solution with the given super-peers and the nearest-edge
    assignment, as the last two baselines build it. *)
Definition nearest_solution (ps : list Peer) (sps : list string) : Solution :=
  new_Solution sps (SimulationRunner.nearest_assign ps).

(** ** What the synthetic generator guarantees *)

(** The regions the generator places near edge A (line 337). *)
Definition near_edge_a (region : string) : bool :=
  in_list region ["us-east"; "us-west"; "canada"; "brazil"].

(** The regions of line 340. *)
Definition european (region : string) : bool :=
  in_list region ["eu-west"; "eu-central"].

(** A generated peer: a known region, a demand in [[50, 500]], edge
    latencies in the band of its region (noise included), and neighbours
    that are other peers of the network.  The upper ends are included:
    [random.uniform(a, b)] can round up to [b]. *)
Definition generated_peer_ok (num_peers : Z) (p : Peer) : Prop :=
  In (region p) regions /\
  50 <= demand p /\ demand p <= 500 /\
  (if near_edge_a (region p)
   then 10 <= rtt_to_edge_a p /\ rtt_to_edge_a p <= 55 /\
        75 <= rtt_to_edge_b p /\ rtt_to_edge_b p <= 155
   else if european (region p)
   then 65 <= rtt_to_edge_a p /\ rtt_to_edge_a p <= 125 /\
        15 <= rtt_to_edge_b p /\ rtt_to_edge_b p <= 50
   else 95 <= rtt_to_edge_a p /\ rtt_to_edge_a p <= 205 /\
        25 <= rtt_to_edge_b p /\ rtt_to_edge_b p <= 85) /\
  (forall x, In x (neighbors p) ->
     x <> id p /\ In x (map peer_name (py_range 1 (num_peers + 1)))).

(** The edge table holds exactly the two stored latencies of every peer. *)
Definition edge_table_of (ps : list Peer) (rtt : RTTMatrix) : Prop :=
  (forall p, In p ps ->
     peer_to_edge rtt !! (id p, "A") = Some (rtt_to_edge_a p) /\
     peer_to_edge rtt !! (id p, "B") = Some (rtt_to_edge_b p)) /\
  (forall k e v, peer_to_edge rtt !! (k, e) = Some v ->
     In k (map id ps) /\ (e = "A" \/ e = "B")).

(** Every entry of the pairwise table joins two different peers of the
    list and lies in [[10, 200]]. *)
Definition pair_table_sound (ps : list Peer)
    (t : gmap (string * string) Q) : Prop :=
  forall k v, t !! k = Some v ->
    10 <= v /\ v <= 200 /\ fst k <> snd k /\
    In (fst k) (map id ps) /\ In (snd k) (map id ps).

(** The pairwise table has an entry for every pair of a row and a column
    at different positions. *)
Definition pair_table_covers (rows cols : list (nat * Peer))
    (t : gmap (string * string) Q) : Prop :=
  forall ip jp, In ip rows -> In jp cols -> fst ip <> fst jp ->
    is_Some (t !! (id (snd ip), id (snd jp))).

(** The pairwise table has both orderings of every pair of different
    peers, and nothing else. *)
Definition pair_table_of (ps : list Peer) (rtt : RTTMatrix) : Prop :=
  pair_table_sound ps (peer_to_peer rtt) /\
  (forall p q, In p ps -> In q ps -> id p <> id q ->
     is_Some (peer_to_peer rtt !! (id p, id q))).

(** State of the peer loop of the generator after the indices [pre]. *)
Definition peers_generated (num_peers : Z) (pre : list Z)
    (acc : list Peer * RTTMatrix) : Prop :=
  map id (fst acc) = map peer_name pre /\
  (forall p, In p (fst acc) -> generated_peer_ok num_peers p) /\
  peer_to_peer (snd acc) = ∅ /\
  edge_table_of (fst acc) (snd acc).

(** ** What the baseline comparison guarantees *)

(** The result of a comparison on [num_peers] peers: the nearest-edge
    baseline is no slower than round-robin, neither of them has a P2P hit,
    the random baseline has its fifteen super-peers, the optimised
    solution at most fifteen, and there is a record for each of the
    hundred generations. *)
Definition comparison_ok (num_peers : Z) (c : BaselineComparison) : Prop :=
  bc_num_peers c = num_peers /\
  SimulationRunner.avg_delay_ms (nearest_edge c)
    <= SimulationRunner.avg_delay_ms (round_robin c) /\
  SimulationRunner.p2p_hits (round_robin c) = 0%Z /\
  SimulationRunner.p2p_hits (nearest_edge c) = 0%Z /\
  SimulationRunner.m_num_super_peers (random_super_peers c) = 15%nat /\
  (SimulationRunner.m_num_super_peers (optimized c) <= 15)%nat /\
  length (convergence_history c) = 100%nat.

(** A record of the weight analysis: the weights add up to 1 and the
    scored solution has at most fifteen super-peers. *)
Definition alpha_beta_ok (t : Q * Q * SimulationRunner.Metrics) : Prop :=
  fst (fst t) + snd (fst t) == 1 /\
  (SimulationRunner.m_num_super_peers (snd t) <= 15)%nat.

(** A record of the super-peer analysis: the scored solution has at most
    the configured number of super-peers, and no more than there are
    peers. *)
Definition super_peer_ok (num_peers : Z) (t : Z * SimulationRunner.Metrics)
    : Prop :=
  (Z.of_nat (SimulationRunner.m_num_super_peers (snd t))
   <= Z.min (fst t) (Z.max 0 num_peers))%Z.

(** ** The range in which the exact embedding speaks for the code *)

(** At most a million peers, and demands, latencies and weights of at most
    a million.  With such inputs no sum, product or square the evaluator
    forms comes anywhere near the range of a double (the largest is the
    square of half the total demand, below 1e24), so no [**] overflows,
    the objective stays finite and its inverse is not rounded to 0. *)
Definition bounded_inputs (self : ImmunePlacementAlgorithm) : Prop :=
  (Z.of_nat (length (peers self)) <= 1000000)%Z /\
  (forall k p, In (k, p) (peers self) ->
     demand p <= 1000000 /\ rtt_to_edge_a p <= 1000000 /\
     rtt_to_edge_b p <= 1000000) /\
  (forall k v, peer_to_peer (rtt_matrix self) !! k = Some v -> v <= 1000000) /\
  (forall k v, peer_to_edge (rtt_matrix self) !! k = Some v -> v <= 1000000) /\
  alpha self <= 1000000 /\ beta self <= 1000000.

(** [x += d] for each [d] of the list in turn, from 0. *)
Definition accumulate (l : list Q) : Q := fold_left Qplus l 0.

(** The demands of the peers whose label (their entry, or A) is [edge],
    in the order of the peer dictionary. *)
Definition charged_to (solution : Solution) (edge : string)
    (items : list (string * Peer)) : list Q :=
  map (fun item => demand (snd item))
      (List.filter
         (fun item => String.eqb (assigned_edge_of solution (fst item)) edge)
         items).

(** What the per-peer loop records for an item when the solution has no
    super-peer: the stored latency of the assigned edge, and the demand. *)
Definition edge_entry (solution : Solution) (item : string * Peer) : Q * Q :=
  (stored_edge_rtt (snd item) (assigned_edge_of solution (fst item)),
   demand (snd item)).

(** The per-peer loop of [_evaluate_solution_metrics] (runner lines
    128-161), from its empty accumulators. *)
Definition metrics_loop (solution : Solution) (ps : list Peer)
    (rtt : RTTMatrix) : result SimulationRunner.metrics_acc :=
  for_each (SimulationRunner.metrics_peer solution rtt)
    (Dict.items (Dict.comprehension id (fun p => p) ps))
    {| SimulationRunner.acc_delays := [];
       SimulationRunner.acc_loads := (0, 0);
       SimulationRunner.acc_p2p_hits := 0;
       SimulationRunner.acc_edge_hits := (0%Z, 0%Z);
       SimulationRunner.acc_total_demand := 0 |}.

(** Two delay records of the same demand, the first no slower. *)
Definition no_slower (fast slow : Q * Q) : Prop :=
  fst fast <= fst slow /\ snd fast = snd slow.

(** ** Concrete networks used by the examples below *)

Definition mk_peer (name : string) (d a b : Q) : Peer :=
  {| id := name; region := "us-east"; demand := d;
     rtt_to_edge_a := a; rtt_to_edge_b := b; neighbors := [] |}.

Definition no_rtt : RTTMatrix := {| peer_to_peer := ∅; peer_to_edge := ∅ |}.

(** Both orderings of one pair measured separately, as the topology
    generator does (lines 377-388). *)
Definition two_way_rtt : RTTMatrix :=
  {| peer_to_peer := <[("a", "b") := 10]> (<[("b", "a") := 20]> ∅);
     peer_to_edge := ∅ |}.

Definition engine (ps : list Peer) (rtt : RTTMatrix) (nsp psize gens : Z)
    : ImmunePlacementAlgorithm :=
  init ps rtt nsp (7 # 10) (3 # 10) 10000 psize 3 (1 # 10) gens.


(** The four-peer scenario of section 8: demands of 100, p1 and p2 closer
    to edge A, p3 and p4 closer to edge B. *)
Definition four_peers (a1 b1 a2 b2 a3 b3 a4 b4 : Q) : list Peer :=
  [mk_peer "p1" 100 a1 b1; mk_peer "p2" 100 a2 b2;
   mk_peer "p3" 100 a3 b3; mk_peer "p4" 100 a4 b4].

Definition four_peers_example : list Peer :=
  four_peers 20 90 25 80 90 20 70 30.

Definition all_on_A : Solution :=
  new_Solution [] [("p1", "A"); ("p2", "A"); ("p3", "A"); ("p4", "A")].

(** p3 and p4 have no entry in the assignment. *)
Definition half_assigned : Solution :=
  new_Solution [] [("p1", "A"); ("p2", "B")].

(** One peer that is its own super-peer. *)
Definition lone_peer : list Peer := [mk_peer "p1" 100 50 80].
Definition lone_super_peer : Solution := new_Solution ["p1"] [("p1", "A")].

(** A tape of draws for the examples. *)
Definition tape0 : Rng :=
  {| tape := fun n => (N.of_nat n * 7919 + 13)%N; cursor := 0 |}.

(** A store holding the containers of one solution of the four-peer
    network: super-peers [p1; p2] at 1, the nearest-edge assignment at 2. *)
Definition store0 : gmap Store.loc Store.obj :=
  <[1%positive := Store.ListObj ["p1"; "p2"]]>
    (<[2%positive := Store.DictObj
         [("p1", "A"); ("p2", "A"); ("p3", "B"); ("p4", "B")]]> ∅).

Definition solution0 : Store.SolutionRef :=
  {| Store.super_peers_ref := 1%positive;
     Store.edge_assignments_ref := 2%positive |}.

(** The four-peer engine with a mutation rate of 0.99. *)
Definition eager_engine : ImmunePlacementAlgorithm :=
  init four_peers_example no_rtt 2 (7 # 10) (3 # 10) 10000 4 3 (99 # 100) 3.

(** ** Further example data *)

(** All four peers on edge A, with p1 acting as super-peer. *)
Definition all_on_A_with_p1 : Solution := with_super_peers all_on_A ["p1"].

(** p2 carries a label that is neither A nor B. *)
Definition mislabelled : Solution :=
  new_Solution [] [("p1", "A"); ("p2", "C"); ("p3", "B"); ("p4", "B")].

(** Four peers that request nothing. *)
Definition idle_peers : list Peer :=
  [mk_peer "p1" 0 20 90; mk_peer "p2" 0 25 80;
   mk_peer "p3" 0 90 20; mk_peer "p4" 0 70 30].

(** The four-peer engine with a mutation rate of 0. *)
Definition frozen_engine : ImmunePlacementAlgorithm :=
  init four_peers_example no_rtt 2 (7 # 10) (3 # 10) 10000 4 3 0 3.

(** The nearest-edge assignment of the four peers, p1 and p2 super-peers. *)
Definition two_super_peers : Solution :=
  new_Solution ["p1"; "p2"]
    [("p1", "A"); ("p2", "A"); ("p3", "B"); ("p4", "B")].

(** Every peer of the four-peer network is a super-peer. *)
Definition all_super_peers : Solution :=
  new_Solution ["p1"; "p2"; "p3"; "p4"]
    [("p1", "A"); ("p2", "A"); ("p3", "B"); ("p4", "B")].

(** Two peers sharing the id p1, then p2. *)
Definition peers_with_duplicate : list Peer :=
  [mk_peer "p1" 100 20 90; mk_peer "p2" 100 25 80; mk_peer "p1" 7 90 20].

(** * Properties *)

(** ** Numbers *)

Lemma Qltb_lt x y : Qltb x y = true <-> x < y.
Proof.
  unfold Qltb. rewrite Qlt_alt. destruct (x ?= y); split; congruence.
Qed.

Lemma Qltb_ge x y : Qltb x y = false <-> y <= x.
Proof.
  split; intros H.
  - apply Qnot_lt_le. intros Hlt. apply Qltb_lt in Hlt. congruence.
  - destruct (Qltb x y) eqn:E; [|reflexivity].
    apply Qltb_lt in E. exfalso. exact (Qlt_not_le _ _ E H).
Qed.


(** ** Distance oracle *)

Lemma get_peer_rtt_same self i : get_peer_rtt self i i = 0.
Proof. unfold get_peer_rtt. now rewrite String.eqb_refl. Qed.

Lemma get_peer_rtt_diff self i j :
  i <> j ->
  get_peer_rtt self i j =
    match peer_to_peer (rtt_matrix self) !! (i, j) with
    | Some v => v
    | None =>
        match peer_to_peer (rtt_matrix self) !! (j, i) with
        | Some v => v
        | None => 100
        end
    end.
Proof.
  intros Hne. unfold get_peer_rtt.
  destruct (String.eqb_spec i j) as [->|_]; [congruence|].
  destruct (peer_to_peer (rtt_matrix self) !! (i, j)); simpl; [reflexivity|].
  destruct (peer_to_peer (rtt_matrix self) !! (j, i)); reflexivity.
Qed.

(** C4, as claimed, fails: a peer id that is neither in the peer-to-edge
    table nor in the population makes [get_edge_rtt] raise [KeyError]. *)
Lemma get_edge_rtt_unknown_peer_raises :
  get_edge_rtt (engine [mk_peer "p1" 100 20 90] no_rtt 0 1 1) "ghost" "A"
  = Raise KeyError.
Proof. reflexivity. Qed.

(** C4 (amended): [get_peer_rtt] is total and returns 0 on equal ids, else
    the table entry under the given ordering, else under the swapped one,
    else 100; [get_edge_rtt] returns the table entry when there is one,
    otherwise the stored latency of the peer (to edge A for label "A", to
    edge B for any other label) when the id is in the population, and raises
    [KeyError] only when the id is in neither. *)
Theorem distance_oracle_defaults self (i j e : string) :
  (i = j -> get_peer_rtt self i j = 0) /\
  (i <> j -> forall v,
     peer_to_peer (rtt_matrix self) !! (i, j) = Some v ->
     get_peer_rtt self i j = v) /\
  (i <> j -> forall v,
     peer_to_peer (rtt_matrix self) !! (i, j) = None ->
     peer_to_peer (rtt_matrix self) !! (j, i) = Some v ->
     get_peer_rtt self i j = v) /\
  (i <> j ->
     peer_to_peer (rtt_matrix self) !! (i, j) = None ->
     peer_to_peer (rtt_matrix self) !! (j, i) = None ->
     get_peer_rtt self i j = 100) /\
  (forall v,
     peer_to_edge (rtt_matrix self) !! (i, e) = Some v ->
     get_edge_rtt self i e = Ok v) /\
  (forall peer,
     peer_to_edge (rtt_matrix self) !! (i, e) = None ->
     Dict.get (peers self) i = Some peer ->
     get_edge_rtt self i e =
       Ok (if String.eqb e "A" then rtt_to_edge_a peer
           else rtt_to_edge_b peer)) /\
  (is_Some (Dict.get (peers self) i) -> succeeds (get_edge_rtt self i e)) /\
  (peer_to_edge (rtt_matrix self) !! (i, e) = None ->
   Dict.get (peers self) i = None ->
   get_edge_rtt self i e = Raise KeyError).
Proof.
  repeat split.
  - intros ->. apply get_peer_rtt_same.
  - intros Hne v Hv. rewrite get_peer_rtt_diff by exact Hne. now rewrite Hv.
  - intros Hne v H1 H2. rewrite get_peer_rtt_diff by exact Hne.
    now rewrite H1, H2.
  - intros Hne H1 H2. rewrite get_peer_rtt_diff by exact Hne.
    now rewrite H1, H2.
  - intros v Hv. unfold get_edge_rtt. now rewrite Hv.
  - intros peer Hv Hp. unfold get_edge_rtt, Dict.index. now rewrite Hv, Hp.
  - intros [peer Hp]. unfold get_edge_rtt, Dict.index, succeeds.
    destruct (peer_to_edge (rtt_matrix self) !! (i, e)); [eauto|].
    rewrite Hp. simpl. eauto.
  - intros Hv Hp. unfold get_edge_rtt, Dict.index. now rewrite Hv, Hp.
Qed.

(** The oracle at a population of one peer with empty tables: the peer is
    at distance 0 from itself, 100 from a stranger, and its edge latencies
    are the stored ones. *)
Lemma distance_oracle_defaults_witness :
  let self := engine [mk_peer "p1" 100 20 90] no_rtt 0 1 1 in
  get_peer_rtt self "p1" "p1" = 0 /\
  get_peer_rtt self "p1" "p2" = 100 /\
  get_edge_rtt self "p1" "B" = Ok 90 /\
  succeeds (get_edge_rtt self "p1" "A").
Proof.
  intros self.
  destruct (distance_oracle_defaults self "p1" "p1" "B")
    as (Hsame & _ & _ & _ & _ & Hfall & _).
  destruct (distance_oracle_defaults self "p1" "p2" "A")
    as (_ & _ & _ & Hdef & _ & _ & Hok & _).
  split; [apply Hsame; reflexivity|].
  split; [apply Hdef; [discriminate|reflexivity|reflexivity]|].
  split; [apply (Hfall (mk_peer "p1" 100 20 90)); reflexivity|].
  apply Hok. exists (mk_peer "p1" 100 20 90). reflexivity.
Defined.

(** C6, as claimed, fails: with both orderings of a pair in the table under
    different latencies, each direction returns its own entry. *)
Lemma get_peer_rtt_asymmetric :
  let self := engine [] two_way_rtt 0 1 1 in
  (is_Some (peer_to_peer two_way_rtt !! ("a", "b")) \/
   is_Some (peer_to_peer two_way_rtt !! ("b", "a"))) /\
  get_peer_rtt self "a" "b" = 10 /\
  get_peer_rtt self "b" "a" = 20 /\
  ~ get_peer_rtt self "a" "b" == get_peer_rtt self "b" "a".
Proof.
  intros self. split; [left; vm_compute; eauto|].
  split; [reflexivity|]. split; [reflexivity|].
  intros H. vm_compute in H. discriminate.
Qed.

(** C6 (amended): [get_peer_rtt] is symmetric on every pair for which the
    table does not hold two different latencies under the two orderings
    (exactly one ordering present, neither present, or both with the same
    value); when both orderings of two distinct ids are present, each
    direction returns its own entry. *)
Theorem get_peer_rtt_symmetric self (i j : string) :
  ((forall x y,
      peer_to_peer (rtt_matrix self) !! (i, j) = Some x ->
      peer_to_peer (rtt_matrix self) !! (j, i) = Some y -> x = y) ->
   get_peer_rtt self i j = get_peer_rtt self j i) /\
  (forall x y,
     i <> j ->
     peer_to_peer (rtt_matrix self) !! (i, j) = Some x ->
     peer_to_peer (rtt_matrix self) !! (j, i) = Some y ->
     get_peer_rtt self i j = x /\ get_peer_rtt self j i = y).
Proof.
  split.
  - intros Hagree.
    destruct (String.eqb_spec i j) as [->|Hne]; [reflexivity|].
    rewrite !get_peer_rtt_diff by congruence.
    destruct (peer_to_peer (rtt_matrix self) !! (i, j)) as [x|] eqn:Hij,
             (peer_to_peer (rtt_matrix self) !! (j, i)) as [y|] eqn:Hji;
      try reflexivity.
    exact (Hagree x y eq_refl eq_refl).
  - intros x y Hne Hij Hji.
    rewrite !get_peer_rtt_diff by congruence. now rewrite Hij, Hji.
Qed.

(** Only the ordering [("b", "a")] is measured; both directions read it.
    With both orderings measured, 10 one way and 20 the other. *)
Lemma get_peer_rtt_symmetric_witness :
  let one_way :=
    engine [] {| peer_to_peer := <[("b", "a") := 20]> ∅; peer_to_edge := ∅ |}
           0 1 1 in
  let two_way := engine [] two_way_rtt 0 1 1 in
  get_peer_rtt one_way "a" "b" = get_peer_rtt one_way "b" "a" /\
  get_peer_rtt two_way "a" "b" = 10 /\ get_peer_rtt two_way "b" "a" = 20.
Proof.
  intros one_way two_way. split.
  - apply (proj1 (get_peer_rtt_symmetric one_way "a" "b")).
    intros x y Hx Hy. vm_compute in Hx. discriminate.
  - apply (proj2 (get_peer_rtt_symmetric two_way "a" "b"));
      [discriminate|reflexivity|reflexivity].
Defined.

(** ** Dictionaries *)

Lemma dict_get_in {V} (d : Dict.t V) k v :
  In (k, v) d -> exists v', Dict.get d k = Some v'.
Proof.
  induction d as [|[k' v'] r IH]; simpl; [tauto|].
  intros [H|H].
  - inversion H; subst. rewrite String.eqb_refl. eauto.
  - destruct (String.eqb k' k); eauto.
Qed.

Lemma dict_get_some_in {V} (d : Dict.t V) k v :
  Dict.get d k = Some v -> In (k, v) d.
Proof.
  induction d as [|[k' v'] r IH]; simpl; [discriminate|].
  destruct (String.eqb_spec k' k) as [->|Hne].
  - intros [= ->]. now left.
  - intros H. right. auto.
Qed.

Lemma dict_get_none {V} (d : Dict.t V) k :
  Dict.get d k = None <-> ~ In k (Dict.keys d).
Proof.
  induction d as [|[k' v'] r IH]; simpl; [tauto|].
  destruct (String.eqb_spec k' k) as [->|Hne].
  - split; [discriminate|]. intros H. exfalso. apply H. now left.
  - rewrite IH. tauto.
Qed.

Lemma dict_get_default_label (ea : Dict.t string) k :
  labels_ok ea ->
  Dict.get_default ea k "A" = "A" \/ Dict.get_default ea k "A" = "B".
Proof.
  intros Hl. unfold Dict.get_default.
  destruct (Dict.get ea k) as [v|] eqn:E; [|now left].
  apply Hl. apply dict_get_some_in in E.
  unfold Dict.values. apply in_map_iff. exists (k, v). auto.
Qed.

(** ** Sums and minima of non-negative rationals *)

Lemma Qsq x : x ^ 2 == x * x.
Proof. simpl. reflexivity. Qed.

Lemma Qsq_nonneg x : 0 <= x ^ 2.
Proof. rewrite Qsq. nra. Qed.

Lemma fold_plus_nonneg l a :
  0 <= a -> (forall x, In x l -> 0 <= x) -> 0 <= fold_left Qplus l a.
Proof.
  revert a. induction l as [|x l IH]; simpl; intros a Ha Hl; [exact Ha|].
  apply IH.
  - assert (0 <= x) by (apply Hl; now left). lra.
  - intros y Hy. apply Hl. now right.
Qed.

Lemma qsum_nonneg l : (forall x, In x l -> 0 <= x) -> 0 <= qsum l.
Proof. apply fold_plus_nonneg. lra. Qed.

Lemma min2_nonneg a b : 0 <= a -> 0 <= b -> 0 <= min2 a b.
Proof. unfold min2. destruct (Qltb b a); auto. Qed.

Lemma min_list_nonneg rest first :
  0 <= first -> (forall x, In x rest -> 0 <= x) -> 0 <= min_list first rest.
Proof.
  unfold min_list. revert first.
  induction rest as [|x rest IH]; simpl; intros first Hf Hr; [exact Hf|].
  apply IH.
  - apply min2_nonneg; [exact Hf|apply Hr; now left].
  - intros y Hy. apply Hr. now right.
Qed.

Lemma imbalance_nonneg a b : 0 <= imbalance_of a b.
Proof.
  unfold imbalance_of.
  pose proof (Qsq_nonneg (a - (a + b) / 2)).
  pose proof (Qsq_nonneg (b - (a + b) / 2)). lra.
Qed.

Lemma Qdiv_nonneg a b : 0 <= a -> 0 < b -> 0 <= a / b.
Proof.
  intros Ha Hb. apply Qle_shift_div_l; [exact Hb|]. lra.
Qed.

(** ** Loops *)

Lemma for_each_cons {S X} (body : S -> X -> result S) x r s :
  for_each body (x :: r) s = rbind (body s x) (for_each body r).
Proof. reflexivity. Qed.

(** ** Objective evaluator *)

Section Evaluator.

Variable self : ImmunePlacementAlgorithm.

Lemma get_peer_rtt_nonneg i j :
  (forall k v, peer_to_peer (rtt_matrix self) !! k = Some v -> 0 <= v) ->
  0 <= get_peer_rtt self i j.
Proof.
  intros Ht. unfold get_peer_rtt.
  destruct (String.eqb i j); [lra|].
  destruct (peer_to_peer (rtt_matrix self) !! (i, j)) eqn:E1; simpl;
    [eapply Ht; eauto|].
  destruct (peer_to_peer (rtt_matrix self) !! (j, i)) eqn:E2; simpl;
    [eapply Ht; eauto|lra].
Qed.

Lemma get_edge_rtt_known peer_id peer edge :
  In (peer_id, peer) (peers self) ->
  succeeds (get_edge_rtt self peer_id edge).
Proof.
  intros Hin. unfold get_edge_rtt, Dict.index, succeeds.
  destruct (peer_to_edge (rtt_matrix self) !! (peer_id, edge)); [eauto|].
  destruct (dict_get_in _ _ _ Hin) as [p' ->]. simpl. eauto.
Qed.

Lemma get_edge_rtt_nonneg peer_id edge d :
  nonneg_inputs self ->
  get_edge_rtt self peer_id edge = Ok d -> 0 <= d.
Proof.
  intros (Hp & _ & He). unfold get_edge_rtt, Dict.index.
  destruct (peer_to_edge (rtt_matrix self) !! (peer_id, edge)) eqn:E.
  - intros [= <-]. eapply He; eauto.
  - destruct (Dict.get (peers self) peer_id) as [p|] eqn:G; simpl;
      [|discriminate].
    apply dict_get_some_in in G. destruct (Hp _ _ G) as (_ & Ha & Hb).
    intros [= <-]. destruct (String.eqb edge "A"); assumption.
Qed.

Lemma xmin_nonneg x b :
  (forall a, x = Fin a -> 0 <= a) -> 0 <= b -> 0 <= xmin x b.
Proof.
  destruct x as [a|]; simpl; intros Hx Hb; [|exact Hb].
  apply min2_nonneg; auto.
Qed.

Lemma d_super_nonneg sps peer_id a :
  nonneg_inputs self ->
  xadd (d_super_of self sps peer_id) 5 = Fin a -> 0 <= a.
Proof.
  intros (_ & Ht & _). destruct sps as [|sp rest]; simpl; [discriminate|].
  intros [= <-].
  assert (0 <= min_list (get_peer_rtt self peer_id sp)
                        (map (get_peer_rtt self peer_id) rest)).
  { apply min_list_nonneg; [now apply get_peer_rtt_nonneg|].
    intros x Hx. apply in_map_iff in Hx as (y & <- & _).
    now apply get_peer_rtt_nonneg. }
  lra.
Qed.

Lemma add_load_label loads edge d :
  edge = "A" \/ edge = "B" -> succeeds (add_load loads edge d).
Proof. intros [->| ->]; unfold succeeds; simpl; eauto. Qed.

Lemma evaluate_peer_succeeds solution acc peer_id peer :
  labels_ok (edge_assignments solution) ->
  In (peer_id, peer) (peers self) ->
  succeeds (evaluate_peer self solution acc (peer_id, peer)).
Proof.
  intros Hl Hin. destruct acc as [delays loads].
  unfold evaluate_peer, succeeds.
  destruct (get_edge_rtt_known peer_id peer
              (Dict.get_default (edge_assignments solution) peer_id "A") Hin)
    as [d ->]. simpl.
  destruct (add_load_label loads
              (Dict.get_default (edge_assignments solution) peer_id "A")
              (demand peer) (dict_get_default_label _ _ Hl)) as [l ->].
  simpl. eauto.
Qed.

Lemma evaluate_peer_nonneg solution delays loads peer_id peer delays' loads' :
  nonneg_inputs self ->
  In (peer_id, peer) (peers self) ->
  delays_nonneg delays ->
  evaluate_peer self solution (delays, loads) (peer_id, peer)
    = Ok (delays', loads') ->
  delays_nonneg delays'.
Proof.
  intros Hnn Hin Hd. unfold evaluate_peer.
  destruct (get_edge_rtt self peer_id _) as [d|] eqn:Ed; simpl;
    [|discriminate].
  destruct (add_load loads _ (demand peer)) as [l|]; simpl; [|discriminate].
  intros [= <- <-] dr Hdr. apply in_app_iff in Hdr as [Hdr|[<-|[]]]; auto.
  simpl. split.
  - apply xmin_nonneg; [|eapply get_edge_rtt_nonneg; eauto].
    intros a Ha. eapply d_super_nonneg; eauto.
  - destruct Hnn as (Hp & _). now destruct (Hp _ _ Hin).
Qed.

Lemma evaluate_loop_succeeds solution items acc :
  labels_ok (edge_assignments solution) ->
  (forall item, In item items -> In item (peers self)) ->
  succeeds (for_each (evaluate_peer self solution) items acc).
Proof.
  intros Hl. revert acc.
  induction items as [|[peer_id peer] items IH]; intros acc Hsub; simpl.
  - unfold succeeds. eauto.
  - destruct (evaluate_peer_succeeds solution acc peer_id peer Hl)
      as [acc' ->]; [apply Hsub; now left|].
    simpl. apply IH. intros item Hi. apply Hsub. now right.
Qed.

Lemma evaluate_loop_nonneg solution items delays loads delays' loads' :
  nonneg_inputs self ->
  (forall item, In item items -> In item (peers self)) ->
  delays_nonneg delays ->
  for_each (evaluate_peer self solution) items (delays, loads)
    = Ok (delays', loads') ->
  delays_nonneg delays'.
Proof.
  intros Hnn. revert delays loads.
  induction items as [|[peer_id peer] items IH];
    intros delays loads Hsub Hd.
  - simpl. intros [= <- <-]. exact Hd.
  - rewrite for_each_cons.
    destruct (evaluate_peer self solution (delays, loads) (peer_id, peer))
      as [[d1 l1]|] eqn:E; simpl rbind; [|discriminate].
    apply IH.
    + intros item Hi. apply Hsub. now right.
    + eapply evaluate_peer_nonneg; eauto. apply Hsub. now left.
Qed.

End Evaluator.

Section EvaluatorResult.

Variable self : ImmunePlacementAlgorithm.

Lemma evaluate_solution_unfold solution delays loads :
  for_each (evaluate_peer self solution) (Dict.items (peers self))
           ([], (0, 0)) = Ok (delays, loads) ->
  evaluate_solution self solution =
    rbind (py_div 1 (objective_of self (avg_delay_of self delays)
                       (imbalance_of (fst loads) (snd loads))
                     + (1 # 1000000)))
          (fun f => Ok (evaluated solution f (avg_delay_of self delays) loads)).
Proof. intros H. unfold evaluate_solution. rewrite H. reflexivity. Qed.

Lemma evaluate_solution_raise_loop solution e :
  for_each (evaluate_peer self solution) (Dict.items (peers self))
           ([], (0, 0)) = Raise e ->
  evaluate_solution self solution = Raise e.
Proof. intros H. unfold evaluate_solution. rewrite H. reflexivity. Qed.

Lemma avg_delay_nonneg delays :
  delays_nonneg delays -> 0 <= avg_delay_of self delays.
Proof.
  intros Hd. unfold avg_delay_of.
  destruct (Qltb 0 (total_demand_of self)) eqn:E; [|lra].
  apply Qltb_lt in E. apply Qdiv_nonneg; [|exact E].
  apply qsum_nonneg. intros x Hx.
  apply in_map_iff in Hx as (dr & <- & Hin).
  destruct (Hd _ Hin). nra.
Qed.

Lemma objective_nonneg avg imb :
  0 <= alpha self -> 0 <= beta self -> 0 <= avg -> 0 <= imb ->
  0 <= objective_of self avg imb.
Proof.
  intros Ha Hb Havg Himb. unfold objective_of.
  assert (H1 : 0 <= avg / 200) by (apply Qdiv_nonneg; lra).
  assert (H2 : 0 <= (if Qltb 0 ((total_demand_of self / 2) ^ 2)
                     then imb / (total_demand_of self / 2) ^ 2 else 0)).
  { destruct (Qltb 0 ((total_demand_of self / 2) ^ 2)) eqn:E; [|lra].
    apply Qltb_lt in E. now apply Qdiv_nonneg. }
  nra.
Qed.

Lemma py_div_pos b : 0 < b -> py_div 1 b = Ok (1 / b) /\ 0 < 1 / b.
Proof.
  intros Hb. unfold py_div.
  destruct (Qeq_bool b 0) eqn:E.
  - apply Qeq_bool_eq in E. lra.
  - split; [reflexivity|]. unfold Qdiv. rewrite Qmult_1_l.
    now apply Qinv_lt_0_compat.
Qed.

(** With valid labels and non-negative inputs and weights, evaluation
    succeeds, the loop's delays are non-negative and the fitness is the
    positive number [1 / (objective + 1e-6)]. *)
Lemma evaluate_solution_succeeds solution :
  labels_ok (edge_assignments solution) ->
  nonneg_inputs self -> 0 <= alpha self -> 0 <= beta self ->
  exists delays loads,
    for_each (evaluate_peer self solution) (Dict.items (peers self))
             ([], (0, 0)) = Ok (delays, loads) /\
    let avg := avg_delay_of self delays in
    let obj := objective_of self avg (imbalance_of (fst loads) (snd loads)) in
    evaluate_solution self solution
      = Ok (evaluated solution (1 / (obj + (1 # 1000000))) avg loads) /\
    0 <= obj /\ 0 < 1 / (obj + (1 # 1000000)).
Proof.
  intros Hl Hnn Ha Hb.
  destruct (evaluate_loop_succeeds self solution (Dict.items (peers self))
              ([], (0, 0)) Hl) as [[delays loads] Hloop]; [auto|].
  exists delays, loads. split; [exact Hloop|]. intros avg obj.
  assert (Hd : delays_nonneg delays).
  { eapply evaluate_loop_nonneg with (delays := []); eauto.
    intros dr []. }
  assert (Hobj : 0 <= obj).
  { apply objective_nonneg; auto.
    - now apply avg_delay_nonneg.
    - apply imbalance_nonneg. }
  destruct (py_div_pos (obj + (1 # 1000000))) as [Hdiv Hpos]; [lra|].
  rewrite (evaluate_solution_unfold _ _ _ Hloop).
  fold avg. fold obj. rewrite Hdiv. simpl. auto.
Qed.

End EvaluatorResult.

(** C3, as claimed, fails: inputs that are not negative can still be out
    of range.  With one peer that demands 1e200 kbps the square in the
    load imbalance (line 149) raises [OverflowError], so no fitness is
    returned; and with a delay weight of 1e308 the objective is infinite
    and the fitness returned is 0.0, which is not strictly positive.
    Both happen whichever way the interpreter sums. *)
Lemma fitness_fails_out_of_range :
  Binary64.evaluate_solution false Binary64.huge_demand_engine Binary64.on_A
    = Binary64.Raise Binary64.OverflowError /\
  Binary64.evaluate_solution true Binary64.huge_demand_engine Binary64.on_A
    = Binary64.Raise Binary64.OverflowError /\
  (exists s e,
     Binary64.evaluate_solution false Binary64.huge_weight_engine
       Binary64.on_A = Binary64.Ok (s, e) /\
     Binary64.not_positive (Binary64.ev_fitness e) = true) /\
  (exists s e,
     Binary64.evaluate_solution true Binary64.huge_weight_engine
       Binary64.on_A = Binary64.Ok (s, e) /\
     Binary64.not_positive (Binary64.ev_fitness e) = true).
Proof.
  split; [vm_compute; reflexivity|]. split; [vm_compute; reflexivity|].
  split; eexists _, _; (split; [vm_compute; reflexivity|]);
    vm_compute; reflexivity.
Qed.

(** C3 (amended): on a well-formed solution, with demands, latencies and
    weights that are non-negative and at most a million, for at most a
    million peers, [evaluate_solution] returns, and the fitness it returns
    is strictly positive and equals [1 / (objective + 1e-6)], the objective
    being [alpha * normDelay + beta * normImbalance] of the returned average
    delay and load imbalance.  The upper bounds keep every intermediate
    value far inside the range of a double, where the exact arithmetic of
    this model and the rounded arithmetic of the interpreter agree on what
    is raised and on the sign of the result. *)
Theorem fitness_strictly_positive self solution :
  well_formed self solution ->
  nonneg_inputs self -> bounded_inputs self ->
  0 <= alpha self -> 0 <= beta self ->
  exists s e,
    evaluate_solution self solution = Ok (s, e) /\
    0 < ev_fitness e /\
    ~ ev_fitness e <= 0 /\
    fitness s = ev_fitness e /\
    ev_fitness e =
      1 / (objective_of self (ev_avg_delay e) (ev_load_imbalance e)
           + (1 # 1000000)).
Proof.
  intros Hwf Hnn _ Ha Hb.
  destruct (evaluate_solution_succeeds self solution (wf_labels _ _ Hwf)
              Hnn Ha Hb) as (delays & loads & _ & Hev & _ & Hpos).
  eexists _, _. split; [exact Hev|]. simpl.
  split; [exact Hpos|]. split; [lra|]. split; reflexivity.
Qed.

(** The loads the evaluator accumulates depend on the assignment and the
    demands only. *)
Lemma evaluate_loop_loads self solution items delays loads delays' loads' :
  for_each (evaluate_peer self solution) items (delays, loads)
    = Ok (delays', loads') ->
  loads_of (edge_assignments solution) items loads = Ok loads'.
Proof.
  unfold loads_of. revert delays loads.
  induction items as [|[peer_id peer] items IH]; intros delays loads.
  - simpl. now intros [= _ <-].
  - rewrite !for_each_cons. unfold evaluate_peer at 1.
    destruct (get_edge_rtt self peer_id _) as [d|]; simpl rbind;
      [|discriminate].
    simpl fst. simpl snd.
    destruct (add_load loads _ (demand peer)) as [l|]; simpl rbind;
      [|discriminate].
    apply IH.
Qed.

Lemma evaluate_solution_loads self solution s e :
  evaluate_solution self solution = Ok (s, e) ->
  loads_of (edge_assignments solution) (Dict.items (peers self)) (0, 0)
    = Ok (ev_load_a e, ev_load_b e) /\
  ev_load_imbalance e = imbalance_of (ev_load_a e) (ev_load_b e).
Proof.
  intros H.
  destruct (for_each (evaluate_peer self solution) (Dict.items (peers self))
              ([], (0, 0))) as [[delays loads]|x] eqn:Hloop.
  - rewrite (evaluate_solution_unfold _ _ _ _ Hloop) in H.
    destruct (py_div 1 _) as [f|]; simpl in H; [|discriminate].
    injection H as <- <-. simpl.
    apply evaluate_loop_loads in Hloop. rewrite Hloop.
    now destruct loads.
  - rewrite (evaluate_solution_raise_loop _ _ _ Hloop) in H. discriminate.
Qed.

(** ** The four-peer scenario *)

Lemma four_peers_nonneg a1 b1 a2 b2 a3 b3 a4 b4 rtt nsp al be cap ps cf mr g :
  0 <= a1 -> 0 <= b1 -> 0 <= a2 -> 0 <= b2 ->
  0 <= a3 -> 0 <= b3 -> 0 <= a4 -> 0 <= b4 ->
  (forall k v, peer_to_peer rtt !! k = Some v -> 0 <= v) ->
  (forall k v, peer_to_edge rtt !! k = Some v -> 0 <= v) ->
  nonneg_inputs
    (init (four_peers a1 b1 a2 b2 a3 b3 a4 b4) rtt nsp al be cap ps cf mr g).
Proof.
  intros. split; [|split; assumption].
  intros k p Hin. simpl in Hin.
  destruct Hin as [Hin|[Hin|[Hin|[Hin|[]]]]]; inversion Hin; subst; simpl;
    repeat split; auto; lra.
Qed.

Lemma no_rtt_nonneg :
  (forall k v, peer_to_peer no_rtt !! k = Some v -> 0 <= v) /\
  (forall k v, peer_to_edge no_rtt !! k = Some v -> 0 <= v).
Proof. split; intros k v H; simpl in H; rewrite lookup_empty in H; discriminate. Qed.

Lemma four_peers_bounded a1 b1 a2 b2 a3 b3 a4 b4 nsp al be cap ps cf mr g :
  a1 <= 1000000 -> b1 <= 1000000 -> a2 <= 1000000 -> b2 <= 1000000 ->
  a3 <= 1000000 -> b3 <= 1000000 -> a4 <= 1000000 -> b4 <= 1000000 ->
  al <= 1000000 -> be <= 1000000 ->
  bounded_inputs
    (init (four_peers a1 b1 a2 b2 a3 b3 a4 b4) no_rtt nsp al be cap ps cf mr g).
Proof.
  intros. split; [vm_compute; discriminate|].
  split; [|split; [|split; [|split]]].
  - intros k p Hin. simpl in Hin.
    destruct Hin as [Hin|[Hin|[Hin|[Hin|[]]]]]; inversion Hin; subst; simpl;
      repeat split; auto; lra.
  - intros k v Hv. simpl in Hv. rewrite lookup_empty in Hv. discriminate.
  - intros k v Hv. simpl in Hv. rewrite lookup_empty in Hv. discriminate.
  - assumption.
  - assumption.
Qed.

(** C2, as claimed, fails: with all four peers on edge A the loads are 400
    and 0, and the variance formula gives 40000, not 10000. *)
Lemma all_on_A_imbalance_is_not_10000 :
  exists s e,
    evaluate_solution (engine four_peers_example no_rtt 0 3 2) all_on_A
      = Ok (s, e) /\
    ev_load_a e == 400 /\ ev_load_b e == 0 /\
    ev_load_imbalance e == 40000 /\
    ~ ev_load_imbalance e == 10000.
Proof.
  destruct (evaluate_solution (engine four_peers_example no_rtt 0 3 2) all_on_A)
    as [[s e]|] eqn:E; [|vm_compute in E; discriminate].
  exists s, e. split; [reflexivity|].
  vm_compute in E. injection E as <- <-. simpl.
  repeat split; try reflexivity. intros H. vm_compute in H. discriminate.
Qed.

(** C2 (amended): in the four-peer scenario (whatever the latencies, as
    long as p1 and p2 are closer to A and p3 and p4 closer to B), the
    solution with every peer on edge A evaluates to loads 400 and 0 and to
    the load imbalance 0.5*((400-200)^2 + (0-200)^2) = 40000; the
    nearest-edge solution evaluates to loads 200 and 200 and imbalance 0. *)
Theorem four_peer_scenario a1 b1 a2 b2 a3 b3 a4 b4 rtt nsp al be cap ps cf mr g :
  let peers4 := four_peers a1 b1 a2 b2 a3 b3 a4 b4 in
  let self := init peers4 rtt nsp al be cap ps cf mr g in
  a1 < b1 -> a2 < b2 -> b3 < a3 -> b4 < a4 ->
  0 <= a1 -> 0 <= a2 -> 0 <= b3 -> 0 <= b4 ->
  (forall k v, peer_to_peer rtt !! k = Some v -> 0 <= v) ->
  (forall k v, peer_to_edge rtt !! k = Some v -> 0 <= v) ->
  0 <= al -> 0 <= be ->
  (exists s e,
     evaluate_solution self all_on_A = Ok (s, e) /\
     ev_load_a e == 400 /\ ev_load_b e == 0 /\
     ev_load_imbalance e == (1 # 2) * ((400 - 200) ^ 2 + (0 - 200) ^ 2) /\
     ev_load_imbalance e == 40000) /\
  (exists s e,
     evaluate_solution self
       (SimulationRunner._nearest_edge_baseline peers4 rtt) = Ok (s, e) /\
     ev_load_a e == 200 /\ ev_load_b e == 200 /\
     ev_load_imbalance e == 0).
Proof.
  intros peers4 self H1 H2 H3 H4 Ha1 Ha2 Hb3 Hb4 Hpp Hpe Hal Hbe.
  assert (Hnn : nonneg_inputs self).
  { apply four_peers_nonneg; auto; lra. }
  split.
  - destruct (evaluate_solution_succeeds self all_on_A) as
      (delays & loads & _ & Hev & _); auto.
    { intros v Hv. simpl in Hv. intuition. }
    eexists _, _. split; [exact Hev|].
    destruct (evaluate_solution_loads _ _ _ _ Hev) as [Hl Hi].
    cbn in Hl. injection Hl as Hla Hlb.
    cbn [evaluated snd ev_load_a ev_load_b ev_load_imbalance].
    rewrite <- Hla, <- Hlb. unfold imbalance_of.
    repeat split; rewrite ?Qsq; try field; ring.
  - set (near := SimulationRunner._nearest_edge_baseline peers4 rtt).
    assert (Hnear : edge_assignments near
                    = [("p1", "A"); ("p2", "A"); ("p3", "B"); ("p4", "B")]).
    { unfold near, SimulationRunner._nearest_edge_baseline,
        SimulationRunner.nearest_assign, peers4, four_peers. cbn.
      apply Qltb_lt in H1, H2. rewrite H1, H2.
      assert (E3 : Qltb a3 b3 = false) by (apply Qltb_ge; lra).
      assert (E4 : Qltb a4 b4 = false) by (apply Qltb_ge; lra).
      rewrite E3, E4. reflexivity. }
    destruct (evaluate_solution_succeeds self near) as
      (delays & loads & _ & Hev & _); auto.
    { rewrite Hnear. intros v Hv. simpl in Hv. intuition. }
    eexists _, _. split; [exact Hev|].
    destruct (evaluate_solution_loads _ _ _ _ Hev) as [Hl Hi].
    rewrite Hnear in Hl. cbn in Hl. injection Hl as Hla Hlb.
    cbn [evaluated snd ev_load_a ev_load_b ev_load_imbalance].
    rewrite <- Hla, <- Hlb. unfold imbalance_of.
    repeat split; rewrite ?Qsq; try field; ring.
Qed.

Lemma four_peer_scenario_witness :
  (exists s e,
     evaluate_solution (engine four_peers_example no_rtt 0 3 2) all_on_A
       = Ok (s, e) /\
     ev_load_a e == 400 /\ ev_load_b e == 0 /\
     ev_load_imbalance e == (1 # 2) * ((400 - 200) ^ 2 + (0 - 200) ^ 2) /\
     ev_load_imbalance e == 40000) /\
  (exists s e,
     evaluate_solution (engine four_peers_example no_rtt 0 3 2)
       (SimulationRunner._nearest_edge_baseline four_peers_example no_rtt)
       = Ok (s, e) /\
     ev_load_a e == 200 /\ ev_load_b e == 200 /\
     ev_load_imbalance e == 0).
Proof.
  apply (four_peer_scenario 20 90 25 80 90 20 70 30 no_rtt 0
           (7 # 10) (3 # 10) 10000 3 3 (1 # 10) 2);
    try lra; apply no_rtt_nonneg.
Defined.

Lemma all_on_A_well_formed :
  well_formed (engine four_peers_example no_rtt 0 3 2) all_on_A.
Proof.
  split; simpl.
  - repeat constructor; simpl; intuition discriminate.
  - tauto.
  - intros v Hv. simpl in Hv. intuition.
  - constructor.
  - tauto.
Qed.

Lemma fitness_strictly_positive_witness :
  exists s e,
    evaluate_solution (engine four_peers_example no_rtt 0 3 2) all_on_A
      = Ok (s, e) /\
    0 < ev_fitness e /\
    ~ ev_fitness e <= 0 /\
    fitness s = ev_fitness e /\
    ev_fitness e =
      1 / (objective_of (engine four_peers_example no_rtt 0 3 2)
             (ev_avg_delay e) (ev_load_imbalance e)
           + (1 # 1000000)).
Proof.
  apply fitness_strictly_positive.
  - exact all_on_A_well_formed.
  - apply four_peers_nonneg; try lra; apply no_rtt_nonneg.
  - apply four_peers_bounded; lra.
  - simpl. lra.
  - simpl. lra.
Defined.

(** ** Peers without an assignment *)


Lemma evaluate_peer_ext self s1 s2 acc item :
  super_peers s1 = super_peers s2 ->
  (forall k, Dict.get_default (edge_assignments s1) k "A"
             = Dict.get_default (edge_assignments s2) k "A") ->
  evaluate_peer self s1 acc item = evaluate_peer self s2 acc item.
Proof.
  intros Hsp Hea. destruct acc as [delays loads], item as [peer_id peer].
  unfold evaluate_peer. now rewrite Hsp, Hea.
Qed.

Lemma evaluate_loop_ext self s1 s2 items acc :
  super_peers s1 = super_peers s2 ->
  (forall k, Dict.get_default (edge_assignments s1) k "A"
             = Dict.get_default (edge_assignments s2) k "A") ->
  for_each (evaluate_peer self s1) items acc
  = for_each (evaluate_peer self s2) items acc.
Proof.
  intros Hsp Hea. revert acc.
  induction items as [|item items IH]; intros acc; [reflexivity|].
  rewrite !for_each_cons, (evaluate_peer_ext self s1 s2) by assumption.
  destruct (evaluate_peer self s2 acc item); simpl; auto.
Qed.



(** ** The metrics routine against the evaluator *)

(** Edge loads and load imbalance are the part of the claim that holds:
    both routines charge each demand to the assigned edge. *)
Lemma metrics_loop_loads solution rtt items : forall acc acc',
  for_each (SimulationRunner.metrics_peer solution rtt) items acc = Ok acc' ->
  loads_of (edge_assignments solution) items (SimulationRunner.acc_loads acc)
    = Ok (SimulationRunner.acc_loads acc').
Proof.
  unfold loads_of.
  induction items as [|[peer_id peer] items IH]; intros acc acc'.
  - simpl. now intros [= <-].
  - rewrite !for_each_cons. unfold SimulationRunner.metrics_peer at 1.
    simpl fst. simpl snd.
    set (edge := Dict.get_default (edge_assignments solution) peer_id "A").
    match goal with
    | |- rbind (rbind ?hit _) _ = _ -> _ => destruct hit as [[[d p] eh]|x]
    end; simpl rbind; [|discriminate].
    destruct (add_load (SimulationRunner.acc_loads acc) edge (demand peer))
      as [l|x]; simpl rbind; [|discriminate].
    intros H. apply IH in H. exact H.
Qed.

Lemma metrics_loads_agree ps rtt nsp a b cap psize cf mr gens solution s e m :
  evaluate_solution (init ps rtt nsp a b cap psize cf mr gens) solution
    = Ok (s, e) ->
  SimulationRunner._evaluate_solution_metrics solution ps rtt = Ok m ->
  SimulationRunner.edge_a_load_kbps m = ev_load_a e /\
  SimulationRunner.edge_b_load_kbps m = ev_load_b e /\
  SimulationRunner.m_load_imbalance m = ev_load_imbalance e.
Proof.
  intros Hev Hm.
  apply evaluate_solution_loads in Hev as [Hl Hi]. simpl in Hl.
  unfold SimulationRunner._evaluate_solution_metrics in Hm.
  destruct (for_each _ _ _) as [acc|x] eqn:Hloop; simpl in Hm; [|discriminate].
  apply metrics_loop_loads in Hloop. simpl in Hloop.
  unfold Dict.items in *. rewrite Hl in Hloop. injection Hloop as Hab.
  injection Hm as <-. simpl. rewrite Hi, <- Hab. auto.
Qed.

(** C1 fails on the code: for a solution whose super-peer belongs to the
    population, such as the one the random-super-peer baseline returns for
    a single peer, the evaluator gives that peer the P2P distance 0 (delay
    5 with the overhead), while the metrics routine reads the pairwise
    table for the pair (p1, p1), finds nothing and uses 100: the two
    average delays are 5 and 50. *)
Theorem metrics_routine_differs_from_evaluator :
  (exists g',
     SimulationRunner._random_super_peers_baseline lone_peer no_rtt 1 tape0
       = Ok (lone_super_peer, g')) /\
  (exists s e,
     evaluate_solution (engine lone_peer no_rtt 1 1 1) lone_super_peer
       = Ok (s, e) /\
     ev_avg_delay e == 5) /\
  (exists m,
     SimulationRunner._evaluate_solution_metrics lone_super_peer lone_peer no_rtt
       = Ok m /\
     SimulationRunner.avg_delay_ms m == 50).
Proof.
  split; [|split].
  - eexists. vm_compute. reflexivity.
  - destruct (evaluate_solution (engine lone_peer no_rtt 1 1 1) lone_super_peer)
      as [[s e]|] eqn:E; vm_compute in E; [|discriminate].
    injection E as <- <-. eexists _, _. split; [reflexivity|]. reflexivity.
  - destruct (SimulationRunner._evaluate_solution_metrics
                lone_super_peer lone_peer no_rtt) as [m|] eqn:E;
      vm_compute in E; [|discriminate].
    injection E as <-. eexists. split; [reflexivity|]. reflexivity.
Qed.

(** ** Rules for [post] *)

Section PostRules.

Variable E : Prop.

Lemma post_ret {A} (a : A) (Q : A -> Prop) : Q a -> post E (ret a) Q.
Proof. intros H g. exact H. Qed.

Lemma post_bind {A B} (m : M A) (k : A -> M B) (P : A -> Prop)
    (Q : B -> Prop) :
  post E m P -> (forall a, P a -> post E (k a) Q) -> post E (bind m k) Q.
Proof.
  intros Hm Hk g. unfold bind. specialize (Hm g).
  destruct (m g) as [[a g']|e]; [|exact Hm]. exact (Hk a Hm g').
Qed.

Lemma post_weaken {A} (m : M A) (P Q : A -> Prop) :
  post E m P -> (forall a, P a -> Q a) -> post E m Q.
Proof.
  intros Hm HPQ g. specialize (Hm g).
  destruct (m g) as [[a g']|e]; auto.
Qed.

Lemma post_lift {A} (r : result A) (Q : A -> Prop) :
  match r with Ok a => Q a | Raise _ => E end -> post E (lift r) Q.
Proof. intros H g. unfold lift. destruct r; exact H. Qed.

Lemma post_raise {A} (e : exn) (Q : A -> Prop) : E -> post E (raise e) Q.
Proof. intros H g. exact H. Qed.

Lemma post_random : post E random (fun _ => True).
Proof. intros g. exact I. Qed.

Lemma post_randbelow n : (0 < n)%nat -> post E (randbelow n) (fun j => (j < n)%nat).
Proof. intros Hn g. simpl. apply Nat.mod_upper_bound. lia. Qed.

Lemma post_for_each_M {S X} (body : S -> X -> M S) (Inv : S -> Prop) l s :
  (forall s x, In x l -> Inv s -> post E (body s x) Inv) ->
  Inv s -> post E (for_each_M body l s) Inv.
Proof.
  revert s. induction l as [|x l IH]; intros s Hbody Hs; simpl.
  - now apply post_ret.
  - eapply post_bind.
    + apply Hbody; [now left|exact Hs].
    + intros s' Hs'. apply IH; [|exact Hs'].
      intros s0 y Hy. apply Hbody. now right.
Qed.

(** The invariant may count the turns of the loop. *)
Lemma post_repeat_M {S} (body : S -> M S) (Inv : nat -> S -> Prop) n s i :
  (forall j s, Inv j s -> post E (body s) (Inv (Datatypes.S j))) ->
  Inv i s -> post E (repeat_M body n s) (Inv (n + i)%nat).
Proof.
  intros Hbody. revert s i. induction n as [|n IH]; intros s i Hs; simpl.
  - now apply post_ret.
  - eapply post_bind; [apply Hbody; exact Hs|].
    intros s' Hs'. replace (Datatypes.S (n + i)) with (n + Datatypes.S i)%nat by lia.
    now apply IH.
Qed.

End PostRules.

Lemma post_partial {A} (m : M A) (Q : A -> Prop) g a g' :
  post True m Q -> m g = Ok (a, g') -> Q a.
Proof. intros H Hg. specialize (H g). now rewrite Hg in H. Qed.

Lemma post_total {A} (m : M A) (Q : A -> Prop) g :
  post False m Q -> exists a g', m g = Ok (a, g') /\ Q a.
Proof.
  intros H. specialize (H g). destruct (m g) as [[a g']|e]; [eauto|tauto].
Qed.

(** ** [random.sample] and [random.choice] *)

Lemma insert_pick_perm (l : list string) j x d :
  (j < length l)%nat ->
  Permutation (l ++ [x])%list (nth j l d :: <[j := x]> l).
Proof.
  revert j. induction l as [|a l IH]; intros j Hj; simpl in Hj; [lia|].
  destruct j as [|j]; simpl.
  - constructor. symmetry. apply Permutation_cons_append.
  - etransitivity; [apply perm_skip, (IH j); lia|]. apply perm_swap.
Qed.

Lemma pool_step_perm (pool : list string) j :
  (j < length pool)%nat ->
  Permutation pool
    (nth j pool "" :: removelast (<[j := List.last pool ""]> pool)).
Proof.
  intros Hj.
  destruct (exists_last (l := pool)) as (front & lst & ->).
  { intros ->. simpl in Hj. lia. }
  rewrite last_last. rewrite length_app in Hj. simpl in Hj.
  destruct (Nat.eq_dec j (length front)) as [->|Hne].
  - rewrite app_nth2, Nat.sub_diag by lia. simpl.
    rewrite insert_app_r_alt, Nat.sub_diag by lia. simpl.
    rewrite removelast_last. symmetry. apply Permutation_cons_append.
  - rewrite app_nth1 by lia. rewrite insert_app_l by lia.
    rewrite removelast_last. apply insert_pick_perm. lia.
Qed.

Section Sampling.

Variable E : Prop.

Lemma post_sample_loop k : forall pool,
  (k <= length pool)%nat -> List.NoDup pool ->
  post E (sample_loop pool k)
    (fun res => length res = k /\ List.NoDup res /\
                forall x, In x res -> In x pool).
Proof.
  induction k as [|k IH]; intros pool Hk Hnd; simpl.
  - apply post_ret. repeat split; [constructor|intros x []].
  - eapply post_bind; [apply post_randbelow; lia|].
    intros j Hj. simpl in Hj.
    pose proof (pool_step_perm pool j Hj) as Hperm.
    set (pool' := removelast (<[j := List.last pool ""]> pool)) in *.
    assert (Hnd' : List.NoDup (nth j pool "" :: pool'))
      by (eapply Permutation_NoDup; eauto).
    apply NoDup_cons_iff in Hnd' as [Hfresh Hnd'].
    assert (Hlen : length pool = Datatypes.S (length pool'))
      by (apply Permutation_length in Hperm; exact Hperm).
    eapply post_bind; [apply (IH pool'); [lia|exact Hnd']|].
    intros rest (Hl & Hn & Hsub). apply post_ret.
    split; [simpl; lia|]. split.
    + constructor; [|exact Hn]. intros Hin. apply Hfresh, Hsub, Hin.
    + intros x [<-|Hx].
      * eapply Permutation_in; [symmetry; exact Hperm|now left].
      * eapply Permutation_in; [symmetry; exact Hperm|right; auto].
Qed.

(** [sample] raises only when [k] is out of range. *)
Lemma post_sample population k :
  List.NoDup population ->
  ((k < 0)%Z -> E) ->
  (k <= Z.of_nat (length population))%Z ->
  post E (sample population k)
    (fun res => (0 <= k)%Z /\ length res = Z.to_nat k /\ List.NoDup res /\
                forall x, In x res -> In x population).
Proof.
  intros Hnd Hneg Hle. unfold sample.
  destruct (0 <=? k)%Z eqn:E0; simpl.
  - apply Z.leb_le in E0.
    destruct (k <=? Z.of_nat (length population))%Z eqn:E1.
    + eapply post_weaken; [apply post_sample_loop; [lia|exact Hnd]|].
      intros res H. split; [exact E0|exact H].
    + apply Z.leb_gt in E1. lia.
  - apply Z.leb_gt in E0. apply post_raise. auto.
Qed.

Lemma post_choice c seq :
  post E (choice (c :: seq)) (fun x => In x (c :: seq)).
Proof.
  unfold choice. eapply post_bind; [apply post_randbelow; simpl; lia|].
  intros j Hj. apply post_ret. apply nth_In. exact Hj.
Qed.

End Sampling.

(** ** Dictionary updates *)

Lemma dict_set_new {V} (d : Dict.t V) k v :
  ~ In k (Dict.keys d) ->
  Dict.set d k v = (d ++ [(k, v)])%list.
Proof.
  induction d as [|[k' v'] r IH]; simpl; intros Hk; [reflexivity|].
  destruct (String.eqb_spec k' k) as [->|Hne]; [tauto|].
  rewrite IH by tauto. reflexivity.
Qed.

Lemma dict_set_keys_old {V} (d : Dict.t V) k v :
  In k (Dict.keys d) -> Dict.keys (Dict.set d k v) = Dict.keys d.
Proof.
  induction d as [|[k' v'] r IH]; simpl; intros Hk; [tauto|].
  destruct (String.eqb_spec k' k) as [->|Hne]; [reflexivity|].
  simpl. rewrite IH; [reflexivity|]. destruct Hk; [congruence|assumption].
Qed.

Lemma dict_set_values {V} (d : Dict.t V) k v x :
  In x (Dict.values (Dict.set d k v)) -> x = v \/ In x (Dict.values d).
Proof.
  induction d as [|[k' v'] r IH]; simpl.
  - intros [<-|[]]. now left.
  - destruct (String.eqb k' k); simpl; intros [<-|H]; auto.
    destruct (IH H); auto.
Qed.

Lemma dict_index_key {V} (d : Dict.t V) k :
  In k (Dict.keys d) -> exists v, Dict.index d k = Ok v.
Proof.
  intros Hk. unfold Dict.index.
  destruct (Dict.get d k) as [v|] eqn:E; [eauto|].
  apply dict_get_none in E. tauto.
Qed.

(** ** List updates *)

Lemma in_list_insert (l : list string) i c x :
  In x (<[i := c]> l) -> x = c \/ In x l.
Proof.
  revert i. induction l as [|a l IH]; intros i; simpl; [tauto|].
  destruct i as [|i]; simpl.
  - intros [<-|H]; auto.
  - intros [<-|H]; auto. destruct (IH _ H); auto.
Qed.

Lemma nodup_list_insert (l : list string) i c :
  List.NoDup l -> ~ In c l -> List.NoDup (<[i := c]> l).
Proof.
  revert i. induction l as [|a l IH]; intros i Hnd Hc; simpl; [constructor|].
  apply NoDup_cons_iff in Hnd as [Ha Hnd].
  destruct i as [|i]; simpl.
  - constructor; [|exact Hnd]. intros H. apply Hc. now right.
  - constructor.
    + intros H. apply in_list_insert in H as [->|H]; [|tauto].
      apply Hc. now left.
    + apply IH; [exact Hnd|]. intros H. apply Hc. now right.
Qed.

Lemma not_in_spec l p : not_in l p = true <-> ~ In p l.
Proof.
  unfold not_in. rewrite negb_true_iff. split.
  - intros H Hin. apply not_true_iff_false in H. apply H.
    apply existsb_exists. exists p. split; [exact Hin|apply String.eqb_refl].
  - intros H. apply not_true_iff_false. intros Hex.
    apply existsb_exists in Hex as (x & Hx & Heq).
    apply String.eqb_eq in Heq. subst. tauto.
Qed.

(** ** Solution factory *)

Lemma evaluate_solution_fields self solution s e :
  evaluate_solution self solution = Ok (s, e) ->
  super_peers s = super_peers solution /\
  edge_assignments s = edge_assignments solution /\
  fitness s = ev_fitness e.
Proof.
  intros H.
  destruct (for_each (evaluate_peer self solution) (Dict.items (peers self))
              ([], (0, 0))) as [[delays loads]|x] eqn:Hloop.
  - rewrite (evaluate_solution_unfold _ _ _ _ Hloop) in H.
    destruct (py_div 1 _) as [f|]; simpl in H; [|discriminate].
    injection H as <- <-. simpl. auto.
  - rewrite (evaluate_solution_raise_loop _ _ _ Hloop) in H. discriminate.
Qed.

Lemma well_formed_fields self s s' :
  super_peers s' = super_peers s ->
  edge_assignments s' = edge_assignments s ->
  solution_inv self s -> solution_inv self s'.
Proof.
  intros Hsp Hea [[H1 H2 H3 H4 H5] Hcap].
  split; [split|unfold super_peers_capped]; rewrite ?Hsp, ?Hea; auto.
Qed.

Section Factory.

Variable E : Prop.
Variable fit_ok : Q -> Prop.
Variable self : ImmunePlacementAlgorithm.

Hypothesis Hvalid : valid_instance self.

(** Where the engine can raise, [E] must hold. *)
Hypothesis Hcount : (num_super_peers self < 0)%Z -> E.
Hypothesis Heval : forall solution,
  labels_ok (edge_assignments solution) ->
  match evaluate_solution self solution with
  | Ok (s, _) => fit_ok (fitness s)
  | Raise _ => E
  end.

Lemma post_random_edge d peer_id peer :
  post E (random_edge d (peer_id, peer))
    (fun d' => exists label,
                 (label = "A" \/ label = "B") /\
                 d' = Dict.set d peer_id label).
Proof.
  unfold random_edge.
  eapply post_bind; [apply post_random|]. intros u _. apply post_ret.
  eexists. split; [|reflexivity].
  destruct (Qltb (rtt_to_edge_a peer) _), (Qltb u _); auto.
Qed.

Lemma post_random_edges items : forall d,
  List.NoDup (Dict.keys d ++ map fst items) ->
  labels_ok d ->
  post E (for_each_M random_edge items d)
    (fun d' => Dict.keys d' = (Dict.keys d ++ map fst items)%list /\
               labels_ok d').
Proof.
  induction items as [|[peer_id peer] items IH]; intros d Hnd Hl.
  - apply post_ret. simpl. rewrite app_nil_r. auto.
  - change (for_each_M random_edge ((peer_id, peer) :: items) d)
      with (bind (random_edge d (peer_id, peer))
                 (for_each_M random_edge items)).
    eapply post_bind; [apply post_random_edge|].
    intros d1 (label & Hlabel & ->).
    assert (Hfresh : ~ In peer_id (Dict.keys d)).
    { intros Hin. apply NoDup_remove_2 in Hnd. apply Hnd.
      apply in_or_app. now left. }
    rewrite (dict_set_new d peer_id label Hfresh).
    eapply post_weaken.
    + apply IH.
      * unfold Dict.keys. rewrite map_app. simpl.
        rewrite <- app_assoc. exact Hnd.
      * intros v Hv. unfold Dict.values in Hv. rewrite map_app in Hv.
        apply in_app_iff in Hv as [Hv|[<-|[]]]; [now apply Hl|exact Hlabel].
    + intros d' [Hk Hl']. split; [|exact Hl'].
      rewrite Hk. unfold Dict.keys. rewrite map_app, <- app_assoc.
      reflexivity.
Qed.

Lemma post_generate_random_solution :
  post E (generate_random_solution self)
    (fun s => solution_inv self s /\ fit_ok (fitness s) /\
              length (super_peers s)
              = Z.to_nat (Z.min (num_super_peers self)
                                (Z.of_nat (length (peer_list self))))).
Proof.
  destruct Hvalid as [Hnd Hkeys]. unfold generate_random_solution.
  eapply post_bind.
  { apply post_sample; [exact Hnd|intros Hk; apply Hcount; lia|lia]. }
  intros sps (Hk0 & Hlen & Hsnd & Hsub).
  eapply post_bind.
  { apply (post_random_edges (Dict.items (peers self)) Dict.empty).
    - simpl. unfold Dict.items. fold (Dict.keys (peers self)).
      now rewrite Hkeys.
    - intros v []. }
  intros ea [Hk Hl]. simpl in Hk.
  unfold Dict.items in Hk. fold (Dict.keys (peers self)) in Hk.
  eapply post_bind.
  { apply post_lift with
      (Q := fun r => fst r = fst r /\
              super_peers (fst r) = sps /\ edge_assignments (fst r) = ea /\
              fit_ok (fitness (fst r))).
    pose proof (Heval (new_Solution sps ea) Hl) as He.
    destruct (evaluate_solution self (new_Solution sps ea)) as [[s e]|x] eqn:Ev;
      [|exact He].
    apply evaluate_solution_fields in Ev as (H1 & H2 & _). simpl. auto. }
  intros [s e] (_ & Hs1 & Hs2 & Hf). simpl in *. apply post_ret.
  split; [|split; [exact Hf|now rewrite Hs1]].
  split; [split|]; rewrite ?Hs1, ?Hs2.
  - rewrite Hk, Hkeys. exact Hnd.
  - intros k. now rewrite Hk.
  - exact Hl.
  - exact Hsnd.
  - intros p Hp. rewrite Hkeys. auto.
  - unfold super_peers_capped. rewrite Hs1, Hlen, Hkeys. lia.
Qed.

Lemma post_mutate_super_peers sps :
  List.NoDup sps -> (forall p, In p sps -> In p (peer_list self)) ->
  post E (mutate_super_peers self sps)
    (fun sps' => length sps' = length sps /\ List.NoDup sps' /\
                 forall p, In p sps' -> In p (peer_list self)).
Proof.
  intros Hnd Hsub. unfold mutate_super_peers.
  eapply post_bind; [apply post_random|]. intros u _.
  destruct (Qltb u (mutation_rate self) && (0 <? length sps)%nat) eqn:Hc;
    [|apply post_ret; auto].
  apply andb_true_iff in Hc as [_ Hpos]. apply Nat.ltb_lt in Hpos.
  eapply post_bind; [apply post_randbelow; exact Hpos|]. intros idx Hidx.
  destruct (List.filter (not_in sps) (peer_list self)) as [|c cs] eqn:Hf;
    [apply post_ret; auto|].
  eapply post_bind; [apply post_choice|]. intros x Hx.
  rewrite <- Hf in Hx. apply filter_In in Hx as [Hx1 Hx2].
  apply not_in_spec in Hx2. apply post_ret. split; [|split].
  - apply length_insert.
  - now apply nodup_list_insert.
  - intros p Hp. apply in_list_insert in Hp as [->|Hp]; auto.
Qed.

Lemma post_mutate_edges (ea : Dict.t string) keys : forall d,
  Dict.keys d = Dict.keys ea -> labels_ok d ->
  (forall k, In k keys -> In k (Dict.keys ea)) ->
  post E (for_each_M (mutate_edge self) keys d)
    (fun d' => Dict.keys d' = Dict.keys ea /\ labels_ok d').
Proof.
  intros d Hk Hl Hsub.
  apply post_for_each_M with
    (Inv := fun d' => Dict.keys d' = Dict.keys ea /\ labels_ok d'); [|auto].
  intros d' peer_id Hin [Hk' Hl']. unfold mutate_edge.
  eapply post_bind; [apply post_random|]. intros u _.
  destruct (Qltb u _); [|apply post_ret; auto].
  assert (Hkey : In peer_id (Dict.keys d')) by (rewrite Hk'; auto).
  destruct (dict_index_key d' peer_id Hkey) as [cur Hcur].
  rewrite Hcur.
  eapply post_bind;
    [apply (post_lift E (Ok cur) (fun c => c = cur)); reflexivity|].
  intros c ->. apply post_ret. split.
  - rewrite dict_set_keys_old by exact Hkey. exact Hk'.
  - intros v Hv. apply dict_set_values in Hv as [->|Hv]; [|auto].
    destruct (String.eqb cur "A"); auto.
Qed.

Lemma post_mutate_solution solution :
  solution_inv self solution ->
  post E (mutate_solution self solution) (solution_inv self).
Proof.
  intros [[H1 H2 H3 H4 H5] Hcap]. destruct Hvalid as [Hnd Hkeys].
  unfold mutate_solution. simpl.
  eapply post_bind.
  { apply post_mutate_super_peers; [exact H4|].
    intros p Hp. rewrite <- Hkeys. auto. }
  intros sps (Hlen & Hsnd & Hsub).
  eapply post_bind.
  { apply (post_mutate_edges (edge_assignments solution)); auto. }
  intros ea [Hk Hl]. apply post_ret.
  split; [split|]; simpl; rewrite ?Hk; auto.
  - intros p Hp. rewrite Hkeys. auto.
  - unfold super_peers_capped in *. simpl. rewrite Hlen. exact Hcap.
Qed.

End Factory.

(** ** Pieces of the optimization loop *)

Lemma insert_desc_perm s l : Permutation (insert_desc s l) (s :: l).
Proof.
  induction l as [|y r IH]; simpl; [reflexivity|].
  destruct (Qltb (fitness s) (fitness y)); [|reflexivity].
  etransitivity; [apply perm_skip, IH|apply perm_swap].
Qed.

Lemma sort_desc_perm l : Permutation (sort_desc l) l.
Proof.
  induction l as [|s l IH]; simpl; [reflexivity|].
  etransitivity; [apply insert_desc_perm|]. now apply perm_skip.
Qed.

Lemma py_div_nonempty a n :
  (0 < n)%nat ->
  py_div a (inject_Z (Z.of_nat n)) = Ok (a / inject_Z (Z.of_nat n)).
Proof.
  intros Hn. unfold py_div.
  destruct (Qeq_bool (inject_Z (Z.of_nat n)) 0) eqn:E; [|reflexivity].
  apply Qeq_bool_eq in E. unfold Qeq in E. simpl in E. lia.
Qed.

Lemma clone_solution_inv self s :
  solution_inv self s -> solution_inv self (clone_solution s).
Proof. apply well_formed_fields; reflexivity. Qed.

(** [track_best] never forgets a best solution, and leaves the pair alone
    exactly when no fitness exceeds the best one. *)
Lemma fold_track_best_inv self pop : forall bs bf bs' bf',
  fold_left track_best pop (bs, bf) = (bs', bf') ->
  (forall s, In s pop -> solution_inv self s) ->
  match bs with Some b => solution_inv self b | None => True end ->
  match bs' with
  | Some b => solution_inv self b
  | None => bs = None /\ bf' = bf /\
            forall s, In s pop -> Qltb bf (fitness s) = false
  end.
Proof.
  induction pop as [|s pop IH]; intros bs bf bs' bf' Hfold Hpop Hbs.
  - simpl in Hfold. injection Hfold as <- <-.
    destruct bs; [exact Hbs|]. repeat split; auto. intros s [].
  - simpl in Hfold. unfold track_best at 2 in Hfold. simpl in Hfold.
    destruct (Qltb bf (fitness s)) eqn:Hlt.
    + specialize (IH _ _ _ _ Hfold).
      destruct bs'; [apply IH|].
      * intros x Hx. apply Hpop. now right.
      * apply clone_solution_inv, Hpop. now left.
      * destruct IH as [Hn _].
        -- intros x Hx. apply Hpop. now right.
        -- apply clone_solution_inv, Hpop. now left.
        -- discriminate.
    + specialize (IH _ _ _ _ Hfold).
      destruct bs'; [apply IH; auto|].
      * intros x Hx. apply Hpop. now right.
      * destruct IH as (Hn & Hf & Hall); auto.
        { intros x Hx. apply Hpop. now right. }
        repeat split; auto. intros x [<-|Hx]; auto.
Qed.

Section Loop.

Variable E : Prop.
Variable fit_ok : Q -> Prop.
Variable self : ImmunePlacementAlgorithm.

Hypothesis Hvalid : valid_instance self.
Hypothesis Hcount : (num_super_peers self < 0)%Z -> E.
Hypothesis Heval : forall solution,
  labels_ok (edge_assignments solution) ->
  match evaluate_solution self solution with
  | Ok (s, _) => fit_ok (fitness s)
  | Raise _ => E
  end.
Hypothesis Hfit : forall f, fit_ok f -> E \/ - (1) < f.
Hypothesis Hpop : (pop_size self < 1)%Z -> E.
Hypothesis Hgens : (max_generations self < 1)%Z -> E.

Lemma evaluate_all_inv population :
  (forall s, In s population -> solution_inv self s) ->
  match evaluate_all self population with
  | Ok population' =>
      length population' = length population /\
      forall s, In s population' ->
                solution_inv self s /\ fit_ok (fitness s)
  | Raise _ => E
  end.
Proof.
  induction population as [|s r IH]; intros Hinv; simpl.
  - split; [reflexivity|intros s []].
  - assert (Hs : solution_inv self s) by (apply Hinv; now left).
    pose proof (Heval s (wf_labels _ _ (proj1 Hs))) as He.
    destruct (evaluate_solution self s) as [[s' e]|x] eqn:Ev; [|exact He].
    simpl. specialize (IH (fun x Hx => Hinv x (or_intror Hx))).
    destruct (evaluate_all self r) as [r'|x]; [|exact IH]. simpl.
    destruct IH as [Hlen Hall]. split; [now rewrite Hlen|].
    intros x [<-|Hx]; [|auto]. simpl. split; [|exact He].
    apply evaluate_solution_fields in Ev as (H1 & H2 & _).
    eapply well_formed_fields; eauto.
Qed.

Lemma post_append_random population n :
  (forall s, In s population -> solution_inv self s) ->
  post E (repeat_M (fun np =>
                      s <~ generate_random_solution self ;;
                      ret (np ++ [s])%list) n population)
    (grown self population n).
Proof.
  intros Hinv. replace n with (n + 0)%nat at 2 by lia.
  apply post_repeat_M with (Inv := grown self population).
  - intros j np [Hall Hlen].
    eapply post_bind;
      [apply (post_generate_random_solution E fit_ok self); assumption|].
    intros s (Hs & _ & _). apply post_ret. split.
    + intros x Hx. apply in_app_iff in Hx as [Hx|[<-|[]]]; auto.
    + rewrite length_app. simpl. lia.
  - split; [exact Hinv|lia].
Qed.

Lemma post_clone_elite population new_population idx :
  (forall s, In s population -> solution_inv self s) ->
  (forall s, In s new_population -> solution_inv self s) ->
  (idx < length population)%nat ->
  post E (clone_elite self population new_population idx)
    (fun np => forall s, In s np -> solution_inv self s).
Proof.
  intros Hinv Hnew Hidx. unfold clone_elite, list_index.
  destruct (population !! idx) as [solution|] eqn:Hsol.
  2: { apply lookup_ge_None in Hsol. lia. }
  destruct (population !! 0%nat) as [head|] eqn:Hhead.
  2: { apply lookup_ge_None in Hhead. lia. }
  eapply post_bind;
    [apply (post_lift E (Ok solution) (fun s => s = solution)); reflexivity|].
  intros ? ->.
  eapply post_bind;
    [apply (post_lift E (Ok head) (fun s => s = head)); reflexivity|].
  intros ? ->.
  assert (Hs : solution_inv self solution).
  { apply Hinv. apply list_elem_of_In. eapply list_elem_of_lookup_2; eauto. }
  eapply post_weaken.
  - apply post_repeat_M with
      (Inv := fun (_ : nat) np => forall s, In s np -> solution_inv self s)
      (i := 0%nat); [|exact Hnew].
    intros _ np Hnp.
    eapply post_bind; [apply (post_mutate_solution E self Hvalid _ Hs)|].
    intros c Hc. apply post_ret.
    intros x Hx. apply in_app_iff in Hx as [Hx|[<-|[]]]; auto.
  - auto.
Qed.

Lemma post_generation_step g st :
  state_inv self st ->
  post E (generation_step self g st)
    (fun st' => state_inv self st' /\ st_best_solution st' <> None).
Proof.
  intros (Hinv & Hlen & Hbest). unfold generation_step.
  eapply post_bind; [apply post_lift, (evaluate_all_inv _ Hinv)|].
  intros population [Hl Hall].
  destruct (fold_left track_best population
              (st_best_solution st, st_best_fitness st)) as [bs bf] eqn:Hfold.
  pose proof (sort_desc_perm population) as Hperm.
  assert (Hsorted : forall s, In s (sort_desc population) ->
                              solution_inv self s).
  { intros s Hs. apply Hall. eapply Permutation_in; eauto. }
  assert (Hslen : length (sort_desc population) = length (st_population st)).
  { rewrite (Permutation_length Hperm). exact Hl. }
  destruct (Nat.eq_dec (length (sort_desc population)) 0%nat) as [Hz|Hnz].
  { (* line 258 divides by the length of an empty population *)
    apply post_bind with (P := fun _ => False); [|intros ? []].
    apply post_lift. rewrite Hz. unfold py_div. simpl. apply Hpop. lia. }
  assert (Hpos : (0 < length (sort_desc population))%nat) by lia.
  assert (HM : (Z.to_nat (Z.max 1 (pop_size self / 3))
                <= length (sort_desc population))%nat).
  { pose proof (Z.div_le_upper_bound (pop_size self) 3 (pop_size self)).
    destruct (Z_lt_le_dec (pop_size self) 0) as [Hn|Hp].
    - pose proof (Z.div_lt_upper_bound (pop_size self) 3 0). lia.
    - lia. }
  rewrite (py_div_nonempty _ _ Hpos).
  eapply post_bind;
    [apply (post_lift E (Ok _) (fun _ => True)); exact I|].
  intros avg _.
  pose proof (fold_track_best_inv self population _ _ _ _ Hfold
                (fun s Hs => proj1 (Hall s Hs))) as Hbs.
  assert (Hbs' : match bs with
                 | Some b => solution_inv self b
                 | None => E
                 end).
  { destruct bs as [b|].
    - apply Hbs. destruct (st_best_solution st); auto.
    - destruct Hbs as (Hnone & Hbf & Hno).
      { destruct (st_best_solution st); auto. }
      rewrite Hnone in Hbest.
      destruct population as [|s0 pop0];
        [simpl in Hpos; lia|].
      destruct (Hfit (fitness s0)) as [He|Hgt];
        [apply Hall; now left|exact He|].
      specialize (Hno s0 (or_introl eq_refl)).
      rewrite Hbest in Hno. apply Qltb_ge in Hno. lra. }
  destruct bs as [b|]; [|apply post_bind with (P := fun _ => False);
                          [apply post_lift; exact Hbs'|intros ? []]].
  eapply post_bind;
    [apply (post_lift E (Ok b) (fun x => x = b)); reflexivity|].
  intros ? ->.
  eapply post_bind.
  { apply post_for_each_M with
      (Inv := fun np => forall s, In s np -> solution_inv self s).
    - intros np idx Hidx Hnp. apply post_clone_elite; auto.
      apply in_seq in Hidx. lia.
    - intros s []. }
  intros np Hnp.
  eapply post_bind; [apply (post_append_random np _ Hnp)|].
  intros np' [Hnp' Hlen']. apply post_ret.
  split; [|discriminate]. split; [exact Hnp'|]. split; [|exact Hbs'].
  simpl. lia.
Qed.

Lemma post_run_generations n : forall g st,
  state_inv self st ->
  (n = 0%nat -> st_best_solution st <> None) ->
  post E (run_generations self n g st)
    (fun st' => state_inv self st' /\ st_best_solution st' <> None).
Proof.
  induction n as [|n IH]; intros g st Hst Hsome; simpl.
  - apply post_ret. auto.
  - eapply post_bind; [apply post_generation_step; exact Hst|].
    intros st' [H1 H2]. apply IH; auto.
Qed.

Lemma post_initial_population :
  post E (initial_population self)
    (fun population =>
       (forall s, In s population -> solution_inv self s) /\
       length population = Z.to_nat (pop_size self)).
Proof.
  unfold initial_population.
  eapply post_weaken; [apply (post_append_random [])|].
  - intros s [].
  - intros population [H1 H2]. split; [exact H1|]. simpl in H2. exact H2.
Qed.

Lemma post_optimize :
  post E (optimize self) (fun r => solution_inv self (fst r)).
Proof.
  unfold optimize.
  eapply post_bind; [apply post_initial_population|].
  intros population [Hinv Hlen].
  assert (Hst : state_inv self
                  {| st_population := population;
                     st_best_solution := None;
                     st_best_fitness := - (1);
                     st_history := [] |}).
  { split; [exact Hinv|]. split; [simpl; lia|reflexivity]. }
  destruct (Z.to_nat (max_generations self)) as [|n] eqn:Hn.
  - (* no generation runs: the report dereferences None *)
    simpl. unfold ret at 1. unfold bind at 1.
    apply post_bind with (P := fun _ => False); [|intros ? []].
    apply post_lift. simpl. apply Hgens. lia.
  - eapply post_bind;
      [apply post_run_generations; [exact Hst|discriminate]|].
    intros st [(_ & _ & Hb) Hsome].
    destruct (st_best_solution st) as [b|]; [|congruence].
    eapply post_bind;
      [apply (post_lift E (Ok b) (fun x => x = b)); reflexivity|].
    intros ? ->. apply post_ret. exact Hb.
Qed.

End Loop.

(** ** Invariants of the factory and of the loop *)

(** C7: every solution returned by [generate_random_solution], by
    [clone_solution] or [mutate_solution] applied to a solution with the
    invariants, and by [optimize], as well as every member of the loop's
    population and its best-ever solution after any number of generations,
    has an edge assignment whose key set is the population's id set, labels
    that are A or B, and a duplicate-free super-peer list of population ids
    no longer than [min(num_super_peers, |population|)]; [mutate_solution]
    returns on every tape. *)
Theorem factory_and_loop_invariants self :
  valid_instance self ->
  (forall g s g',
     generate_random_solution self g = Ok (s, g') ->
     well_formed self s /\ super_peers_capped self s) /\
  (forall s,
     well_formed self s /\ super_peers_capped self s ->
     well_formed self (clone_solution s) /\
     super_peers_capped self (clone_solution s)) /\
  (forall s g,
     well_formed self s /\ super_peers_capped self s ->
     exists s' g',
       mutate_solution self s g = Ok (s', g') /\
       well_formed self s' /\ super_peers_capped self s') /\
  (forall n g population g1 st g2,
     initial_population self g = Ok (population, g1) ->
     run_generations self n 0%Z
       {| st_population := population; st_best_solution := None;
          st_best_fitness := - (1); st_history := [] |} g1 = Ok (st, g2) ->
     (forall s, In s (st_population st) ->
        well_formed self s /\ super_peers_capped self s) /\
     (forall b, st_best_solution st = Some b ->
        well_formed self b /\ super_peers_capped self b)) /\
  (forall g best history g',
     optimize self g = Ok (best, history, g') ->
     well_formed self best /\ super_peers_capped self best).
Proof.
  intros Hvalid.
  assert (Heval : forall solution,
            labels_ok (edge_assignments solution) ->
            match evaluate_solution self solution with
            | Ok (s, _) => (fun _ : Q => True) (fitness s)
            | Raise _ => True
            end).
  { intros solution _. destruct (evaluate_solution self solution) as [[]|]; exact I. }
  split; [|split; [|split; [|split]]].
  - intros g s g' Hgen.
    exact (proj1 (post_partial _ _ _ _ _
             (post_generate_random_solution True _ self Hvalid
                (fun _ => I) Heval) Hgen)).
  - intros s. apply clone_solution_inv.
  - intros s g Hs.
    exact (post_total _ _ g (post_mutate_solution False self Hvalid s Hs)).
  - intros n g population g1 st g2 Hinit Hrun.
    destruct (post_partial _ _ _ _ _
                (post_initial_population True _ self Hvalid (fun _ => I) Heval)
                Hinit) as [Hinv Hlen].
    destruct n as [|n].
    + simpl in Hrun. injection Hrun as <- _. simpl.
      split; [exact Hinv|discriminate].
    + assert (Hst : state_inv self
                      {| st_population := population;
                         st_best_solution := None;
                         st_best_fitness := - (1);
                         st_history := [] |}).
      { split; [exact Hinv|]. split; [simpl; lia|reflexivity]. }
      destruct (post_partial _ _ _ _ _
                  (post_run_generations True _ self Hvalid (fun _ => I) Heval
                     (fun _ _ => or_introl I) (fun _ => I)
                     (Datatypes.S n) 0%Z _ Hst ltac:(discriminate)) Hrun)
        as [(Hpop & _ & Hbest) _].
      split; [exact Hpop|]. intros b Hb. now rewrite Hb in Hbest.
  - intros g best history g' Hopt.
    exact (post_partial _ _ _ _ _
             (post_optimize True _ self Hvalid (fun _ => I) Heval
                (fun _ _ => or_introl I) (fun _ => I) (fun _ => I)) Hopt).
Qed.

Lemma init_valid ps rtt nsp a b cap psize cf mr gens :
  List.NoDup (map id ps) ->
  valid_instance (init ps rtt nsp a b cap psize cf mr gens).
Proof.
  intros Hnd. split; [exact Hnd|]. simpl. unfold Dict.comprehension.
  assert (H : forall l (d : Dict.t Peer),
            List.NoDup (Dict.keys d ++ map id l) ->
            Dict.keys (fold_left (fun d x => Dict.set d (id x) x) l d)
            = (Dict.keys d ++ map id l)%list).
  { induction l as [|p l IH]; intros d Hd; simpl.
    - now rewrite app_nil_r.
    - assert (Hfresh : ~ In (id p) (Dict.keys d)).
      { intros Hin. apply NoDup_remove_2 in Hd. apply Hd.
        apply in_or_app. now left. }
      rewrite (dict_set_new d (id p) p Hfresh), IH.
      + unfold Dict.keys. rewrite map_app, <- app_assoc. reflexivity.
      + unfold Dict.keys. rewrite map_app, <- app_assoc. exact Hd. }
  apply (H ps Dict.empty). exact Hnd.
Qed.

Lemma four_peers_valid a1 b1 a2 b2 a3 b3 a4 b4 rtt nsp al be cap ps cf mr g :
  valid_instance
    (init (four_peers a1 b1 a2 b2 a3 b3 a4 b4) rtt nsp al be cap ps cf mr g).
Proof.
  apply init_valid. simpl.
  repeat constructor; simpl; intuition discriminate.
Qed.

Lemma factory_and_loop_invariants_witness :
  let self := engine four_peers_example no_rtt 2 4 3 in
  exists best history g',
    optimize self tape0 = Ok (best, history, g') /\
    well_formed self best /\ super_peers_capped self best.
Proof.
  intros self.
  destruct (optimize self tape0) as [[[best history] g']|e] eqn:Hopt.
  - exists best, history, g'. split; [reflexivity|].
    exact (proj2 (proj2 (proj2 (proj2
             (factory_and_loop_invariants self (four_peers_valid _ _ _ _ _ _ _ _
                _ _ _ _ _ _ _ _ _))))) _ _ _ _ Hopt).
  - vm_compute in Hopt. discriminate.
Defined.

(** ** Edge-case configurations *)





(** ** The best-ever solution and the history *)

Lemma track_best_keeps best s :
  fitness s <= snd best -> track_best best s = best.
Proof.
  intros H. unfold track_best. apply Qltb_ge in H. now rewrite H.
Qed.

Lemma track_best_replaces best s :
  snd best < fitness s ->
  track_best best s = (Some (clone_solution s), fitness s).
Proof.
  intros H. unfold track_best. apply Qltb_lt in H. now rewrite H.
Qed.

(** After a pass over the population the pair is either untouched, no
    fitness exceeding the old best, or holds the clone of the first
    solution of maximal fitness. *)
Lemma fold_track_best_first pop : forall bs bf bs' bf',
  fold_left track_best pop (bs, bf) = (bs', bf') ->
  (bs' = bs /\ bf' = bf /\ forall s, In s pop -> fitness s <= bf) \/
  (exists pre s post,
     pop = (pre ++ s :: post)%list /\
     bs' = Some (clone_solution s) /\ bf' = fitness s /\
     bf < fitness s /\
     (forall x, In x pre -> fitness x < fitness s) /\
     (forall x, In x post -> fitness x <= fitness s)).
Proof.
  induction pop as [|s pop IH]; intros bs bf bs' bf' Hfold; simpl in Hfold.
  - injection Hfold as <- <-. left. repeat split. intros s [].
  - destruct (Qlt_le_dec bf (fitness s)) as [Hlt|Hle].
    + rewrite (track_best_replaces (bs, bf) s Hlt) in Hfold.
      right. destruct (IH _ _ _ _ Hfold)
        as [(-> & -> & Hall)|(pre & w & post & -> & -> & -> & Hw & Hpre & Hpost)].
      * exists [], s, pop. repeat split; auto. intros x [].
      * exists (s :: pre), w, post. repeat split; auto.
        -- lra.
        -- intros x [<-|Hx]; auto.
    + rewrite (track_best_keeps (bs, bf) s Hle) in Hfold.
      destruct (IH _ _ _ _ Hfold)
        as [(-> & -> & Hall)|(pre & w & post & -> & -> & -> & Hw & Hpre & Hpost)].
      * left. repeat split. intros x [<-|Hx]; auto.
      * right. exists (s :: pre), w, post. repeat split; auto.
        intros x [<-|Hx]; [lra|auto].
Qed.

Lemma fold_track_best_mono pop bs bf bs' bf' :
  fold_left track_best pop (bs, bf) = (bs', bf') -> bf <= bf'.
Proof.
  intros H. destruct (fold_track_best_first _ _ _ _ _ H)
    as [(_ & -> & _)|(_ & s & _ & _ & _ & -> & Hlt & _)]; lra.
Qed.

Section History.

Variable self : ImmunePlacementAlgorithm.

Lemma post_lift_partial {A} (r : result A) :
  post True (lift r) (fun _ => True).
Proof. apply post_lift. destruct r; exact I. Qed.

Lemma post_any {A} (m : M A) : post True m (fun _ => True).
Proof. intros g. destruct (m g) as [[]|]; exact I. Qed.

Lemma history_generation_step g st :
  history_inv st ->
  post True (generation_step self g st)
    (fun st' => history_inv st' /\
                length (st_history st') = Datatypes.S (length (st_history st))).
Proof.
  intros [Hmono Hbound]. unfold generation_step.
  eapply post_bind; [apply post_lift_partial|]. intros population _.
  destruct (fold_left track_best population
              (st_best_solution st, st_best_fitness st)) as [bs bf] eqn:Hfold.
  apply fold_track_best_mono in Hfold.
  eapply post_bind; [apply post_lift_partial|]. intros avg _.
  eapply post_bind; [apply post_lift_partial|]. intros best _.
  eapply post_bind; [apply post_any|]. intros np _.
  eapply post_bind; [apply post_any|]. intros np' _.
  apply post_ret. simpl. split; [split|].
  - simpl. intros i j e1 e2 Hij H1 H2.
    destruct (Nat.lt_ge_cases j (length (st_history st))) as [Hj|Hj].
    + rewrite lookup_app_l in H1, H2 by lia. eauto.
    + rewrite lookup_app_r in H2 by lia.
      destruct (j - length (st_history st))%nat as [|k] eqn:Hk;
        [|destruct k; discriminate].
      injection H2 as <-. simpl.
      destruct (Nat.lt_ge_cases i (length (st_history st))) as [Hi|Hi].
      * rewrite lookup_app_l in H1 by lia.
        apply Qle_trans with (st_best_fitness st); [|exact Hfold].
        apply Hbound. apply list_elem_of_In.
        eapply list_elem_of_lookup_2; eauto.
      * rewrite lookup_app_r in H1 by lia.
        destruct (i - length (st_history st))%nat as [|k'] eqn:Hk';
          [|destruct k'; discriminate].
        injection H1 as <-. simpl. lra.
  - simpl. intros e He. apply in_app_iff in He as [He|[<-|[]]].
    + apply Qle_trans with (st_best_fitness st); auto.
    + simpl. lra.
  - rewrite length_app. simpl. lia.
Qed.

Lemma history_run_generations n : forall g st,
  history_inv st ->
  post True (run_generations self n g st)
    (fun st' => history_inv st' /\
                length (st_history st') = (n + length (st_history st))%nat).
Proof.
  induction n as [|n IH]; intros g st Hst; simpl.
  - apply post_ret. auto.
  - eapply post_bind; [apply history_generation_step; exact Hst|].
    intros st' [H1 H2]. eapply post_weaken; [apply IH; exact H1|].
    intros st'' [H3 H4]. split; [exact H3|]. rewrite H4, H2. lia.
Qed.

Lemma history_optimize :
  post True (optimize self)
    (fun r =>
       (forall i j e1 e2, (i <= j)%nat ->
          snd r !! i = Some e1 -> snd r !! j = Some e2 ->
          best_fitness e1 <= best_fitness e2) /\
       length (snd r) = Z.to_nat (max_generations self)).
Proof.
  unfold optimize.
  eapply post_bind; [apply post_any|]. intros population _.
  eapply post_bind.
  { apply history_run_generations. split; simpl.
    - intros i j e1 e2 _ H. rewrite lookup_nil in H. discriminate.
    - intros e []. }
  intros st [[Hmono _] Hlen]. simpl in Hlen.
  eapply post_bind; [apply post_lift_partial|]. intros best _.
  apply post_ret. simpl. split; [exact Hmono|lia].
Qed.

End History.

(** C8: in the history of one run there is one record per generation and
    [best_fitness] never decreases from a record to the next; the best-ever
    pair is replaced exactly when a fitness is strictly greater, so after a
    pass over a population it holds the first solution of maximal fitness
    (or is untouched when no fitness exceeds the previous best). *)
Theorem best_fitness_never_decreases self g best history g' :
  optimize self g = Ok (best, history, g') ->
  length history = Z.to_nat (max_generations self) /\
  (forall i e1 e2,
     history !! i = Some e1 -> history !! Datatypes.S i = Some e2 ->
     best_fitness e1 <= best_fitness e2) /\
  (forall b s, fitness s <= snd b -> track_best b s = b) /\
  (forall b s, snd b < fitness s ->
     track_best b s = (Some (clone_solution s), fitness s)) /\
  (forall pop bs bf bs' bf',
     fold_left track_best pop (bs, bf) = (bs', bf') ->
     (bs' = bs /\ bf' = bf /\ forall s, In s pop -> fitness s <= bf) \/
     (exists pre s post,
        pop = (pre ++ s :: post)%list /\
        bs' = Some (clone_solution s) /\ bf' = fitness s /\
        bf < fitness s /\
        (forall x, In x pre -> fitness x < fitness s) /\
        (forall x, In x post -> fitness x <= fitness s))).
Proof.
  intros Hopt.
  destruct (post_partial _ _ _ _ _ (history_optimize self) Hopt)
    as [Hmono Hlen]. simpl in Hmono, Hlen.
  split; [exact Hlen|]. split.
  - intros i e1 e2 H1 H2. apply (Hmono i (Datatypes.S i)); auto.
  - split; [exact track_best_keeps|].
    split; [exact track_best_replaces|exact fold_track_best_first].
Qed.

Lemma best_fitness_never_decreases_witness :
  let self := engine four_peers_example no_rtt 2 4 3 in
  exists best history g',
    optimize self tape0 = Ok (best, history, g') /\
    length history = 3%nat /\
    forall i e1 e2,
      history !! i = Some e1 -> history !! Datatypes.S i = Some e2 ->
      best_fitness e1 <= best_fitness e2.
Proof.
  intros self.
  destruct (optimize self tape0) as [[[best history] g']|e] eqn:Hopt.
  - exists best, history, g'. split; [reflexivity|].
    destruct (best_fitness_never_decreases self tape0 best history g' Hopt)
      as (Hlen & Hmono & _).
    split; [exact Hlen|exact Hmono].
  - vm_compute in Hopt. discriminate.
Defined.

(** ** Clones in the store *)

(** [mutate_solution] returns on every tape, whatever the solution. *)
Lemma mutate_super_peers_total self sps :
  post False (mutate_super_peers self sps) (fun _ => True).
Proof.
  unfold mutate_super_peers.
  eapply post_bind; [apply post_random|]. intros u _.
  destruct (Qltb u (mutation_rate self) && (0 <? length sps)%nat) eqn:Hc;
    [|now apply post_ret].
  apply andb_true_iff in Hc as [_ Hpos]. apply Nat.ltb_lt in Hpos.
  eapply post_bind; [apply post_randbelow; exact Hpos|]. intros idx _.
  destruct (List.filter (not_in sps) (peer_list self)) as [|c cs];
    [now apply post_ret|].
  eapply post_bind; [apply post_choice|]. intros x _. now apply post_ret.
Qed.

Lemma mutate_edges_total self (ea : Dict.t string) keys :
  (forall k, In k keys -> In k (Dict.keys ea)) ->
  post False (for_each_M (mutate_edge self) keys ea)
    (fun d' => Dict.keys d' = Dict.keys ea).
Proof.
  intros Hsub.
  apply post_for_each_M with (Inv := fun d' => Dict.keys d' = Dict.keys ea);
    [|reflexivity].
  intros d' peer_id Hin Hk'. unfold mutate_edge.
  eapply post_bind; [apply post_random|]. intros u _.
  destruct (Qltb u _); [|now apply post_ret].
  assert (Hkey : In peer_id (Dict.keys d')) by (rewrite Hk'; auto).
  destruct (dict_index_key d' peer_id Hkey) as [cur Hcur]. rewrite Hcur.
  eapply post_bind;
    [apply (post_lift False (Ok cur) (fun c => c = cur)); reflexivity|].
  intros c ->. apply post_ret.
  rewrite dict_set_keys_old by exact Hkey. exact Hk'.
Qed.

Lemma mutate_solution_total self solution :
  total (mutate_solution self solution).
Proof.
  intros g.
  assert (H : post False (mutate_solution self solution) (fun _ => True)).
  { unfold mutate_solution.
    eapply post_bind; [apply mutate_super_peers_total|]. intros sps _.
    eapply post_bind; [apply mutate_edges_total; auto|].
    intros ea _. now apply post_ret. }
  destruct (post_total _ _ g H) as (s & g' & Hs & _).
  unfold succeeds. eauto.
Qed.

Section StoreSimulation.

Variable self : ImmunePlacementAlgorithm.
Variable mutated : Store.SolutionRef.

(** The store-level steps write what the value-level steps compute, at
    the reference of the clone. *)
Lemma sim_mutate_super_peers (h : gmap Store.loc Store.obj) sps g :
  h !! Store.super_peers_ref mutated = Some (Store.ListObj sps) ->
  Store.mutate_super_peers self mutated h g =
    match mutate_super_peers self sps g with
    | Ok (sps', g') =>
        Ok (<[Store.super_peers_ref mutated := Store.ListObj sps']> h, g')
    | Raise e => Raise e
    end.
Proof.
  intros Hh. unfold Store.mutate_super_peers, mutate_super_peers, bind.
  destruct (random g) as [[u g1]|e]; [|reflexivity].
  unfold lift, Store.load_list. rewrite Hh.
  destruct (Qltb u (mutation_rate self) && (0 <? length sps)%nat).
  - destruct (randint0 (length sps) g1) as [[idx g2]|e]; [|reflexivity].
    destruct (List.filter (not_in sps) (peer_list self)) as [|c cs].
    + unfold ret. now rewrite insert_id.
    + destruct (choice (c :: cs) g2) as [[x g3]|e]; reflexivity.
  - unfold ret. now rewrite insert_id.
Qed.

Lemma sim_mutate_edge (h : gmap Store.loc Store.obj) d peer_id g :
  h !! Store.edge_assignments_ref mutated = Some (Store.DictObj d) ->
  Store.mutate_edge self mutated h peer_id g =
    match mutate_edge self d peer_id g with
    | Ok (d', g') =>
        Ok (<[Store.edge_assignments_ref mutated := Store.DictObj d']> h, g')
    | Raise e => Raise e
    end.
Proof.
  intros Hh. unfold Store.mutate_edge, mutate_edge, bind.
  destruct (random g) as [[u g1]|e]; [|reflexivity].
  destruct (Qltb u (mutation_rate self * (1 # 2))).
  - unfold lift, Store.load_dict. rewrite Hh.
    destruct (Dict.index d peer_id) as [cur|e]; reflexivity.
  - unfold ret. now rewrite insert_id.
Qed.

Lemma sim_mutate_edges keys : forall (h : gmap Store.loc Store.obj) d g,
  h !! Store.edge_assignments_ref mutated = Some (Store.DictObj d) ->
  for_each_M (Store.mutate_edge self mutated) keys h g =
    match for_each_M (mutate_edge self) keys d g with
    | Ok (d', g') =>
        Ok (<[Store.edge_assignments_ref mutated := Store.DictObj d']> h, g')
    | Raise e => Raise e
    end.
Proof.
  induction keys as [|k keys IH]; intros h d g Hh; simpl.
  - unfold ret. now rewrite insert_id.
  - unfold bind. rewrite (sim_mutate_edge h d k g Hh).
    destruct (mutate_edge self d k g) as [[d1 g1]|e]; [|reflexivity].
    rewrite (IH _ d1 g1) by apply lookup_insert_eq.
    destruct (for_each_M (mutate_edge self) keys d1 g1) as [[d2 g2]|e];
      [|reflexivity].
    now rewrite insert_insert_eq.
Qed.

End StoreSimulation.

(** The store after [mutate_solution]: the old store plus the two new
    objects, which hold what the value-level [mutate_solution] returns. *)
Lemma sim_mutate_solution self solution (h : gmap Store.loc Store.obj) sps ea g :
  h !! Store.super_peers_ref solution = Some (Store.ListObj sps) ->
  h !! Store.edge_assignments_ref solution = Some (Store.DictObj ea) ->
  let r1 := fresh (dom h) in
  let r2 := fresh (dom (<[r1 := Store.ListObj sps]> h)) in
  Store.mutate_solution self solution h g =
    match mutate_solution self (new_Solution sps ea) g with
    | Ok (v, g') =>
        Ok ({| Store.super_peers_ref := r1; Store.edge_assignments_ref := r2 |},
            <[r2 := Store.DictObj (edge_assignments v)]>
              (<[r1 := Store.ListObj (super_peers v)]> h),
            g')
    | Raise e => Raise e
    end.
Proof.
  intros Hsp Hea r1 r2.
  assert (Hr1 : h !! r1 = None).
  { apply not_elem_of_dom. apply is_fresh. }
  assert (Hr2 : <[r1 := Store.ListObj sps]> h !! r2 = None).
  { apply not_elem_of_dom. apply is_fresh. }
  assert (Hne : r1 <> r2).
  { intros Heq. rewrite <- Heq, lookup_insert_eq in Hr2. discriminate. }
  assert (Hne1 : r1 <> Store.edge_assignments_ref solution) by congruence.
  unfold Store.mutate_solution, mutate_solution, bind at 1.
  unfold lift, Store.clone_solution, Store.copy. rewrite Hsp. simpl rbind.
  rewrite lookup_insert_ne by exact Hne1. rewrite Hea. simpl rbind.
  cbn [fst snd]. fold r1. fold r2.
  set (m := {| Store.super_peers_ref := r1; Store.edge_assignments_ref := r2 |}).
  set (h0 := <[r2 := Store.DictObj ea]> (<[r1 := Store.ListObj sps]> h)).
  assert (H01 : h0 !! Store.super_peers_ref m = Some (Store.ListObj sps)).
  { unfold h0. simpl. rewrite lookup_insert_ne by congruence.
    apply lookup_insert_eq. }
  unfold bind. rewrite (sim_mutate_super_peers self m h0 sps g H01).
  simpl super_peers. simpl edge_assignments.
  destruct (mutate_super_peers self sps g) as [[sps' g1]|e]; [|reflexivity].
  set (h1 := <[Store.super_peers_ref m := Store.ListObj sps']> h0).
  assert (H12 : h1 !! Store.edge_assignments_ref m = Some (Store.DictObj ea)).
  { unfold h1, h0. simpl. rewrite lookup_insert_ne by congruence.
    apply lookup_insert_eq. }
  unfold Store.load_dict. rewrite H12.
  rewrite (sim_mutate_edges self m (Dict.keys ea) h1 ea g1 H12).
  destruct (for_each_M (mutate_edge self) (Dict.keys ea) ea g1)
    as [[ea' g2]|e]; [|reflexivity].
  unfold ret. simpl. f_equal. f_equal. f_equal.
  unfold h1, h0. simpl. apply map_eq. intros i.
  destruct (decide (i = r2)) as [->|Hi2].
  - now rewrite !lookup_insert_eq.
  - rewrite !(lookup_insert_ne _ r2) by congruence.
    destruct (decide (i = r1)) as [->|Hi1].
    + now rewrite !lookup_insert_eq.
    + repeat (rewrite lookup_insert_ne by congruence). reflexivity.
Qed.

(** C9: [mutate_solution] works on a clone and never writes to its input.
    Run on a store in which the input solution's references hold a list
    and a dictionary, it returns on every tape; the returned solution
    refers to two objects that did not exist before; every object of the
    old store, in particular the input's super-peer list and edge
    assignment, is unchanged; any later write to the clone's two objects
    leaves the input's objects as they were; [clone_solution] alone already
    returns fresh objects with the same contents.  The contents of the
    clone are those of the value-level [mutate_solution]. *)
Theorem mutate_solution_never_touches_its_input
    self solution (h : gmap Store.loc Store.obj) sps ea g :
  h !! Store.super_peers_ref solution = Some (Store.ListObj sps) ->
  h !! Store.edge_assignments_ref solution = Some (Store.DictObj ea) ->
  (exists c hc,
     Store.clone_solution h solution = Ok (c, hc) /\
     hc !! Store.super_peers_ref c = Some (Store.ListObj sps) /\
     hc !! Store.edge_assignments_ref c = Some (Store.DictObj ea) /\
     h !! Store.super_peers_ref c = None /\
     h !! Store.edge_assignments_ref c = None /\
     Store.super_peers_ref c <> Store.edge_assignments_ref c /\
     forall r, is_Some (h !! r) -> hc !! r = h !! r) /\
  exists mutated h' g',
    Store.mutate_solution self solution h g = Ok (mutated, h', g') /\
    h' !! Store.super_peers_ref solution = Some (Store.ListObj sps) /\
    h' !! Store.edge_assignments_ref solution = Some (Store.DictObj ea) /\
    (forall r, is_Some (h !! r) -> h' !! r = h !! r) /\
    h !! Store.super_peers_ref mutated = None /\
    h !! Store.edge_assignments_ref mutated = None /\
    Store.super_peers_ref mutated <> Store.edge_assignments_ref mutated /\
    (forall o1 o2,
       let h'' := <[Store.edge_assignments_ref mutated := o2]>
                    (<[Store.super_peers_ref mutated := o1]> h') in
       h'' !! Store.super_peers_ref solution = Some (Store.ListObj sps) /\
       h'' !! Store.edge_assignments_ref solution = Some (Store.DictObj ea)) /\
    exists v,
      mutate_solution self (new_Solution sps ea) g = Ok (v, g') /\
      h' !! Store.super_peers_ref mutated = Some (Store.ListObj (super_peers v)) /\
      h' !! Store.edge_assignments_ref mutated
        = Some (Store.DictObj (edge_assignments v)).
Proof.
  intros Hsp Hea.
  set (r1 := fresh (dom h)).
  set (r2 := fresh (dom (<[r1 := Store.ListObj sps]> h))).
  assert (Hr1 : h !! r1 = None).
  { apply not_elem_of_dom. apply is_fresh. }
  assert (Hr2' : <[r1 := Store.ListObj sps]> h !! r2 = None).
  { apply not_elem_of_dom. apply is_fresh. }
  assert (Hne : r1 <> r2).
  { intros Heq. rewrite <- Heq, lookup_insert_eq in Hr2'. discriminate. }
  assert (Hr2 : h !! r2 = None).
  { rewrite lookup_insert_ne in Hr2' by exact Hne. exact Hr2'. }
  assert (Hold : forall o1 o2 r, is_Some (h !! r) ->
            <[r2 := o2]> (<[r1 := o1]> h) !! r = h !! r).
  { intros o1 o2 r [o Ho].
    rewrite !lookup_insert_ne by congruence. reflexivity. }
  split.
  - exists {| Store.super_peers_ref := r1; Store.edge_assignments_ref := r2 |},
           (<[r2 := Store.DictObj ea]> (<[r1 := Store.ListObj sps]> h)).
    split; [|repeat split; simpl; auto].
    + assert (Hne1 : r1 <> Store.edge_assignments_ref solution) by congruence.
      unfold Store.clone_solution, Store.copy. rewrite Hsp. simpl rbind.
      cbn [fst snd]. fold r1. rewrite lookup_insert_ne by exact Hne1.
      rewrite Hea. reflexivity.
    + rewrite lookup_insert_ne by congruence. apply lookup_insert_eq.
    + apply lookup_insert_eq.
  - pose proof (sim_mutate_solution self solution h sps ea g Hsp Hea) as Hsim.
    simpl in Hsim. fold r1 in Hsim. fold r2 in Hsim.
    destruct (mutate_solution_total self (new_Solution sps ea) g)
      as [[v g'] Hv].
    rewrite Hv in Hsim.
    eexists _, _, g'. split; [exact Hsim|]. simpl.
    split; [rewrite Hold by eauto; exact Hsp|].
    split; [rewrite Hold by eauto; exact Hea|].
    split; [intros r Hr; now apply Hold|].
    split; [exact Hr1|]. split; [exact Hr2|]. split; [exact Hne|].
    split.
    + intros o1 o2. simpl.
      assert (Hswap : <[r2 := o2]> (<[r1 := o1]>
                        (<[r2 := Store.DictObj (edge_assignments v)]>
                           (<[r1 := Store.ListObj (super_peers v)]> h)))
                      = <[r2 := o2]> (<[r1 := o1]> h)).
      { apply map_eq. intros i.
        destruct (decide (i = r2)) as [->|Hi2];
          [now rewrite !lookup_insert_eq|].
        rewrite !(lookup_insert_ne _ r2) by congruence.
        destruct (decide (i = r1)) as [->|Hi1];
          [now rewrite !lookup_insert_eq|].
        repeat (rewrite lookup_insert_ne by congruence). reflexivity. }
      rewrite Hswap. split; rewrite Hold by eauto; assumption.
    + exists v. split; [exact Hv|]. split.
      * rewrite lookup_insert_ne by congruence. apply lookup_insert_eq.
      * apply lookup_insert_eq.
Qed.

(** On the example store the clone lands at references 3 and 4 and is
    mutated there; references 1 and 2 keep their contents. *)
Lemma mutate_solution_never_touches_its_input_witness :
  exists mutated h' g',
    Store.mutate_solution eager_engine solution0 store0 tape0
      = Ok (mutated, h', g') /\
    h' !! 1%positive = Some (Store.ListObj ["p1"; "p2"]) /\
    h' !! 2%positive
      = Some (Store.DictObj
                [("p1", "A"); ("p2", "A"); ("p3", "B"); ("p4", "B")]) /\
    store0 !! Store.super_peers_ref mutated = None /\
    store0 !! Store.edge_assignments_ref mutated = None.
Proof.
  destruct (mutate_solution_never_touches_its_input eager_engine solution0
              store0 ["p1"; "p2"]
              [("p1", "A"); ("p2", "A"); ("p3", "B"); ("p4", "B")] tape0)
    as (_ & mutated & h' & g' & Hm & H1 & H2 & _ & H3 & H4 & _).
  - reflexivity.
  - reflexivity.
  - exists mutated, h', g'. auto.
Defined.

(** * Further properties of the engine and of the simulation runner *)

(** ** Sums of rationals *)

Lemma fold_plus_shift l : forall a, fold_left Qplus l a == a + qsum l.
Proof.
  unfold qsum. induction l as [|x l IH]; intros a; simpl.
  - ring.
  - rewrite (IH (a + x)), (IH (0 + x)). ring.
Qed.

Lemma qsum_cons x l : qsum (x :: l) == x + qsum l.
Proof. unfold qsum at 1. simpl. rewrite fold_plus_shift. ring. Qed.

Lemma qsum_app l1 l2 : qsum (l1 ++ l2)%list == qsum l1 + qsum l2.
Proof.
  induction l1 as [|x l1 IH]; simpl.
  - unfold qsum at 2. simpl. ring.
  - rewrite !qsum_cons, IH. ring.
Qed.

(** ** Edge loads *)

Lemma imbalance_half_difference a b :
  imbalance_of a b == ((a - b) / 2) ^ 2.
Proof. unfold imbalance_of. rewrite !Qsq. field. Qed.

Lemma loads_of_charged solution items : forall la lb la' lb',
  loads_of (edge_assignments solution) items (la, lb) = Ok (la', lb') ->
  la' = fold_left Qplus (charged_to solution "A" items) la /\
  lb' = fold_left Qplus (charged_to solution "B" items) lb /\
  forall item, In item items ->
    assigned_edge_of solution (fst item) = "A" \/
    assigned_edge_of solution (fst item) = "B".
Proof.
  unfold loads_of, charged_to.
  induction items as [|[peer_id peer] items IH]; intros la lb la' lb'.
  - simpl. intros [= <- <-]. split; [reflexivity|]. split; [reflexivity|].
    intros item [].
  - rewrite for_each_cons. simpl fst. simpl snd. unfold add_load at 1.
    cbn [List.filter fst snd]. unfold assigned_edge_of at 1 2 3 4.
    destruct (String.eqb_spec (Dict.get_default (edge_assignments solution)
                                 peer_id "A") "A") as [HA|HA].
    + rewrite HA. simpl rbind. intros H.
      destruct (IH _ _ _ _ H) as (H1 & H2 & H3).
      split; [exact H1|]. split; [exact H2|].
      intros item [<-|Hin]; [left; exact HA|auto].
    + destruct (String.eqb_spec (Dict.get_default (edge_assignments solution)
                                   peer_id "A") "B") as [HB|HB];
        simpl rbind; [|discriminate].
      intros H. destruct (IH _ _ _ _ H) as (H1 & H2 & H3).
      split; [exact H1|]. split; [exact H2|].
      intros item [<-|Hin]; [right; exact HB|auto].
Qed.

(** X1: every demand is charged to exactly one edge.  Whenever
    [evaluate_solution] returns, every peer of the population carries the
    label A or B (its entry, or A when it has none); the load of edge A
    is what [+=] accumulates from 0 over the demands of the peers labelled
    A, in the order of the peer dictionary, and the load of edge B
    likewise over the peers labelled B, whether or not a peer is served
    over P2P.  These are the loads stored on the solution. *)
Theorem evaluate_charges_each_demand_once self solution s e :
  evaluate_solution self solution = Ok (s, e) ->
  (forall item, In item (Dict.items (peers self)) ->
     assigned_edge_of solution (fst item) = "A" \/
     assigned_edge_of solution (fst item) = "B") /\
  ev_load_a e
  = accumulate (charged_to solution "A" (Dict.items (peers self))) /\
  ev_load_b e
  = accumulate (charged_to solution "B" (Dict.items (peers self))) /\
  edge_a_load s = ev_load_a e /\ edge_b_load s = ev_load_b e.
Proof.
  intros Hev.
  destruct (evaluate_solution_loads _ _ _ _ Hev) as [Hl _].
  destruct (loads_of_charged _ _ _ _ _ _ Hl) as (HA & HB & Hlab).
  split; [exact Hlab|]. split; [exact HA|]. split; [exact HB|].
  destruct (for_each (evaluate_peer self solution) (Dict.items (peers self))
              ([], (0, 0))) as [[delays loads]|x] eqn:Hloop.
  - rewrite (evaluate_solution_unfold _ _ _ _ Hloop) in Hev.
    destruct (py_div 1 _) as [f|]; simpl in Hev; [|discriminate].
    injection Hev as <- <-. simpl. auto.
  - rewrite (evaluate_solution_raise_loop _ _ _ Hloop) in Hev.
    discriminate.
Qed.

(** p1 is on A, p2 on B, and p3 and p4 have no entry: edge A is charged
    three times, edge B once. *)
Lemma evaluate_charges_each_demand_once_witness :
  exists s e,
    evaluate_solution (engine four_peers_example no_rtt 0 3 2) half_assigned
      = Ok (s, e) /\
    ev_load_a e = 0 + 100 + 100 + 100 /\ ev_load_b e = 0 + 100.
Proof.
  destruct (evaluate_solution (engine four_peers_example no_rtt 0 3 2)
              half_assigned) as [[s e]|x] eqn:Hev.
  - exists s, e. split; [reflexivity|].
    destruct (evaluate_charges_each_demand_once _ _ _ _ Hev)
      as (_ & HA & HB & _).
    split; [exact HA|exact HB].
  - vm_compute in Hev. discriminate.
Defined.

Lemma four_peers_demand_nonneg rtt nsp psize gens :
  forall k p, In (k, p) (peers (engine four_peers_example rtt nsp psize gens)) ->
              0 <= demand p.
Proof.
  intros k p Hin. simpl in Hin.
  destruct Hin as [Hin|[Hin|[Hin|[Hin|[]]]]]; inversion Hin; subst; simpl; lra.
Qed.

(** ** Stale derived fields *)

Lemma evaluate_solution_same_fields self s1 s2 :
  super_peers s1 = super_peers s2 ->
  edge_assignments s1 = edge_assignments s2 ->
  evaluate_solution self s1 = evaluate_solution self s2.
Proof.
  intros Hsp Hea. unfold evaluate_solution.
  rewrite (evaluate_loop_ext self s1 s2) by (rewrite ?Hsp, ?Hea; auto).
  now rewrite Hsp, Hea.
Qed.

(** What [evaluate_solution] stores on the solution is what it returns. *)
Lemma evaluate_solution_cached self solution s e :
  evaluate_solution self solution = Ok (s, e) ->
  fitness s = ev_fitness e /\ avg_delay s = ev_avg_delay e /\
  load_imbalance s = ev_load_imbalance e /\
  edge_a_load s = ev_load_a e /\ edge_b_load s = ev_load_b e.
Proof.
  intros Hev.
  destruct (for_each (evaluate_peer self solution) (Dict.items (peers self))
              ([], (0, 0))) as [[delays loads]|x] eqn:Hloop.
  - rewrite (evaluate_solution_unfold _ _ _ _ Hloop) in Hev.
    destruct (py_div 1 _) as [f|]; simpl in Hev; [|discriminate].
    injection Hev as <- <-. simpl. auto.
  - rewrite (evaluate_solution_raise_loop _ _ _ Hloop) in Hev. discriminate.
Qed.

Lemma evaluate_solution_again self solution s e :
  evaluate_solution self solution = Ok (s, e) ->
  evaluate_solution self s = Ok (s, e).
Proof.
  intros Hev.
  destruct (evaluate_solution_fields _ _ _ _ Hev) as (Hsp & Hea & _).
  rewrite (evaluate_solution_same_fields self s solution Hsp Hea), Hev.
  reflexivity.
Qed.

(** X3: [evaluate_solution] reads only the super-peer list and the edge
    assignment: two solutions that agree on them evaluate alike whatever
    their (possibly stale) derived fields hold.  When it returns, the two
    primary fields are unchanged, the five derived fields hold exactly the
    returned values, and evaluating the result again returns the same
    solution and the same values (the loop's re-evaluation of an already
    evaluated population changes nothing). *)
Theorem evaluate_ignores_derived_fields self solution :
  (forall other,
     super_peers other = super_peers solution ->
     edge_assignments other = edge_assignments solution ->
     evaluate_solution self other = evaluate_solution self solution) /\
  (forall s e,
     evaluate_solution self solution = Ok (s, e) ->
     super_peers s = super_peers solution /\
     edge_assignments s = edge_assignments solution /\
     fitness s = ev_fitness e /\ avg_delay s = ev_avg_delay e /\
     load_imbalance s = ev_load_imbalance e /\
     edge_a_load s = ev_load_a e /\ edge_b_load s = ev_load_b e /\
     evaluate_solution self s = Ok (s, e)).
Proof.
  split.
  - intros other Hsp Hea. now apply evaluate_solution_same_fields.
  - intros s e Hev.
    destruct (evaluate_solution_fields _ _ _ _ Hev) as (Hsp & Hea & _).
    destruct (evaluate_solution_cached _ _ _ _ Hev) as (H1 & H2 & H3 & H4 & H5).
    repeat split; auto. exact (evaluate_solution_again _ _ _ _ Hev).
Qed.

(** ** Which exceptions the evaluator raises *)

Lemma evaluate_peer_raises self solution acc item x :
  evaluate_peer self solution acc item = Raise x -> x = KeyError.
Proof.
  destruct acc as [delays loads], item as [peer_id peer].
  unfold evaluate_peer, get_edge_rtt, Dict.index.
  destruct (peer_to_edge (rtt_matrix self) !! _) as [v|]; simpl.
  - unfold add_load. destruct (String.eqb _ "A"); simpl; [discriminate|].
    destruct (String.eqb _ "B"); simpl; [discriminate|congruence].
  - destruct (Dict.get (peers self) peer_id) as [p|]; simpl; [|congruence].
    unfold add_load. destruct (String.eqb _ "A"); simpl; [discriminate|].
    destruct (String.eqb _ "B"); simpl; [discriminate|congruence].
Qed.

Lemma evaluate_loop_raises self solution items : forall acc x,
  for_each (evaluate_peer self solution) items acc = Raise x -> x = KeyError.
Proof.
  induction items as [|item items IH]; intros acc x; [discriminate|].
  rewrite for_each_cons.
  destruct (evaluate_peer self solution acc item) as [acc'|y] eqn:Hp; simpl.
  - apply IH.
  - intros [= <-]. exact (evaluate_peer_raises _ _ _ _ _ Hp).
Qed.

Lemma evaluate_peer_label self solution acc peer_id peer acc' :
  evaluate_peer self solution acc (peer_id, peer) = Ok acc' ->
  assigned_edge_of solution peer_id = "A" \/
  assigned_edge_of solution peer_id = "B".
Proof.
  destruct acc as [delays loads]. unfold evaluate_peer, assigned_edge_of.
  destruct (get_edge_rtt self peer_id _) as [d|]; simpl; [|discriminate].
  unfold add_load.
  destruct (String.eqb_spec (Dict.get_default (edge_assignments solution)
                               peer_id "A") "A") as [->|_]; [auto|].
  destruct (String.eqb_spec (Dict.get_default (edge_assignments solution)
                               peer_id "A") "B") as [->|_]; [auto|].
  simpl. discriminate.
Qed.

Lemma evaluate_loop_labels self solution items : forall acc acc',
  for_each (evaluate_peer self solution) items acc = Ok acc' ->
  forall peer_id peer, In (peer_id, peer) items ->
    assigned_edge_of solution peer_id = "A" \/
    assigned_edge_of solution peer_id = "B".
Proof.
  induction items as [|item items IH]; intros acc acc' Hloop peer_id peer [].
  - subst item. rewrite for_each_cons in Hloop.
    destruct (evaluate_peer self solution acc (peer_id, peer)) as [a|] eqn:Hp;
      simpl in Hloop; [|discriminate].
    eapply evaluate_peer_label; eauto.
  - rewrite for_each_cons in Hloop.
    destruct (evaluate_peer self solution acc item) as [a|] eqn:Hp;
      simpl in Hloop; [|discriminate].
    eapply IH; eauto.
Qed.

(** The loop succeeds as soon as the peers it visits carry valid labels. *)
Lemma evaluate_loop_good_labels self solution items : forall acc,
  (forall item, In item items -> In item (peers self)) ->
  (forall peer_id peer, In (peer_id, peer) items ->
     assigned_edge_of solution peer_id = "A" \/
     assigned_edge_of solution peer_id = "B") ->
  succeeds (for_each (evaluate_peer self solution) items acc).
Proof.
  induction items as [|[peer_id peer] items IH]; intros acc Hsub Hl.
  - unfold succeeds. simpl. eauto.
  - rewrite for_each_cons.
    assert (Hstep : succeeds (evaluate_peer self solution acc (peer_id, peer))).
    { destruct acc as [delays loads]. unfold evaluate_peer.
      destruct (get_edge_rtt_known self peer_id peer
                  (Dict.get_default (edge_assignments solution) peer_id "A"))
        as [d ->]; [apply Hsub; now left|]. simpl.
      destruct (add_load_label loads
                  (Dict.get_default (edge_assignments solution) peer_id "A")
                  (demand peer)) as [l ->];
        [apply (Hl peer_id peer); now left|].
      unfold succeeds. simpl. eauto. }
    destruct Hstep as [acc' ->]. simpl.
    apply IH.
    + intros item Hi. apply Hsub. now right.
    + intros p q Hi. apply (Hl p q). now right.
Qed.

(** X4: the [KeyError] of the evaluator.  [evaluate_solution] raises
    [KeyError] exactly when some peer of the population carries a label
    other than A and B (a peer without an entry counts as A).  It is the
    only exception the per-peer loop can raise; anything else the
    evaluator raises comes from the arithmetic after the loop. *)
Theorem evaluate_key_error_iff_bad_label self solution :
  (evaluate_solution self solution = Raise KeyError <->
   has_bad_label self solution) /\
  (forall acc x,
     for_each (evaluate_peer self solution) (Dict.items (peers self)) acc
     = Raise x -> x = KeyError).
Proof.
  split; [|intros acc x; apply evaluate_loop_raises].
  destruct (for_each (evaluate_peer self solution) (Dict.items (peers self))
              ([], (0, 0))) as [[delays loads]|y] eqn:Hloop.
  - pose proof (evaluate_solution_unfold _ _ _ _ Hloop) as Hun.
    pose proof (evaluate_loop_labels _ _ _ _ _ Hloop) as Hlab.
    unfold py_div in Hun.
    destruct (Qeq_bool _ 0) eqn:Hz; simpl in Hun; rewrite Hun.
    + split; [discriminate|].
      intros (peer_id & peer & Hin & HA & HB).
      destruct (Hlab peer_id peer Hin); congruence.
    + split; [discriminate|].
      intros (peer_id & peer & Hin & HA & HB).
      destruct (Hlab peer_id peer Hin); congruence.
  - rewrite (evaluate_solution_raise_loop _ _ _ Hloop).
    pose proof (evaluate_loop_raises _ _ _ _ _ Hloop) as ->.
    split; [|reflexivity]. intros _.
    (* some visited peer must carry a bad label *)
    assert (Hex : forall items acc,
              (forall item, In item items -> In item (peers self)) ->
              for_each (evaluate_peer self solution) items acc = Raise KeyError ->
              exists peer_id peer,
                In (peer_id, peer) items /\
                assigned_edge_of solution peer_id <> "A" /\
                assigned_edge_of solution peer_id <> "B").
    { induction items as [|[peer_id peer] items IH]; intros acc Hsub Hr;
        [discriminate|].
      rewrite for_each_cons in Hr.
      destruct (String.eqb_spec (assigned_edge_of solution peer_id) "A")
        as [HA|HA];
        [|destruct (String.eqb_spec (assigned_edge_of solution peer_id) "B")
            as [HB|HB]].
      3: { exists peer_id, peer. split; [now left|auto]. }
      all: destruct (evaluate_loop_good_labels self solution [(peer_id, peer)] acc)
             as [acc' Hok];
           [intros item [<-|[]]; apply Hsub; now left
           |intros p q [[= <- <-]|[]]; auto
           |].
      all: simpl in Hok.
      all: destruct (evaluate_peer self solution acc (peer_id, peer))
             as [a|] eqn:Hp; simpl in Hok; [|discriminate].
      all: simpl in Hr.
      all: destruct (IH a) as (p & q & Hin & H1 & H2);
             [intros item Hi; apply Hsub; now right|exact Hr|].
      all: exists p, q; split; [now right|auto]. }
    apply (Hex _ _ (fun item H => H) Hloop).
Qed.

(** ** More super-peers never hurt *)

Lemma min2_le_l a b : min2 a b <= a.
Proof.
  unfold min2. destruct (Qltb b a) eqn:E; [|lra].
  apply Qltb_lt in E. lra.
Qed.

Lemma min2_le_r a b : min2 a b <= b.
Proof.
  unfold min2. destruct (Qltb b a) eqn:E; [lra|].
  now apply Qltb_ge in E.
Qed.

Lemma min2_choice a b : min2 a b = a \/ min2 a b = b.
Proof. unfold min2. destruct (Qltb b a); auto. Qed.

Lemma min_list_le rest : forall first,
  min_list first rest <= first /\
  forall x, In x rest -> min_list first rest <= x.
Proof.
  unfold min_list. induction rest as [|y rest IH]; intros first; simpl.
  - split; [lra|intros x []].
  - destruct (IH (min2 first y)) as [H1 H2]. split.
    + eapply Qle_trans; [exact H1|apply min2_le_l].
    + intros x [<-|Hx]; [|auto].
      eapply Qle_trans; [exact H1|apply min2_le_r].
Qed.

Lemma min_list_in rest : forall first,
  In (min_list first rest) (first :: rest).
Proof.
  unfold min_list. induction rest as [|y rest IH]; intros first; simpl.
  - now left.
  - destruct (IH (min2 first y)) as [H|H].
    + destruct (min2_choice first y) as [E|E]; [left|right; left]; congruence.
    + auto.
Qed.

Lemma d_super_of_mono self sps sps' peer_id :
  (forall p, In p sps -> In p sps') ->
  xle (d_super_of self sps' peer_id) (d_super_of self sps peer_id).
Proof.
  intros Hsub. destruct sps as [|sp rest]; simpl.
  - destruct sps'; exact I.
  - pose proof (min_list_in (map (get_peer_rtt self peer_id) rest)
                  (get_peer_rtt self peer_id sp)) as Hin.
    change (get_peer_rtt self peer_id sp
            :: map (get_peer_rtt self peer_id) rest)
      with (map (get_peer_rtt self peer_id) (sp :: rest)) in Hin.
    apply in_map_iff in Hin as (p & Hp & Hin).
    apply Hsub in Hin. destruct sps' as [|sp' rest']; [destruct Hin|].
    simpl. rewrite <- Hp.
    destruct (min_list_le (map (get_peer_rtt self peer_id) rest')
                (get_peer_rtt self peer_id sp')) as [H1 H2].
    destruct Hin as [->|Hin]; [exact H1|].
    apply H2. apply in_map_iff. eauto.
Qed.

Lemma xmin_mono x x' b :
  xle x' x -> xmin (xadd x' 5) b <= xmin (xadd x 5) b.
Proof.
  destruct x as [a|], x' as [a'|]; simpl; intros H; try tauto.
  - unfold min2. destruct (Qltb b (a' + 5)) eqn:E1, (Qltb b (a + 5)) eqn:E2;
      rewrite ?Qltb_lt, ?Qltb_ge in *; lra.
  - apply min2_le_r.
  - lra.
Qed.

Lemma weighted_sum_snoc delays d r :
  weighted_sum (delays ++ [(d, r)])%list == weighted_sum delays + d * r.
Proof.
  unfold weighted_sum. rewrite map_app, qsum_app. simpl.
  unfold qsum at 2. simpl. ring.
Qed.

Lemma evaluate_loop_mono self s s' items :
  (forall p, In p (super_peers s) -> In p (super_peers s')) ->
  edge_assignments s' = edge_assignments s ->
  (forall item, In item items -> 0 <= demand (snd item)) ->
  forall D D' L D1 L1 D1' L1',
    weighted_sum D' <= weighted_sum D ->
    for_each (evaluate_peer self s) items (D, L) = Ok (D1, L1) ->
    for_each (evaluate_peer self s') items (D', L) = Ok (D1', L1') ->
    weighted_sum D1' <= weighted_sum D1 /\ L1' = L1.
Proof.
  intros Hsub Hea. induction items as [|[peer_id peer] items IH];
    intros Hd D D' L D1 L1 D1' L1' Hw H1 H2.
  - simpl in H1, H2. injection H1 as <- <-. injection H2 as <- <-. auto.
  - rewrite for_each_cons in H1, H2. unfold evaluate_peer at 1 in H1.
    unfold evaluate_peer at 1 in H2. rewrite Hea in H2.
    destruct (get_edge_rtt self peer_id _) as [d|]; simpl in H1, H2;
      [|discriminate].
    destruct (add_load L _ (demand peer)) as [l|]; simpl in H1, H2;
      [|discriminate].
    eapply IH; [| |exact H1|exact H2].
    + intros item Hi. apply Hd. now right.
    + rewrite !weighted_sum_snoc.
      assert (Hp : 0 <= demand peer) by (apply (Hd (peer_id, peer)); now left).
      pose proof (xmin_mono _ _ d (d_super_of_mono self _ _ peer_id Hsub)).
      nra.
Qed.

Lemma evaluate_solution_inv_ok self solution s e :
  evaluate_solution self solution = Ok (s, e) ->
  exists delays loads,
    for_each (evaluate_peer self solution) (Dict.items (peers self))
             ([], (0, 0)) = Ok (delays, loads) /\
    ev_avg_delay e = avg_delay_of self delays /\
    ev_load_a e = fst loads /\ ev_load_b e = snd loads /\
    ev_load_imbalance e = imbalance_of (fst loads) (snd loads) /\
    ev_fitness e
    = 1 / (objective_of self (ev_avg_delay e) (ev_load_imbalance e)
           + (1 # 1000000)) /\
    ~ objective_of self (ev_avg_delay e) (ev_load_imbalance e)
      + (1 # 1000000) == 0.
Proof.
  intros Hev.
  destruct (for_each (evaluate_peer self solution) (Dict.items (peers self))
              ([], (0, 0))) as [[delays loads]|x] eqn:Hloop.
  - rewrite (evaluate_solution_unfold _ _ _ _ Hloop) in Hev.
    unfold py_div in Hev. destruct (Qeq_bool _ 0) eqn:Hz; simpl in Hev;
      [discriminate|].
    injection Hev as <- <-. exists delays, loads. simpl.
    repeat split; auto. now apply Qeq_bool_neq.
  - rewrite (evaluate_solution_raise_loop _ _ _ Hloop) in Hev. discriminate.
Qed.

Lemma Qdiv_le_compat a b t : 0 < t -> a <= b -> a / t <= b / t.
Proof.
  intros Ht Hab. unfold Qdiv. apply Qmult_le_compat_r; [exact Hab|].
  apply Qlt_le_weak. now apply Qinv_lt_0_compat.
Qed.

(** X5: enlarging the super-peer list never hurts.  If every super-peer of
    [solution] is also a super-peer of [solution'], the edge assignments
    are the same and demands are non-negative, then (when both evaluations
    return) the larger list gives the same edge loads and load imbalance
    and an average delay that is no higher; with non-negative latencies and
    weights its fitness is no lower. *)
Theorem more_super_peers_never_hurt self solution solution' s e s' e' :
  (forall p, In p (super_peers solution) -> In p (super_peers solution')) ->
  edge_assignments solution' = edge_assignments solution ->
  (forall k p, In (k, p) (peers self) -> 0 <= demand p) ->
  evaluate_solution self solution = Ok (s, e) ->
  evaluate_solution self solution' = Ok (s', e') ->
  ev_load_a e' = ev_load_a e /\ ev_load_b e' = ev_load_b e /\
  ev_load_imbalance e' = ev_load_imbalance e /\
  ev_avg_delay e' <= ev_avg_delay e /\
  (nonneg_inputs self -> 0 <= alpha self -> 0 <= beta self ->
   labels_ok (edge_assignments solution) ->
   ev_fitness e <= ev_fitness e').
Proof.
  intros Hsub Hea Hd Hev Hev'.
  destruct (evaluate_solution_inv_ok _ _ _ _ Hev)
    as (D & L & Hloop & Havg & Hla & Hlb & Himb & Hfit & Hnz).
  destruct (evaluate_solution_inv_ok _ _ _ _ Hev')
    as (D' & L' & Hloop' & Havg' & Hla' & Hlb' & Himb' & Hfit' & Hnz').
  destruct (evaluate_loop_mono self solution solution' _ Hsub Hea
              (fun item Hin => Hd (fst item) (snd item)
                 ltac:(destruct item; exact Hin))
              [] [] (0, 0) D L D' L' (Qle_refl _) Hloop Hloop') as [Hw ->].
  assert (Hdelay : ev_avg_delay e' <= ev_avg_delay e).
  { rewrite Havg, Havg'. unfold avg_delay_of.
    destruct (Qltb 0 (total_demand_of self)) eqn:Ht; [|lra].
    apply Qltb_lt in Ht. now apply Qdiv_le_compat. }
  assert (Himb_eq : ev_load_imbalance e' = ev_load_imbalance e) by congruence.
  repeat split; try congruence; auto.
  intros Hnn Ha Hb Hl.
  destruct (evaluate_solution_succeeds self solution Hl Hnn Ha Hb)
    as (D0 & L0 & Hloop0 & _ & Hobj0 & _).
  rewrite Hloop in Hloop0. injection Hloop0 as <- <-.
  assert (Hl' : labels_ok (edge_assignments solution')) by (now rewrite Hea).
  destruct (evaluate_solution_succeeds self solution' Hl' Hnn Ha Hb)
    as (D0' & L0' & Hloop0' & _ & Hobj0' & _).
  rewrite Hloop' in Hloop0'. injection Hloop0' as <- <-.
  rewrite Hfit, Hfit', Himb_eq.
  set (o := objective_of self (ev_avg_delay e) (ev_load_imbalance e)).
  set (o' := objective_of self (ev_avg_delay e') (ev_load_imbalance e)).
  assert (Ho : 0 <= o).
  { unfold o. rewrite Havg, Himb. exact Hobj0. }
  assert (Ho' : 0 <= o').
  { unfold o'. rewrite Havg', <- Himb_eq, Himb'. exact Hobj0'. }
  assert (Hoo : o' <= o).
  { unfold o, o', objective_of.
    assert (ev_avg_delay e' / 200 <= ev_avg_delay e / 200)
      by (apply Qdiv_le_compat; [lra|exact Hdelay]).
    nra. }
  unfold Qdiv. rewrite !Qmult_1_l.
  apply Qle_shift_inv_l; [lra|].
  assert (Hpos : 0 < o + (1 # 1000000)) by lra.
  assert (Hinv : / (o + (1 # 1000000)) * (o + (1 # 1000000)) == 1)
    by (field; lra).
  assert (Hinvpos : 0 < / (o + (1 # 1000000)))
    by (apply Qinv_lt_0_compat; exact Hpos).
  nra.
Qed.

Lemma more_super_peers_never_hurt_witness :
  exists s e s' e',
    evaluate_solution (engine four_peers_example no_rtt 0 3 2) all_on_A
      = Ok (s, e) /\
    evaluate_solution (engine four_peers_example no_rtt 0 3 2) all_on_A_with_p1
      = Ok (s', e') /\
    ev_load_a e' = ev_load_a e /\
    ev_avg_delay e' <= ev_avg_delay e /\
    ev_fitness e <= ev_fitness e'.
Proof.
  destruct (evaluate_solution (engine four_peers_example no_rtt 0 3 2) all_on_A)
    as [[s e]|x] eqn:Hev; [|vm_compute in Hev; discriminate].
  destruct (evaluate_solution (engine four_peers_example no_rtt 0 3 2)
              all_on_A_with_p1)
    as [[s' e']|x] eqn:Hev'; [|vm_compute in Hev'; discriminate].
  exists s, e, s', e'. split; [reflexivity|]. split; [reflexivity|].
  destruct (more_super_peers_never_hurt
              (engine four_peers_example no_rtt 0 3 2)
              all_on_A all_on_A_with_p1 s e s' e')
    as (Ha & _ & _ & Hd & Hf); auto.
  - intros p [].
  - apply four_peers_demand_nonneg.
  - split; [exact Ha|]. split; [exact Hd|]. apply Hf.
    + apply four_peers_nonneg; try lra; apply no_rtt_nonneg.
    + simpl. lra.
    + simpl. lra.
    + intros v Hv. simpl in Hv. intuition.
Defined.

Lemma evaluate_ignores_derived_fields_witness :
  exists s e,
    evaluate_solution (engine four_peers_example no_rtt 0 3 2) all_on_A
      = Ok (s, e) /\
    fitness s = ev_fitness e /\
    evaluate_solution (engine four_peers_example no_rtt 0 3 2) s = Ok (s, e).
Proof.
  destruct (evaluate_solution (engine four_peers_example no_rtt 0 3 2) all_on_A)
    as [[s e]|x] eqn:Hev; [|vm_compute in Hev; discriminate].
  exists s, e. split; [reflexivity|].
  destruct (proj2 (evaluate_ignores_derived_fields
                     (engine four_peers_example no_rtt 0 3 2) all_on_A)
              s e Hev) as (_ & _ & Hf & _ & _ & _ & _ & Hagain).
  split; [exact Hf|exact Hagain].
Defined.

(** With p2 labelled C the evaluation raises [KeyError]. *)
Lemma evaluate_key_error_iff_bad_label_witness :
  evaluate_solution (engine four_peers_example no_rtt 0 3 2) mislabelled
  = Raise KeyError.
Proof.
  apply (proj2 (proj1 (evaluate_key_error_iff_bad_label
                         (engine four_peers_example no_rtt 0 3 2) mislabelled))).
  exists "p2", (mk_peer "p2" 100 25 80).
  split; [simpl; tauto|]. split; discriminate.
Defined.

(** ** Zero demand and the ceiling of the fitness *)

Lemma qsum_zero l : (forall x, In x l -> x == 0) -> qsum l == 0.
Proof.
  induction l as [|x l IH]; intros H.
  - reflexivity.
  - rewrite qsum_cons, (H x) by (now left).
    rewrite IH by (intros y Hy; apply H; now right). ring.
Qed.

Lemma loads_of_zero ea items : forall la lb la' lb',
  (forall item, In item items -> demand (snd item) == 0) ->
  loads_of ea items (la, lb) = Ok (la', lb') ->
  la' == la /\ lb' == lb.
Proof.
  unfold loads_of.
  induction items as [|[peer_id peer] items IH]; intros la lb la' lb' Hd.
  - simpl. intros [= <- <-]. split; reflexivity.
  - rewrite for_each_cons. simpl fst. simpl snd. unfold add_load at 1.
    assert (Hp : demand peer == 0) by (apply (Hd (peer_id, peer)); now left).
    assert (Hd' : forall item, In item items -> demand (snd item) == 0)
      by (intros item Hi; apply Hd; now right).
    destruct (String.eqb (Dict.get_default ea peer_id "A") "A").
    + simpl. intros H. destruct (IH _ _ _ _ Hd' H) as [H1 H2].
      split; [rewrite H1, Hp; ring|exact H2].
    + destruct (String.eqb (Dict.get_default ea peer_id "A") "B");
        simpl; [|discriminate].
      intros H. destruct (IH _ _ _ _ Hd' H) as [H1 H2].
      split; [exact H1|rewrite H2, Hp; ring].
Qed.

(** X6: the zero guards.  When no peer has any demand (in particular when
    the population is empty) and the population's labels are valid,
    [evaluate_solution] returns whatever the weights and latencies are:
    the average delay is 0, both loads and the load imbalance are 0, the
    normalised imbalance is taken as 0 and the fitness is 1/1e-6 =
    1000000. *)
Theorem zero_demand_is_guarded self solution :
  (forall k p, In (k, p) (peers self) -> demand p == 0) ->
  (forall peer_id peer, In (peer_id, peer) (Dict.items (peers self)) ->
     assigned_edge_of solution peer_id = "A" \/
     assigned_edge_of solution peer_id = "B") ->
  exists s e,
    evaluate_solution self solution = Ok (s, e) /\
    ev_avg_delay e = 0 /\
    ev_load_a e == 0 /\ ev_load_b e == 0 /\
    ev_load_imbalance e == 0 /\
    ev_fitness e == 1000000.
Proof.
  intros Hd Hlab.
  destruct (evaluate_loop_good_labels self solution (Dict.items (peers self))
              ([], (0, 0)) (fun item H => H) Hlab) as [[delays loads] Hloop].
  assert (Htot : total_demand_of self == 0).
  { apply qsum_zero. intros x Hx.
    apply in_map_iff in Hx as (p & <- & Hin).
    apply in_map_iff in Hin as ([k p'] & <- & Hin). eapply Hd; eauto. }
  assert (Hguard : Qltb 0 (total_demand_of self) = false)
    by (apply Qltb_ge; lra).
  assert (Hmax : Qltb 0 ((total_demand_of self / 2) ^ 2) = false).
  { apply Qltb_ge. rewrite Qsq, Htot. apply Qle_bool_imp_le. reflexivity. }
  pose proof (evaluate_loop_loads _ _ _ _ _ _ _ Hloop) as Hl.
  destruct loads as [la lb].
  destruct (loads_of_zero _ _ _ _ _ _
              (fun item Hin => Hd (fst item) (snd item)
                 ltac:(destruct item; exact Hin)) Hl) as [Ha Hb].
  assert (Havg : avg_delay_of self delays = 0)
    by (unfold avg_delay_of; now rewrite Hguard).
  assert (Himb : imbalance_of la lb == 0).
  { rewrite imbalance_half_difference, Qsq, Ha, Hb.
    apply Qeq_bool_eq. reflexivity. }
  assert (Hobj : objective_of self (avg_delay_of self delays)
                   (imbalance_of la lb) == 0).
  { unfold objective_of. rewrite Hmax, Havg. unfold Qdiv. ring. }
  pose proof (evaluate_solution_unfold _ _ _ _ Hloop) as Hun.
  simpl fst in Hun. simpl snd in Hun. unfold py_div in Hun.
  destruct (Qeq_bool _ 0) eqn:Hz.
  { apply Qeq_bool_eq in Hz. rewrite Hobj in Hz.
    exfalso. revert Hz. apply Qeq_bool_neq. reflexivity. }
  simpl in Hun. eexists _, _. split; [exact Hun|]. simpl.
  split; [exact Havg|]. split; [exact Ha|]. split; [exact Hb|].
  split; [exact Himb|]. rewrite Hobj. apply Qeq_bool_eq. reflexivity.
Qed.

Lemma zero_demand_is_guarded_witness :
  (exists s e,
     evaluate_solution (engine idle_peers no_rtt 0 3 2) all_on_A = Ok (s, e) /\
     ev_avg_delay e = 0 /\ ev_fitness e == 1000000) /\
  (exists s e,
     evaluate_solution (engine [] no_rtt 0 3 2) all_on_A = Ok (s, e) /\
     ev_avg_delay e = 0 /\ ev_fitness e == 1000000).
Proof.
  split.
  - destruct (zero_demand_is_guarded (engine idle_peers no_rtt 0 3 2) all_on_A)
      as (s & e & Hev & Ha & _ & _ & _ & Hf).
    + intros k p Hin. simpl in Hin.
      destruct Hin as [Hin|[Hin|[Hin|[Hin|[]]]]]; inversion Hin; subst;
        reflexivity.
    + intros peer_id peer Hin. simpl in Hin.
      destruct Hin as [Hin|[Hin|[Hin|[Hin|[]]]]]; inversion Hin; subst;
        left; reflexivity.
    + exists s, e. auto.
  - destruct (zero_demand_is_guarded (engine [] no_rtt 0 3 2) all_on_A)
      as (s & e & Hev & Ha & _ & _ & _ & Hf).
    + intros k p [].
    + intros peer_id peer [].
    + exists s, e. auto.
Defined.

(** X7: with non-negative demands, latencies and weights the fitness of a
    solution with valid labels never exceeds 1000000, the value it takes
    when the objective is 0. *)
Theorem fitness_at_most_one_million self solution s e :
  labels_ok (edge_assignments solution) ->
  nonneg_inputs self -> 0 <= alpha self -> 0 <= beta self ->
  evaluate_solution self solution = Ok (s, e) ->
  ev_fitness e <= 1000000 /\ fitness s <= 1000000.
Proof.
  intros Hl Hnn Ha Hb Hev.
  destruct (evaluate_solution_succeeds self solution Hl Hnn Ha Hb)
    as (delays & loads & _ & Hev' & Hobj & _).
  rewrite Hev' in Hev. injection Hev as <- <-. simpl.
  set (o := objective_of self (avg_delay_of self delays)
              (imbalance_of (fst loads) (snd loads))) in *.
  assert (H : 1 / (o + (1 # 1000000)) <= 1000000).
  { apply Qle_shift_div_r; lra. }
  auto.
Qed.

Lemma fitness_at_most_one_million_witness :
  exists s e,
    evaluate_solution (engine four_peers_example no_rtt 0 3 2) all_on_A
      = Ok (s, e) /\
    ev_fitness e <= 1000000.
Proof.
  destruct (evaluate_solution (engine four_peers_example no_rtt 0 3 2) all_on_A)
    as [[s e]|x] eqn:Hev; [|vm_compute in Hev; discriminate].
  exists s, e. split; [reflexivity|].
  apply (fitness_at_most_one_million
           (engine four_peers_example no_rtt 0 3 2) all_on_A s e).
  - intros v Hv. simpl in Hv. intuition.
  - apply four_peers_nonneg; try lra; apply no_rtt_nonneg.
  - simpl. lra.
  - simpl. lra.
  - exact Hev.
Defined.

(** ** The solution factory *)

Lemma post_random_range E : post E random (fun u => 0 <= u /\ u < 1).
Proof.
  intros g. unfold random, bind, next_raw, ret. split.
  - unfold Qle. cbn [Qnum Qden].
    rewrite Z.mul_0_l, Z.mul_1_r. apply N2Z.is_nonneg.
  - unfold Qlt. cbn [Qnum Qden]. rewrite Z.mul_1_r, Z.mul_1_l.
    assert (Hpow : Z.pos (2 ^ 53) = Z.of_N (2 ^ 53)) by (vm_compute; reflexivity).
    rewrite Hpow. apply N2Z.inj_lt. apply N.mod_upper_bound.
    vm_compute. discriminate.
Qed.

(** X8: [generate_random_solution] never returns a stale solution: the
    derived fields of the solution it returns are exactly what
    [evaluate_solution] computes for it. *)
Theorem generate_random_solution_is_evaluated self g s g' :
  generate_random_solution self g = Ok (s, g') ->
  exists e,
    evaluate_solution self s = Ok (s, e) /\
    fitness s = ev_fitness e /\ avg_delay s = ev_avg_delay e /\
    load_imbalance s = ev_load_imbalance e /\
    edge_a_load s = ev_load_a e /\ edge_b_load s = ev_load_b e.
Proof.
  unfold generate_random_solution, bind.
  destruct (sample _ _ g) as [[sps g1]|]; [|discriminate].
  destruct (for_each_M random_edge _ _ g1) as [[ea g2]|]; [|discriminate].
  unfold lift.
  destruct (evaluate_solution self (new_Solution sps ea)) as [[s0 e]|] eqn:Hev;
    [|discriminate].
  unfold ret. simpl. intros [= <- <-]. exists e.
  split; [exact (evaluate_solution_again _ _ _ _ Hev)|].
  exact (evaluate_solution_cached _ _ _ _ Hev).
Qed.

Lemma generate_random_solution_is_evaluated_witness :
  let self := engine four_peers_example no_rtt 2 4 3 in
  exists s g' e,
    generate_random_solution self tape0 = Ok (s, g') /\
    evaluate_solution self s = Ok (s, e) /\ fitness s = ev_fitness e.
Proof.
  intros self.
  destruct (generate_random_solution self tape0) as [[s g']|x] eqn:Hgen;
    [|vm_compute in Hgen; discriminate].
  destruct (generate_random_solution_is_evaluated self tape0 s g' Hgen)
    as (e & He & Hf & _).
  exists s, g', e. auto.
Defined.

(** ** Mutation *)

Lemma dict_get_set {V} (d : Dict.t V) k v k' :
  Dict.get (Dict.set d k v) k'
  = if String.eqb k k' then Some v else Dict.get d k'.
Proof.
  induction d as [|[k0 v0] r IH]; simpl.
  - reflexivity.
  - destruct (String.eqb_spec k0 k) as [->|Hne]; simpl.
    + destruct (String.eqb k k'); reflexivity.
    + rewrite IH.
      destruct (String.eqb_spec k0 k') as [<-|Hne']; [|reflexivity].
      destruct (String.eqb_spec k k0) as [->|_]; [congruence|reflexivity].
Qed.

Section MutationShape.

Variable E : Prop.
Variable self : ImmunePlacementAlgorithm.

Lemma post_mutate_super_peers_shape sps :
  post E (mutate_super_peers self sps)
    (fun sps' =>
       sps' = sps \/
       exists idx c,
         (idx < length sps)%nat /\ In c (peer_list self) /\ ~ In c sps /\
         sps' = <[idx := c]> sps).
Proof.
  unfold mutate_super_peers.
  eapply post_bind; [apply post_random|]. intros u _.
  destruct (Qltb u (mutation_rate self) && (0 <? length sps)%nat) eqn:Hc;
    [|apply post_ret; auto].
  apply andb_true_iff in Hc as [_ Hpos]. apply Nat.ltb_lt in Hpos.
  eapply post_bind; [apply post_randbelow; exact Hpos|]. intros idx Hidx.
  destruct (List.filter (not_in sps) (peer_list self)) as [|c cs] eqn:Hf;
    [apply post_ret; auto|].
  eapply post_bind; [apply post_choice|]. intros x Hx.
  rewrite <- Hf in Hx. apply filter_In in Hx as [Hx1 Hx2].
  apply not_in_spec in Hx2. apply post_ret. right. exists idx, x. auto.
Qed.

Lemma post_mutate_super_peers_frozen sps :
  mutation_rate self <= 0 ->
  post E (mutate_super_peers self sps) (fun sps' => sps' = sps).
Proof.
  intros Hrate. unfold mutate_super_peers.
  eapply post_bind; [apply post_random_range|]. intros u [Hu _].
  assert (Hno : Qltb u (mutation_rate self) = false) by (apply Qltb_ge; lra).
  rewrite Hno. simpl. now apply post_ret.
Qed.

Lemma post_mutate_edge_step (d : Dict.t string) peer_id :
  In peer_id (Dict.keys d) ->
  post E (mutate_edge self d peer_id)
    (fun d1 =>
       d1 = d \/
       exists cur, Dict.get d peer_id = Some cur /\
                   d1 = Dict.set d peer_id (flip_edge cur)).
Proof.
  intros Hkey. unfold mutate_edge.
  eapply post_bind; [apply post_random|]. intros u _.
  destruct (Qltb u _); [|apply post_ret; auto].
  destruct (Dict.get d peer_id) as [cur|] eqn:Hget.
  2: { apply dict_get_none in Hget. tauto. }
  unfold Dict.index. rewrite Hget.
  eapply post_bind;
    [apply (post_lift E (Ok cur) (fun c => c = cur)); reflexivity|].
  intros c ->. apply post_ret. right. exists cur. auto.
Qed.

Lemma post_mutate_edge_frozen (d : Dict.t string) peer_id :
  mutation_rate self <= 0 ->
  post E (mutate_edge self d peer_id) (fun d1 => d1 = d).
Proof.
  intros Hrate. unfold mutate_edge.
  eapply post_bind; [apply post_random_range|]. intros u [Hu _].
  assert (Hno : Qltb u (mutation_rate self * (1 # 2)) = false)
    by (apply Qltb_ge; lra).
  rewrite Hno. now apply post_ret.
Qed.

Lemma post_mutate_edges_shape todo : forall d : Dict.t string,
  List.NoDup todo ->
  (forall k, In k todo -> In k (Dict.keys d)) ->
  post E (for_each_M (mutate_edge self) todo d)
    (fun d' =>
       Dict.keys d' = Dict.keys d /\
       forall k,
         (~ In k todo -> Dict.get d' k = Dict.get d k) /\
         (In k todo -> forall v, Dict.get d k = Some v ->
            Dict.get d' k = Some v \/ Dict.get d' k = Some (flip_edge v))).
Proof.
  induction todo as [|k0 rest IH]; intros d Hnd Hsub.
  - apply post_ret. split; [reflexivity|]. intros k. split; [auto|intros []].
  - change (for_each_M (mutate_edge self) (k0 :: rest) d)
      with (bind (mutate_edge self d k0) (for_each_M (mutate_edge self) rest)).
    apply NoDup_cons_iff in Hnd as [Hk0 Hnd].
    assert (Hkey : In k0 (Dict.keys d)) by (apply Hsub; now left).
    eapply post_bind; [apply (post_mutate_edge_step d k0 Hkey)|].
    intros d1 Hd1.
    assert (Hkeys1 : Dict.keys d1 = Dict.keys d).
    { destruct Hd1 as [->|(cur & _ & ->)]; [reflexivity|].
      now apply dict_set_keys_old. }
    assert (Hget1 : forall k, k <> k0 -> Dict.get d1 k = Dict.get d k).
    { intros k Hne. destruct Hd1 as [->|(cur & _ & ->)]; [reflexivity|].
      rewrite dict_get_set.
      destruct (String.eqb_spec k0 k); [congruence|reflexivity]. }
    eapply post_weaken.
    + apply (IH d1 Hnd). intros k Hk. rewrite Hkeys1. apply Hsub. now right.
    + intros d' [Hkeys' Hall]. split; [congruence|].
      intros k. split.
      * intros Hnot. destruct (Hall k) as [H1 _].
        rewrite H1 by (intros H; apply Hnot; now right).
        apply Hget1. intros ->. apply Hnot. now left.
      * intros [<-|Hin] v Hv.
        -- destruct (Hall k0) as [H1 _]. rewrite (H1 Hk0).
           destruct Hd1 as [->|(cur & Hcur & ->)]; [auto|].
           rewrite dict_get_set, String.eqb_refl.
           right. congruence.
        -- destruct (Hall k) as [_ H2]. apply (H2 Hin).
           rewrite Hget1; [exact Hv|]. intros ->. tauto.
Qed.

Lemma post_mutate_edges_frozen todo : forall d : Dict.t string,
  mutation_rate self <= 0 ->
  post E (for_each_M (mutate_edge self) todo d) (fun d' => d' = d).
Proof.
  intros d Hrate.
  apply post_for_each_M with (Inv := fun d' => d' = d); [|reflexivity].
  intros d' k _ ->. now apply post_mutate_edge_frozen.
Qed.

(** The shape of a mutated solution. *)
Lemma post_mutate_solution_shape solution :
  List.NoDup (Dict.keys (edge_assignments solution)) ->
  post E (mutate_solution self solution)
    (fun s' =>
       (super_peers s' = super_peers solution \/
        exists idx c,
          (idx < length (super_peers solution))%nat /\
          In c (peer_list self) /\ ~ In c (super_peers solution) /\
          super_peers s' = <[idx := c]> (super_peers solution)) /\
       Dict.keys (edge_assignments s') = Dict.keys (edge_assignments solution) /\
       (forall k v, Dict.get (edge_assignments solution) k = Some v ->
          Dict.get (edge_assignments s') k = Some v \/
          Dict.get (edge_assignments s') k = Some (flip_edge v)) /\
       fitness s' = 0 /\ avg_delay s' = 0 /\ load_imbalance s' = 0 /\
       edge_a_load s' = 0 /\ edge_b_load s' = 0).
Proof.
  intros Hnd. unfold mutate_solution. simpl.
  eapply post_bind; [apply post_mutate_super_peers_shape|]. intros sps Hsps.
  eapply post_bind;
    [apply (post_mutate_edges_shape _ (edge_assignments solution) Hnd); auto|].
  intros ea [Hkeys Hall]. apply post_ret. simpl.
  split; [exact Hsps|]. split; [exact Hkeys|]. split; [|repeat split].
  intros k v Hv. destruct (Hall k) as [_ H2]. apply H2; [|exact Hv].
  apply dict_get_some_in in Hv. unfold Dict.keys.
  apply in_map_iff. now exists (k, v).
Qed.

End MutationShape.

(** X9: [mutate_solution] returns on every tape, and what it returns
    differs from its input in a limited way: the super-peer list is the
    same or has exactly one slot replaced by a population id that was not
    in the list; the edge assignment has the same keys in the same order
    and every label is either kept or flipped to the other edge; the five
    derived fields are reset to 0, so the result is stale until it is
    evaluated. *)
Theorem mutate_solution_shape self solution g :
  List.NoDup (Dict.keys (edge_assignments solution)) ->
  exists s' g',
    mutate_solution self solution g = Ok (s', g') /\
    (super_peers s' = super_peers solution \/
     exists idx c,
       (idx < length (super_peers solution))%nat /\
       In c (peer_list self) /\ ~ In c (super_peers solution) /\
       super_peers s' = <[idx := c]> (super_peers solution)) /\
    Dict.keys (edge_assignments s') = Dict.keys (edge_assignments solution) /\
    (forall k v, Dict.get (edge_assignments solution) k = Some v ->
       Dict.get (edge_assignments s') k = Some v \/
       Dict.get (edge_assignments s') k = Some (flip_edge v)) /\
    fitness s' = 0 /\ avg_delay s' = 0 /\ load_imbalance s' = 0 /\
    edge_a_load s' = 0 /\ edge_b_load s' = 0.
Proof.
  intros Hnd.
  exact (post_total _ _ g (post_mutate_solution_shape False self solution Hnd)).
Qed.

Lemma two_super_peers_keys_nodup :
  List.NoDup (Dict.keys (edge_assignments two_super_peers)).
Proof. simpl. repeat constructor; simpl; intuition discriminate. Qed.

Lemma mutate_solution_shape_witness :
  exists s' g',
    mutate_solution eager_engine two_super_peers tape0 = Ok (s', g') /\
    Dict.keys (edge_assignments s') = ["p1"; "p2"; "p3"; "p4"] /\
    fitness s' = 0.
Proof.
  destruct (mutate_solution_shape eager_engine two_super_peers tape0
              two_super_peers_keys_nodup)
    as (s' & g' & Hm & _ & Hk & _ & Hf & _).
  exists s', g'. auto.
Defined.

(** X10: when every population id is already a super-peer there is no
    candidate to swap in, and [mutate_solution] leaves the super-peer list
    as it is. *)
Theorem mutate_solution_without_candidates self solution g s' g' :
  (forall p, In p (peer_list self) -> In p (super_peers solution)) ->
  mutate_solution self solution g = Ok (s', g') ->
  super_peers s' = super_peers solution.
Proof.
  intros Hall Hm.
  assert (H : post True (mutate_solution self solution)
                (fun s' => super_peers s' = super_peers solution)).
  { unfold mutate_solution. simpl.
    eapply post_bind; [apply post_mutate_super_peers_shape|].
    intros sps [->|(idx & c & _ & Hc & Hnot & _)]; [|exfalso; auto].
    eapply post_bind; [apply post_any|]. intros ea _. now apply post_ret. }
  exact (post_partial _ _ _ _ _ H Hm).
Qed.

Lemma mutate_solution_without_candidates_witness :
  exists s' g',
    mutate_solution eager_engine all_super_peers tape0 = Ok (s', g') /\
    super_peers s' = ["p1"; "p2"; "p3"; "p4"].
Proof.
  destruct (mutate_solution eager_engine all_super_peers tape0)
    as [[s' g']|x] eqn:Hm; [|vm_compute in Hm; discriminate].
  exists s', g'. split; [reflexivity|].
  apply (mutate_solution_without_candidates eager_engine all_super_peers
           tape0 s' g'); [|exact Hm].
  intros p Hp. exact Hp.
Defined.

(** X11: with a mutation rate of 0 (or below) no draw is below the rate,
    and [mutate_solution] returns the plain clone of its input on every
    tape. *)
Theorem mutate_solution_with_rate_zero self solution g :
  mutation_rate self <= 0 ->
  exists g', mutate_solution self solution g = Ok (clone_solution solution, g').
Proof.
  intros Hrate.
  assert (H : post False (mutate_solution self solution)
                (fun s' => s' = clone_solution solution)).
  { unfold mutate_solution. simpl.
    eapply post_bind; [apply post_mutate_super_peers_frozen; exact Hrate|].
    intros sps ->.
    eapply post_bind; [apply post_mutate_edges_frozen; exact Hrate|].
    intros ea ->. now apply post_ret. }
  destruct (post_total _ _ g H) as (s' & g' & Hm & ->). eauto.
Qed.

Lemma mutate_solution_with_rate_zero_witness :
  exists g',
    mutate_solution frozen_engine two_super_peers tape0
    = Ok (clone_solution two_super_peers, g').
Proof.
  apply mutate_solution_with_rate_zero. simpl. lra.
Defined.

(** ** Bookkeeping of the optimization loop *)

Lemma fold_track_best_stale pop : forall bs bf bs' bf',
  fold_left track_best pop (bs, bf) = (bs', bf') ->
  (forall b, bs = Some b -> derived_fields_zero b) ->
  forall b, bs' = Some b -> derived_fields_zero b.
Proof.
  induction pop as [|s pop IH]; intros bs bf bs' bf' Hfold Hbs.
  - simpl in Hfold. injection Hfold as <- <-. exact Hbs.
  - simpl in Hfold. unfold track_best at 2 in Hfold. simpl in Hfold.
    destruct (Qltb bf (fitness s)).
    + apply (IH _ _ _ _ Hfold). intros b [= <-].
      repeat split.
    + apply (IH _ _ _ _ Hfold). exact Hbs.
Qed.

Section Bookkeeping.

Variable self : ImmunePlacementAlgorithm.

Lemma bookkeeping_generation_step gen st :
  bookkeeping_inv st ->
  post True (generation_step self gen st) bookkeeping_inv.
Proof.
  intros [Hhist Hbest]. unfold generation_step.
  eapply post_bind; [apply post_lift_partial|]. intros population _.
  destruct (fold_left track_best population
              (st_best_solution st, st_best_fitness st)) as [bs bf] eqn:Hfold.
  pose proof (fold_track_best_stale _ _ _ _ _ Hfold Hbest) as Hstale.
  eapply post_bind; [apply post_lift_partial|]. intros avg _.
  destruct bs as [b|];
    [|apply post_bind with (P := fun _ => False);
      [apply post_lift; exact I|intros ? []]].
  eapply post_bind;
    [apply (post_lift True (Ok b) (fun x => x = b)); reflexivity|].
  intros ? ->.
  eapply post_bind; [apply post_any|]. intros np _.
  eapply post_bind; [apply post_any|]. intros np' _.
  apply post_ret. simpl. split.
  - simpl. intros i e He.
    destruct (Nat.lt_ge_cases i (length (st_history st))) as [Hi|Hi].
    + rewrite lookup_app_l in He by lia. eauto.
    + rewrite lookup_app_r in He by lia.
      destruct (i - length (st_history st))%nat as [|k] eqn:Hk;
        [|destruct k; discriminate].
      injection He as <-.
      destruct (Hstale b eq_refl) as (_ & H2 & H3 & H4 & H5).
      repeat split; simpl; auto.
  - simpl. exact Hstale.
Qed.

Lemma bookkeeping_run_generations n : forall gen st,
  bookkeeping_inv st ->
  post True (run_generations self n gen st) bookkeeping_inv.
Proof.
  induction n as [|n IH]; intros gen st Hst; simpl.
  - now apply post_ret.
  - eapply post_bind; [apply bookkeeping_generation_step; exact Hst|].
    intros st' Hst'. now apply IH.
Qed.

Lemma bookkeeping_optimize :
  post True (optimize self)
    (fun r => derived_fields_zero (fst r) /\
              forall i e, snd r !! i = Some e -> entry_ok e).
Proof.
  unfold optimize.
  eapply post_bind; [apply post_any|]. intros population _.
  eapply post_bind.
  { apply (bookkeeping_run_generations _ _
             {| st_population := population; st_best_solution := None;
                st_best_fitness := - (1); st_history := [] |}).
    split; simpl.
    - intros i e H. rewrite lookup_nil in H. discriminate.
    - discriminate. }
  intros st [Hhist Hbest].
  destruct (st_best_solution st) as [b|];
    [|apply post_bind with (P := fun _ => False);
      [apply post_lift; exact I|intros ? []]].
  eapply post_bind;
    [apply (post_lift True (Ok b) (fun x => x = b)); reflexivity|].
  intros ? ->. apply post_ret. simpl. auto.
Qed.

End Bookkeeping.

(** X13: the best-ever solution is kept as a clone, and a clone carries no
    metrics.  The solution [optimize] returns therefore has all five
    derived fields at 0 (it has to be evaluated again before they can be
    read), and every record of the history reports 0 for
    [best_avg_delay], [best_load_imbalance], [best_edge_a_load] and
    [best_edge_b_load]. *)
Theorem optimize_returns_stale_metrics self g best history g' :
  optimize self g = Ok (best, history, g') ->
  (fitness best = 0 /\ avg_delay best = 0 /\ load_imbalance best = 0 /\
   edge_a_load best = 0 /\ edge_b_load best = 0) /\
  forall i e, history !! i = Some e ->
    best_avg_delay e = 0 /\ best_load_imbalance e = 0 /\
    best_edge_a_load e = 0 /\ best_edge_b_load e = 0.
Proof.
  intros Hopt.
  destruct (post_partial _ _ _ _ _ (bookkeeping_optimize self) Hopt)
    as [Hbest Hall].
  split; [exact Hbest|].
  intros i e He. exact (Hall i e He).
Qed.

Lemma optimize_returns_stale_metrics_witness :
  let self := engine four_peers_example no_rtt 2 4 3 in
  exists best history g',
    optimize self tape0 = Ok (best, history, g') /\
    fitness best = 0 /\
    forall i e, history !! i = Some e -> best_avg_delay e = 0.
Proof.
  intros self.
  destruct (optimize self tape0) as [[[best history] g']|e] eqn:Hopt.
  - exists best, history, g'. split; [reflexivity|].
    destruct (optimize_returns_stale_metrics self tape0 best history g' Hopt)
      as [(Hf & _) Hall].
    split; [exact Hf|]. intros i e He. exact (proj1 (Hall i e He)).
  - vm_compute in Hopt. discriminate.
Defined.

(** ** Configurations on which the loop cannot finish *)

(** X14: with [max_generations <= 0] no generation runs, [best_solution]
    is still [None] when the closing report reads its fields, and
    [optimize] never returns: it raises [AttributeError] as soon as the
    initial population has been built. *)
Theorem optimize_without_generations_raises self g :
  (max_generations self <= 0)%Z ->
  (forall r, optimize self g <> Ok r) /\
  (forall population g1,
     initial_population self g = Ok (population, g1) ->
     optimize self g = Raise AttributeError).
Proof.
  intros Hgens.
  assert (Hn : Z.to_nat (max_generations self) = 0%nat) by lia.
  unfold optimize, bind. rewrite Hn.
  destruct (initial_population self g) as [[population g1]|x].
  - simpl. split; [discriminate|reflexivity].
  - split; [discriminate|discriminate].
Qed.

Lemma optimize_without_generations_raises_witness :
  optimize (engine four_peers_example no_rtt 2 4 0) tape0
  = Raise AttributeError.
Proof.
  destruct (initial_population (engine four_peers_example no_rtt 2 4 0) tape0)
    as [[population g1]|x] eqn:Hinit; [|vm_compute in Hinit; discriminate].
  apply (proj2 (optimize_without_generations_raises
                  (engine four_peers_example no_rtt 2 4 0) tape0
                  ltac:(simpl; lia)) population g1 Hinit).
Defined.

(** X15: with [pop_size <= 0] the initial population is empty, and the
    first generation divides the fitness sum by its length 0: whenever at
    least one generation is to run, [optimize] raises
    [ZeroDivisionError], on every engine and every tape. *)
Theorem optimize_with_empty_population_raises self g :
  (pop_size self <= 0)%Z -> (1 <= max_generations self)%Z ->
  optimize self g = Raise ZeroDivisionError.
Proof.
  intros Hpop Hgens.
  assert (Hp : Z.to_nat (pop_size self) = 0%nat) by lia.
  destruct (Z.to_nat (max_generations self)) as [|n] eqn:Hn; [lia|].
  unfold optimize, initial_population. rewrite Hp, Hn. reflexivity.
Qed.

Lemma optimize_with_empty_population_raises_witness :
  optimize (engine four_peers_example no_rtt 2 0 5) tape0
  = Raise ZeroDivisionError.
Proof.
  apply optimize_with_empty_population_raises; simpl; lia.
Defined.

(** ** The size of the population *)

Lemma insert_desc_sorted s l : desc_sorted l -> desc_sorted (insert_desc s l).
Proof.
  induction l as [|y r IH]; simpl; intros Hs.
  - split; [intros z []|exact I].
  - destruct Hs as [Hy Hr].
    destruct (Qltb (fitness s) (fitness y)) eqn:E.
    + apply Qltb_lt in E. simpl. split; [|auto].
      intros z Hz.
      apply (Permutation_in _ (insert_desc_perm s r)) in Hz.
      destruct Hz as [<-|Hz]; [lra|auto].
    + apply Qltb_ge in E. simpl. split; [|split; assumption].
      intros z [<-|Hz]; [exact E|].
      eapply Qle_trans; [apply Hy; exact Hz|exact E].
Qed.

Lemma sort_desc_sorted l : desc_sorted (sort_desc l).
Proof.
  induction l as [|s l IH]; simpl; [exact I|].
  now apply insert_desc_sorted.
Qed.

Lemma desc_sorted_head (l : list Solution) head s idx :
  desc_sorted l -> l !! 0%nat = Some head -> l !! idx = Some s ->
  fitness s <= fitness head.
Proof.
  destruct l as [|x r]; [discriminate|]. simpl.
  intros [Hx _] [= <-] Hs. destruct idx as [|idx].
  - injection Hs as <-. lra.
  - apply Hx. apply list_elem_of_In.
    eapply list_elem_of_lookup_2. exact Hs.
Qed.

Lemma py_int_upper x c : x <= inject_Z c -> (py_int x <= c)%Z.
Proof.
  unfold py_int, Qle. simpl. intros H.
  apply Z.quot_le_upper_bound; lia.
Qed.

Lemma num_clones_upper self (population : list Solution) head s idx :
  (0 <= clone_factor self)%Z ->
  desc_sorted population ->
  population !! 0%nat = Some head -> population !! idx = Some s ->
  (Z.max 1 (py_int (inject_Z (clone_factor self)
                    * (if Qltb 0 (fitness head)
                       then fitness s / fitness head else 1)))
   <= max_clones self)%Z.
Proof.
  intros Hcf Hsorted Hhead Hs.
  pose proof (desc_sorted_head _ _ _ _ Hsorted Hhead Hs) as Hle.
  assert (Hratio : (if Qltb 0 (fitness head)
                    then fitness s / fitness head else 1) <= 1).
  { destruct (Qltb 0 (fitness head)) eqn:E; [|lra].
    apply Qltb_lt in E. apply Qle_shift_div_r; [exact E|lra]. }
  assert (Hc : 0 <= inject_Z (clone_factor self)).
  { unfold Qle. simpl. lia. }
  assert (Hx : inject_Z (clone_factor self)
               * (if Qltb 0 (fitness head)
                  then fitness s / fitness head else 1)
               <= inject_Z (clone_factor self)) by nra.
  apply py_int_upper in Hx. unfold max_clones. lia.
Qed.

Section PopulationSize.

Variable self : ImmunePlacementAlgorithm.

Lemma post_append_count {X} (make : M X) n : forall (l : list X),
  post True (repeat_M (fun np => x <~ make ;; ret (np ++ [x])%list) n l)
    (fun l' => length l' = (length l + n)%nat).
Proof.
  intros l.
  eapply post_weaken.
  - apply post_repeat_M with
      (Inv := fun j (l' : list X) => length l' = (length l + j)%nat)
      (i := 0%nat); [|lia].
    intros j l' Hl'.
    eapply post_bind; [apply post_any|]. intros x _. apply post_ret.
    rewrite length_app. simpl. lia.
  - intros l' Hl'. simpl in Hl'. lia.
Qed.

Lemma post_clone_elite_count population np idx :
  (0 <= clone_factor self)%Z -> desc_sorted population ->
  post True (clone_elite self population np idx)
    (fun np' => (length np' <= length np + Z.to_nat (max_clones self))%nat).
Proof.
  intros Hcf Hsorted. unfold clone_elite, list_index.
  destruct (population !! idx) as [s|] eqn:Hs;
    [|apply post_bind with (P := fun _ => False);
      [apply post_lift; exact I|intros ? []]].
  eapply post_bind;
    [apply (post_lift True (Ok s) (fun x => x = s)); reflexivity|].
  intros ? ->.
  destruct (population !! 0%nat) as [head|] eqn:Hhead;
    [|apply post_bind with (P := fun _ => False);
      [apply post_lift; exact I|intros ? []]].
  eapply post_bind;
    [apply (post_lift True (Ok head) (fun x => x = head)); reflexivity|].
  intros ? ->.
  pose proof (num_clones_upper self population head s idx Hcf Hsorted
                Hhead Hs) as Hn.
  eapply post_weaken; [apply post_append_count|].
  intros np' Hnp'. simpl in Hnp'. lia.
Qed.

Lemma post_elites_count population idxs : forall np,
  (0 <= clone_factor self)%Z -> desc_sorted population ->
  post True (for_each_M (clone_elite self population) idxs np)
    (fun np' => (length np'
                 <= length np + length idxs * Z.to_nat (max_clones self))%nat).
Proof.
  induction idxs as [|idx idxs IH]; intros np Hcf Hsorted.
  - apply post_ret. simpl. lia.
  - change (for_each_M (clone_elite self population) (idx :: idxs) np)
      with (bind (clone_elite self population np idx)
                 (for_each_M (clone_elite self population) idxs)).
    eapply post_bind; [apply post_clone_elite_count; assumption|].
    intros np1 H1. eapply post_weaken; [apply IH; assumption|].
    intros np' H'. simpl in *. lia.
Qed.

Lemma post_generation_step_size g st :
  (0 <= clone_factor self)%Z ->
  (max_clones self * elite_count self <= pop_size self)%Z ->
  post True (generation_step self g st)
    (fun st' => length (st_population st') = Z.to_nat (pop_size self)).
Proof.
  intros Hcf Hfit. unfold generation_step.
  eapply post_bind; [apply post_lift_partial|]. intros population _.
  destruct (fold_left track_best population _) as [bs bf].
  eapply post_bind; [apply post_lift_partial|]. intros avg _.
  eapply post_bind; [apply post_lift_partial|]. intros best _.
  eapply post_bind.
  { apply (post_elites_count (sort_desc population)); [exact Hcf|].
    apply sort_desc_sorted. }
  intros np Hnp. rewrite length_seq in Hnp. simpl in Hnp.
  fold (elite_count self) in Hnp.
  unfold fill_random.
  eapply post_bind; [apply post_append_count|].
  intros np' Hnp'. apply post_ret. simpl.
  assert (Hbound : (Z.of_nat (length np) <= pop_size self)%Z).
  { assert (H1 : (0 <= max_clones self)%Z) by (unfold max_clones; lia).
    assert (H2 : (0 <= elite_count self)%Z) by (unfold elite_count; lia).
    assert (H3 : Z.of_nat (Z.to_nat (elite_count self)
                           * Z.to_nat (max_clones self))
                 = (max_clones self * elite_count self)%Z).
    { rewrite Nat2Z.inj_mul, !Z2Nat.id by assumption. ring. }
    lia. }
  simpl in Hnp'. lia.
Qed.

Lemma post_run_generations_size n : forall g st,
  (0 <= clone_factor self)%Z ->
  (max_clones self * elite_count self <= pop_size self)%Z ->
  length (st_population st) = Z.to_nat (pop_size self) ->
  post True (run_generations self n g st)
    (fun st' => length (st_population st') = Z.to_nat (pop_size self)).
Proof.
  induction n as [|n IH]; intros g st Hcf Hfit Hst; simpl.
  - now apply post_ret.
  - eapply post_bind; [apply post_generation_step_size; assumption|].
    intros st' Hst'. now apply IH.
Qed.

Lemma post_initial_population_size :
  post True (initial_population self)
    (fun population => length population = Z.to_nat (pop_size self)).
Proof.
  unfold initial_population.
  eapply post_weaken; [apply post_append_count|].
  intros l Hl. simpl in Hl. exact Hl.
Qed.

End PopulationSize.

(** X16: the population keeps its size.  The initial population has
    [pop_size] members, and if the clone factor is non-negative and
    [max(1, clone_factor) * max(1, pop_size // 3) <= pop_size] (as for the
    defaults 3 and 30, and for every [pop_size >= 3] with a clone factor
    of at most 3), the population has exactly [pop_size] members after
    every generation: the clones of the elite never outnumber [pop_size],
    and random solutions fill the rest. *)
Theorem population_keeps_its_size self n g population g1 st g2 :
  (0 <= clone_factor self)%Z ->
  (Z.max 1 (clone_factor self) * Z.max 1 (pop_size self / 3)
   <= pop_size self)%Z ->
  initial_population self g = Ok (population, g1) ->
  run_generations self n 0%Z
    {| st_population := population; st_best_solution := None;
       st_best_fitness := - (1); st_history := [] |} g1 = Ok (st, g2) ->
  length population = Z.to_nat (pop_size self) /\
  length (st_population st) = Z.to_nat (pop_size self).
Proof.
  intros Hcf Hfit Hinit Hrun.
  pose proof (post_partial _ _ _ _ _ (post_initial_population_size self) Hinit)
    as Hlen.
  simpl in Hlen. split; [exact Hlen|].
  exact (post_partial _ _ _ _ _
           (post_run_generations_size self n 0%Z
              {| st_population := population; st_best_solution := None;
                 st_best_fitness := - (1); st_history := [] |}
              Hcf Hfit Hlen) Hrun).
Qed.

Lemma population_keeps_its_size_witness :
  let self := engine four_peers_example no_rtt 2 4 3 in
  exists population g1 st g2,
    initial_population self tape0 = Ok (population, g1) /\
    run_generations self 2 0%Z
      {| st_population := population; st_best_solution := None;
         st_best_fitness := - (1); st_history := [] |} g1 = Ok (st, g2) /\
    length population = 4%nat /\ length (st_population st) = 4%nat.
Proof.
  intros self.
  destruct (initial_population self tape0) as [[population g1]|x] eqn:Hinit;
    [|vm_compute in Hinit; discriminate].
  destruct (run_generations self 2 0%Z
              {| st_population := population; st_best_solution := None;
                 st_best_fitness := - (1); st_history := [] |} g1)
    as [[st g2]|x] eqn:Hrun.
  - exists population, g1, st, g2. split; [reflexivity|].
    split; [exact Hrun|].
    apply (population_keeps_its_size self 2 tape0 population g1 st g2);
      [simpl; lia|vm_compute; discriminate|exact Hinit|exact Hrun].
  - exfalso. vm_compute in Hinit. injection Hinit as <- <-.
    vm_compute in Hrun. discriminate.
Defined.

(** ** Dictionaries built by comprehension *)

Lemma dict_set_keys_nodup {V} (d : Dict.t V) k v :
  List.NoDup (Dict.keys d) -> List.NoDup (Dict.keys (Dict.set d k v)).
Proof.
  intros Hnd. destruct (in_dec String.string_dec k (Dict.keys d)) as [Hin|Hnot].
  - now rewrite dict_set_keys_old.
  - rewrite dict_set_new by exact Hnot. unfold Dict.keys in *.
    rewrite map_app. simpl. apply List.NoDup_app; auto.
    + repeat constructor. intros [].
    + intros x Hx [<-|[]]. tauto.
Qed.

Lemma dict_set_keys_in {V} (d : Dict.t V) k v x :
  In x (Dict.keys (Dict.set d k v)) <-> x = k \/ In x (Dict.keys d).
Proof.
  destruct (in_dec String.string_dec k (Dict.keys d)) as [Hin|Hnot].
  - rewrite dict_set_keys_old by exact Hin. split; [auto|].
    intros [->|H]; auto.
  - rewrite dict_set_new by exact Hnot. unfold Dict.keys.
    rewrite map_app, in_app_iff. simpl. split.
    + intros [H|[<-|[]]]; auto.
    + intros [->|H]; auto.
Qed.

Lemma find_snoc {X} (f : X -> bool) l x :
  find f (l ++ [x])%list
  = match find f l with
    | Some y => Some y
    | None => if f x then Some x else None
    end.
Proof.
  induction l as [|y l IH]; simpl; [reflexivity|].
  destruct (f y); auto.
Qed.

Section Comprehension.

Context {X V : Type}.
Variable key : X -> string.
Variable val : X -> V.

Lemma comprehension_fold l : forall d : Dict.t V,
  List.NoDup (Dict.keys d) ->
  let d' := fold_left (fun d x => Dict.set d (key x) (val x)) l d in
  List.NoDup (Dict.keys d') /\
  (forall k, In k (Dict.keys d') <-> In k (Dict.keys d) \/ In k (map key l)) /\
  (forall k, Dict.get d' k
             = match find (fun x => String.eqb (key x) k) (rev l) with
               | Some x => Some (val x)
               | None => Dict.get d k
               end).
Proof.
  induction l as [|x l IH]; intros d Hnd; simpl.
  - split; [exact Hnd|]. split; [tauto|reflexivity].
  - destruct (IH (Dict.set d (key x) (val x)) (dict_set_keys_nodup _ _ _ Hnd))
      as (H1 & H2 & H3).
    split; [exact H1|]. split.
    + intros k. split.
      * intros H. apply H2 in H as [H|H]; [|auto].
        apply dict_set_keys_in in H as [->|H]; auto.
      * intros H. apply H2.
        destruct H as [H|[<-|H]]; [left|left|right; exact H];
          apply dict_set_keys_in; auto.
    + intros k. rewrite H3, find_snoc, dict_get_set.
      destruct (find _ (rev l)); [reflexivity|].
      destruct (String.eqb (key x) k); reflexivity.
Qed.

Lemma comprehension_nodup_keys l :
  List.NoDup (map key l) ->
  Dict.comprehension key val l = map (fun x => (key x, val x)) l.
Proof.
  unfold Dict.comprehension.
  assert (H : forall l (d : Dict.t V),
            List.NoDup (Dict.keys d ++ map key l) ->
            fold_left (fun d x => Dict.set d (key x) (val x)) l d
            = (d ++ map (fun x => (key x, val x)) l)%list).
  { clear l. induction l as [|x l IH]; intros d Hd; simpl.
    - now rewrite app_nil_r.
    - assert (Hfresh : ~ In (key x) (Dict.keys d)).
      { intros Hin. apply NoDup_remove_2 in Hd. apply Hd.
        apply in_or_app. now left. }
      rewrite (dict_set_new d (key x) (val x) Hfresh), IH.
      + now rewrite <- app_assoc.
      + unfold Dict.keys. rewrite map_app, <- app_assoc. exact Hd. }
  intros Hnd. apply (H l Dict.empty). exact Hnd.
Qed.

End Comprehension.

(** X17: the peer dictionary built by [__init__].  Its keys are distinct
    and are exactly the ids occurring in the list; looking an id up gives
    the last peer of the list with that id (a later peer overwrites an
    earlier one), while [peer_list] keeps every occurrence; so the
    dictionary is never longer than [peer_list], and with unique ids its
    keys are [peer_list] itself, in order. *)
Theorem init_builds_peer_dictionary ps rtt nsp a b cap psize cf mr gens k :
  let self := init ps rtt nsp a b cap psize cf mr gens in
  peer_list self = map id ps /\
  List.NoDup (Dict.keys (peers self)) /\
  (In k (Dict.keys (peers self)) <-> In k (map id ps)) /\
  Dict.get (peers self) k
  = find (fun p => String.eqb (id p) k) (rev ps) /\
  (length (Dict.keys (peers self)) <= length (peer_list self))%nat /\
  (List.NoDup (map id ps) -> Dict.keys (peers self) = peer_list self).
Proof.
  intros self. simpl.
  destruct (comprehension_fold id (fun p : Peer => p) ps Dict.empty)
    as (H1 & H2 & H3); [constructor|].
  fold (Dict.comprehension id (fun p : Peer => p) ps) in H1, H2, H3.
  split; [reflexivity|]. split; [exact H1|]. split; [|split; [|split]].
  - rewrite H2. simpl. tauto.
  - rewrite H3. simpl. destruct (find _ (rev ps)); reflexivity.
  - apply NoDup_incl_length; [exact H1|].
    intros x Hx. apply H2 in Hx. simpl in Hx. tauto.
  - intros Hnd. rewrite (comprehension_nodup_keys id _ ps Hnd).
    unfold Dict.keys. rewrite map_map. reflexivity.
Qed.

(** With two peers called p1 the dictionary holds the later one, and
    [peer_list] is longer than the dictionary. *)
Lemma init_builds_peer_dictionary_witness :
  let self := engine peers_with_duplicate no_rtt 2 4 3 in
  Dict.get (peers self) "p1" = Some (mk_peer "p1" 7 90 20) /\
  Dict.keys (peers self) = ["p1"; "p2"] /\
  peer_list self = ["p1"; "p2"; "p1"].
Proof.
  intros self.
  destruct (init_builds_peer_dictionary peers_with_duplicate no_rtt 2
              (7 # 10) (3 # 10) 10000 4 3 (1 # 10) 3 "p1")
    as (Hlist & _ & _ & Hget & _).
  split; [exact Hget|]. split; [reflexivity|exact Hlist].
Defined.

(** ** The baselines *)

Lemma keyed_map_get {X V} (key : X -> string) (val : X -> V) l x :
  List.NoDup (map key l) -> In x l ->
  Dict.get (map (fun x => (key x, val x)) l) (key x) = Some (val x).
Proof.
  induction l as [|y l IH]; simpl; intros Hnd Hin; [tauto|].
  apply NoDup_cons_iff in Hnd as [Hy Hnd].
  destruct Hin as [->|Hin].
  - now rewrite String.eqb_refl.
  - destruct (String.eqb_spec (key y) (key x)) as [E|_]; [|auto].
    exfalso. apply Hy. rewrite E. now apply in_map.
Qed.

Lemma nearest_assign_keyed ps :
  List.NoDup (map id ps) ->
  SimulationRunner.nearest_assign ps
  = map (fun p => (id p, nearest_label p)) ps.
Proof.
  intros Hnd.
  change (SimulationRunner.nearest_assign ps)
    with (Dict.comprehension id nearest_label ps).
  now apply comprehension_nodup_keys.
Qed.

Lemma round_robin_assign_spec ps : forall i (d : Dict.t string),
  List.NoDup (Dict.keys d ++ map id ps) ->
  let d' := SimulationRunner.round_robin_assign i ps d in
  Dict.keys d' = (Dict.keys d ++ map id ps)%list /\
  (forall k, ~ In k (map id ps) -> Dict.get d' k = Dict.get d k) /\
  (forall j p, ps !! j = Some p ->
     Dict.get d' (id p) = Some (round_robin_label (i + j))) /\
  (labels_ok d -> labels_ok d').
Proof.
  induction ps as [|x r IH]; intros i d Hnd; simpl.
  - rewrite app_nil_r. repeat split; auto. intros j p H. discriminate.
  - assert (Hfresh : ~ In (id x) (Dict.keys d)).
    { intros Hin. apply NoDup_remove_2 in Hnd. apply Hnd.
      apply in_or_app. now left. }
    assert (Hx : ~ In (id x) (map id r)).
    { apply NoDup_remove_2 in Hnd. intros Hin. apply Hnd.
      apply in_or_app. now right. }
    fold (round_robin_label i).
    assert (Hnd' : List.NoDup
                     (Dict.keys (Dict.set d (id x) (round_robin_label i))
                      ++ map id r)).
    { rewrite dict_set_new by exact Hfresh. unfold Dict.keys.
      rewrite map_app, <- app_assoc. exact Hnd. }
    destruct (IH (Datatypes.S i) _ Hnd') as (H1 & H2 & H3 & H4).
    split; [|split; [|split]].
    + rewrite H1, dict_set_new by exact Hfresh. unfold Dict.keys.
      rewrite map_app, <- app_assoc. reflexivity.
    + intros k Hk. rewrite H2 by tauto. rewrite dict_get_set.
      destruct (String.eqb_spec (id x) k); [tauto|reflexivity].
    + intros [|j] p Hp.
      * injection Hp as <-. rewrite H2 by exact Hx.
        rewrite dict_get_set, String.eqb_refl, Nat.add_0_r. reflexivity.
      * rewrite (H3 j p Hp). f_equal. f_equal. lia.
    + intros Hl. apply H4. intros v Hv.
      apply dict_set_values in Hv as [->|Hv]; [|auto].
      unfold round_robin_label. destruct (Nat.even i); auto.
Qed.

(** X18: the two deterministic baselines.  For peers with unique ids,
    [_round_robin_baseline] and [_nearest_edge_baseline] return solutions
    without super-peers whose assignment lists the peers in their order;
    round-robin gives the peer at position [j] edge A when [j] is even and
    B when it is odd; nearest-edge gives a peer edge A when its latency to
    A is strictly smaller and B otherwise (a tie goes to B).  Both
    solutions satisfy the invariants of a Solution for any engine built
    from the same peers. *)
Theorem baselines_are_well_formed ps rtt nsp a b cap psize cf mr gens :
  List.NoDup (map id ps) ->
  let self := init ps rtt nsp a b cap psize cf mr gens in
  let rr := SimulationRunner._round_robin_baseline ps rtt in
  let ne := SimulationRunner._nearest_edge_baseline ps rtt in
  super_peers rr = [] /\ super_peers ne = [] /\
  Dict.keys (edge_assignments rr) = map id ps /\
  Dict.keys (edge_assignments ne) = map id ps /\
  (forall j p, ps !! j = Some p ->
     Dict.get (edge_assignments rr) (id p) = Some (round_robin_label j)) /\
  (forall p, In p ps ->
     Dict.get (edge_assignments ne) (id p) = Some (nearest_label p)) /\
  well_formed self rr /\ well_formed self ne.
Proof.
  intros Hnd self rr ne.
  destruct (round_robin_assign_spec ps 0 Dict.empty Hnd)
    as (Hk0 & _ & Hget & Hl).
  assert (Hk : Dict.keys (edge_assignments rr) = map id ps) by exact Hk0.
  assert (Hkeys : Dict.keys (peers self) = map id ps).
  { destruct (init_valid ps rtt nsp a b cap psize cf mr gens Hnd) as [_ H].
    exact H. }
  assert (Hne : edge_assignments ne = map (fun p => (id p, nearest_label p)) ps)
    by (apply nearest_assign_keyed; exact Hnd).
  assert (Hnek : Dict.keys (edge_assignments ne) = map id ps).
  { rewrite Hne. unfold Dict.keys. rewrite map_map. reflexivity. }
  split; [reflexivity|]. split; [reflexivity|].
  split; [exact Hk|]. split; [exact Hnek|].
  split; [exact Hget|]. split.
  { intros p Hp. rewrite Hne. now apply keyed_map_get. }
  split.
  - split.
    + rewrite Hk. exact Hnd.
    + intros k. rewrite Hk, Hkeys. tauto.
    + apply Hl. intros v [].
    + constructor.
    + intros p [].
  - split.
    + rewrite Hnek. exact Hnd.
    + intros k. rewrite Hnek, Hkeys. tauto.
    + rewrite Hne. intros v Hv. unfold Dict.values in Hv.
      rewrite map_map in Hv. apply in_map_iff in Hv as (p & <- & _).
      simpl. unfold nearest_label. destruct (Qltb _ _); auto.
    + constructor.
    + intros p [].
Qed.

Lemma four_peers_example_ids_nodup : List.NoDup (map id four_peers_example).
Proof. simpl. repeat constructor; simpl; intuition discriminate. Qed.

Lemma baselines_are_well_formed_witness :
  edge_assignments
    (SimulationRunner._round_robin_baseline four_peers_example no_rtt)
  = [("p1", "A"); ("p2", "B"); ("p3", "A"); ("p4", "B")] /\
  edge_assignments
    (SimulationRunner._nearest_edge_baseline four_peers_example no_rtt)
  = [("p1", "A"); ("p2", "A"); ("p3", "B"); ("p4", "B")] /\
  well_formed (engine four_peers_example no_rtt 0 3 2)
    (SimulationRunner._round_robin_baseline four_peers_example no_rtt) /\
  well_formed (engine four_peers_example no_rtt 0 3 2)
    (SimulationRunner._nearest_edge_baseline four_peers_example no_rtt).
Proof.
  destruct (baselines_are_well_formed four_peers_example no_rtt 0
              (7 # 10) (3 # 10) 10000 3 3 (1 # 10) 2
              four_peers_example_ids_nodup)
    as (_ & _ & _ & _ & _ & _ & Hrr & Hne).
  split; [reflexivity|]. split; [reflexivity|]. split; assumption.
Defined.

(** X19: the random-super-peer baseline does not cap its request.
    [_random_super_peers_baseline] raises [ValueError] when the number of
    super-peers asked for is negative or exceeds the number of peers (the
    engine's own generator caps it instead); otherwise, for peers with
    unique ids, it returns that many distinct peer ids together with the
    nearest-edge assignment. *)
Theorem random_baseline_does_not_cap ps rtt n g :
  (((n < 0)%Z \/ (Z.of_nat (length ps) < n)%Z) ->
   SimulationRunner._random_super_peers_baseline ps rtt n g
   = Raise ValueError) /\
  ((0 <= n <= Z.of_nat (length ps))%Z -> List.NoDup (map id ps) ->
   exists s g',
     SimulationRunner._random_super_peers_baseline ps rtt n g = Ok (s, g') /\
     length (super_peers s) = Z.to_nat n /\
     List.NoDup (super_peers s) /\
     (forall p, In p (super_peers s) -> In p (map id ps)) /\
     edge_assignments s
     = edge_assignments (SimulationRunner._nearest_edge_baseline ps rtt)).
Proof.
  split.
  - intros Hbad. unfold SimulationRunner._random_super_peers_baseline, bind, sample.
    rewrite length_map.
    destruct ((0 <=? n)%Z && (n <=? Z.of_nat (length ps))%Z) eqn:Hc;
      [|reflexivity].
    apply andb_true_iff in Hc as [H1 H2].
    apply Z.leb_le in H1, H2. lia.
  - intros Hn Hnd.
    assert (H : post False
                  (SimulationRunner._random_super_peers_baseline ps rtt n)
                  (fun s =>
                     length (super_peers s) = Z.to_nat n /\
                     List.NoDup (super_peers s) /\
                     (forall p, In p (super_peers s) -> In p (map id ps)) /\
                     edge_assignments s
                     = edge_assignments
                         (SimulationRunner._nearest_edge_baseline ps rtt))).
    { unfold SimulationRunner._random_super_peers_baseline.
      eapply post_bind.
      - apply post_sample; [exact Hnd|lia|rewrite length_map; lia].
      - intros sps (_ & H1 & H2 & H3). apply post_ret. simpl. auto. }
    exact (post_total _ _ g H).
Qed.

(** Fifteen super-peers, as [run_baseline_comparison] asks for, cannot be
    drawn from four peers; two can. *)
Lemma random_baseline_does_not_cap_witness :
  SimulationRunner._random_super_peers_baseline four_peers_example no_rtt 15
    tape0 = Raise ValueError /\
  exists s g',
    SimulationRunner._random_super_peers_baseline four_peers_example no_rtt 2
      tape0 = Ok (s, g') /\
    length (super_peers s) = 2%nat.
Proof.
  split.
  - apply (proj1 (random_baseline_does_not_cap four_peers_example no_rtt 15
                    tape0)).
    right. simpl. lia.
  - destruct (proj2 (random_baseline_does_not_cap four_peers_example no_rtt 2
                       tape0))
      as (s & g' & Hs & Hlen & _).
    + simpl. lia.
    + exact four_peers_example_ids_nodup.
    + exists s, g'. auto.
Defined.

(** ** The metrics routine of the simulation runner *)

Lemma add_load_ok_label loads edge d loads' :
  add_load loads edge d = Ok loads' -> edge = "A" \/ edge = "B".
Proof.
  unfold add_load.
  destruct (String.eqb_spec edge "A"); [auto|].
  destruct (String.eqb_spec edge "B"); [auto|discriminate].
Qed.

Lemma metrics_peer_inv solution rtt acc peer_id peer acc' :
  SimulationRunner.metrics_peer solution rtt acc (peer_id, peer) = Ok acc' ->
  (assigned_edge_of solution peer_id = "A" \/
   assigned_edge_of solution peer_id = "B") /\
  SimulationRunner.acc_delays acc'
  = (SimulationRunner.acc_delays acc
     ++ [metrics_entry solution rtt (peer_id, peer)])%list /\
  add_load (SimulationRunner.acc_loads acc)
           (assigned_edge_of solution peer_id) (demand peer)
  = Ok (SimulationRunner.acc_loads acc') /\
  SimulationRunner.acc_total_demand acc'
  = SimulationRunner.acc_total_demand acc + demand peer /\
  hits_total acc' = (hits_total acc + 1)%Z /\
  (SimulationRunner.acc_p2p_hits acc <= SimulationRunner.acc_p2p_hits acc')%Z /\
  (fst (SimulationRunner.acc_edge_hits acc)
   <= fst (SimulationRunner.acc_edge_hits acc'))%Z /\
  (snd (SimulationRunner.acc_edge_hits acc)
   <= snd (SimulationRunner.acc_edge_hits acc'))%Z /\
  (super_peers solution = [] ->
   SimulationRunner.acc_p2p_hits acc' = SimulationRunner.acc_p2p_hits acc).
Proof.
  unfold SimulationRunner.metrics_peer, metrics_entry, metrics_delay,
    stored_edge_rtt, hits_total, assigned_edge_of.
  cbv zeta. simpl fst. simpl snd.
  set (edge := Dict.get_default (edge_assignments solution) peer_id "A").
  destruct (xadd (SimulationRunner.d_super_of rtt (super_peers solution)
                    peer_id) 5) as [p|] eqn:Hx.
  - simpl SimulationRunner.xltb.
    destruct (Qltb p _) eqn:Hlt; simpl rbind.
    + destruct (add_load (SimulationRunner.acc_loads acc) edge (demand peer))
        as [l|x] eqn:Hl; simpl rbind; [|discriminate].
      intros [= <-]. simpl.
      split; [exact (add_load_ok_label _ _ _ _ Hl)|].
      repeat split; try reflexivity; try lia.
      intros Hs. rewrite Hs in Hx. discriminate.
    + unfold SimulationRunner.add_hit.
      destruct (String.eqb edge "A") eqn:HA; simpl rbind.
      * destruct (add_load (SimulationRunner.acc_loads acc) edge (demand peer))
          as [l|x] eqn:Hl; simpl rbind; [|discriminate].
        intros [= <-]. simpl.
        split; [exact (add_load_ok_label _ _ _ _ Hl)|].
        repeat split; try reflexivity; lia.
      * destruct (String.eqb edge "B") eqn:HB; simpl rbind; [|discriminate].
        destruct (add_load (SimulationRunner.acc_loads acc) edge (demand peer))
          as [l|x] eqn:Hl; simpl rbind; [|discriminate].
        intros [= <-]. simpl.
        split; [exact (add_load_ok_label _ _ _ _ Hl)|].
        repeat split; try reflexivity; lia.
  - unfold SimulationRunner.add_hit.
    destruct (String.eqb edge "A") eqn:HA; simpl rbind.
    + destruct (add_load (SimulationRunner.acc_loads acc) edge (demand peer))
        as [l|x] eqn:Hl; simpl rbind; [|discriminate].
      intros [= <-]. simpl.
      split; [exact (add_load_ok_label _ _ _ _ Hl)|].
      repeat split; try reflexivity; lia.
    + destruct (String.eqb edge "B") eqn:HB; simpl rbind; [|discriminate].
      destruct (add_load (SimulationRunner.acc_loads acc) edge (demand peer))
        as [l|x] eqn:Hl; simpl rbind; [|discriminate].
      intros [= <-]. simpl.
      split; [exact (add_load_ok_label _ _ _ _ Hl)|].
      repeat split; try reflexivity; lia.
Qed.

Lemma metrics_peer_succeeds solution rtt acc peer_id peer :
  assigned_edge_of solution peer_id = "A" \/
  assigned_edge_of solution peer_id = "B" ->
  succeeds (SimulationRunner.metrics_peer solution rtt acc (peer_id, peer)).
Proof.
  unfold SimulationRunner.metrics_peer, assigned_edge_of, succeeds.
  cbv zeta. intros Hl.
  assert (Hh : exists eh,
             SimulationRunner.add_hit (SimulationRunner.acc_edge_hits acc)
               (Dict.get_default (edge_assignments solution) peer_id "A")
             = Ok eh).
  { unfold SimulationRunner.add_hit. destruct Hl as [-> | ->]; simpl; eauto. }
  assert (Hlo : exists l,
             add_load (SimulationRunner.acc_loads acc)
               (Dict.get_default (edge_assignments solution) peer_id "A")
               (demand peer) = Ok l).
  { unfold add_load. destruct Hl as [-> | ->]; simpl; eauto. }
  destruct Hh as [eh ->], Hlo as [l ->].
  destruct (xadd _ 5) as [p|]; simpl; [|eauto].
  destruct (Qltb p _); simpl; eauto.
Qed.

Lemma metrics_peer_raises solution rtt acc peer_id peer x :
  SimulationRunner.metrics_peer solution rtt acc (peer_id, peer) = Raise x ->
  x = KeyError /\
  assigned_edge_of solution peer_id <> "A" /\
  assigned_edge_of solution peer_id <> "B".
Proof.
  intros H.
  destruct (String.eqb_spec (assigned_edge_of solution peer_id) "A") as [HA|HA].
  { destruct (metrics_peer_succeeds solution rtt acc peer_id peer (or_introl HA))
      as [a Ha]. congruence. }
  destruct (String.eqb_spec (assigned_edge_of solution peer_id) "B") as [HB|HB].
  { destruct (metrics_peer_succeeds solution rtt acc peer_id peer (or_intror HB))
      as [a Ha]. congruence. }
  split; [|auto].
  apply String.eqb_neq in HA, HB.
  unfold SimulationRunner.metrics_peer, SimulationRunner.add_hit, add_load in H.
  cbv zeta in H. unfold assigned_edge_of in HA, HB.
  rewrite HA, HB in H.
  destruct (xadd _ 5) as [p|]; simpl in H; [|congruence].
  destruct (Qltb p _); simpl in H; congruence.
Qed.

Section MetricsLoop.

Variable solution : Solution.
Variable rtt : RTTMatrix.

Lemma metrics_loop_inv items : forall acc acc',
  for_each (SimulationRunner.metrics_peer solution rtt) items acc = Ok acc' ->
  (forall peer_id peer, In (peer_id, peer) items ->
     assigned_edge_of solution peer_id = "A" \/
     assigned_edge_of solution peer_id = "B") /\
  SimulationRunner.acc_delays acc'
  = (SimulationRunner.acc_delays acc
     ++ map (metrics_entry solution rtt) items)%list /\
  SimulationRunner.acc_total_demand acc'
  = fold_left Qplus (map demand (map snd items))
      (SimulationRunner.acc_total_demand acc) /\
  hits_total acc' = (hits_total acc + Z.of_nat (length items))%Z /\
  (SimulationRunner.acc_p2p_hits acc <= SimulationRunner.acc_p2p_hits acc')%Z /\
  (fst (SimulationRunner.acc_edge_hits acc)
   <= fst (SimulationRunner.acc_edge_hits acc'))%Z /\
  (snd (SimulationRunner.acc_edge_hits acc)
   <= snd (SimulationRunner.acc_edge_hits acc'))%Z /\
  (super_peers solution = [] ->
   SimulationRunner.acc_p2p_hits acc' = SimulationRunner.acc_p2p_hits acc).
Proof.
  induction items as [|[peer_id peer] items IH]; intros acc acc'.
  - intros [= <-]. rewrite app_nil_r. simpl.
    split; [intros ? ? []|]. repeat split; try reflexivity; lia.
  - rewrite for_each_cons.
    destruct (SimulationRunner.metrics_peer solution rtt acc (peer_id, peer))
      as [acc1|x] eqn:Hp; simpl rbind; [|discriminate].
    intros Hloop.
    destruct (metrics_peer_inv _ _ _ _ _ _ Hp)
      as (Hl & Hd & _ & Ht & Hh & H1 & H2 & H3 & H4).
    destruct (IH _ _ Hloop) as (Hl' & Hd' & Ht' & Hh' & H1' & H2' & H3' & H4').
    split; [|split; [|split; [|split; [|split; [|split; [|split]]]]]].
    + intros k p [[= <- <-]|Hin]; [exact Hl|eauto].
    + rewrite Hd', Hd, <- app_assoc. reflexivity.
    + rewrite Ht', Ht. reflexivity.
    + rewrite Hh', Hh. cbn [length]. lia.
    + lia.
    + lia.
    + lia.
    + intros Hs. rewrite H4', H4 by exact Hs. reflexivity.
Qed.

Lemma metrics_loop_succeeds items : forall acc,
  (forall peer_id peer, In (peer_id, peer) items ->
     assigned_edge_of solution peer_id = "A" \/
     assigned_edge_of solution peer_id = "B") ->
  succeeds (for_each (SimulationRunner.metrics_peer solution rtt) items acc).
Proof.
  induction items as [|[peer_id peer] items IH]; intros acc Hl.
  - unfold succeeds. simpl. eauto.
  - rewrite for_each_cons.
    destruct (metrics_peer_succeeds solution rtt acc peer_id peer) as [a ->].
    + apply (Hl peer_id peer). now left.
    + simpl rbind. apply IH. intros k p Hin. apply (Hl k p). now right.
Qed.

Lemma metrics_loop_raises items : forall acc x,
  for_each (SimulationRunner.metrics_peer solution rtt) items acc = Raise x ->
  x = KeyError /\
  exists peer_id peer, In (peer_id, peer) items /\
    assigned_edge_of solution peer_id <> "A" /\
    assigned_edge_of solution peer_id <> "B".
Proof.
  induction items as [|[peer_id peer] items IH]; intros acc x; [discriminate|].
  rewrite for_each_cons.
  destruct (SimulationRunner.metrics_peer solution rtt acc (peer_id, peer))
    as [acc1|y] eqn:Hp; simpl rbind.
  - intros H. destruct (IH _ _ H) as (-> & k & p & Hin & Hbad).
    split; [reflexivity|]. exists k, p. split; [now right|exact Hbad].
  - intros [= <-]. destruct (metrics_peer_raises _ _ _ _ _ _ Hp) as (-> & Hbad).
    split; [reflexivity|]. exists peer_id, peer. split; [now left|exact Hbad].
Qed.

End MetricsLoop.

Lemma dict_get_in_nodup {V} (d : Dict.t V) k v :
  List.NoDup (Dict.keys d) -> In (k, v) d -> Dict.get d k = Some v.
Proof.
  induction d as [|[k' v'] r IH]; simpl; intros Hnd Hin; [tauto|].
  apply NoDup_cons_iff in Hnd as [Hk Hnd].
  destruct Hin as [[= -> ->]|Hin].
  - now rewrite String.eqb_refl.
  - destruct (String.eqb_spec k' k) as [->|_]; [|auto].
    exfalso. apply Hk. unfold Dict.keys.
    change k with (fst (k, v)). now apply in_map.
Qed.

(** An item of the peer dictionary is the last peer of the list with its
    id, and every comprehension over the same list is keyed alike. *)
Lemma peer_dict_items {V} (val : Peer -> V) ps k p :
  In (k, p) (Dict.items (Dict.comprehension id (fun p => p) ps)) ->
  In p ps /\ id p = k /\
  Dict.get (Dict.comprehension id (fun p => p) ps) k = Some p /\
  Dict.get (Dict.comprehension id val ps) k = Some (val p).
Proof.
  intros Hin.
  destruct (comprehension_fold id (fun p : Peer => p) ps Dict.empty)
    as (H1 & _ & H3); [constructor|].
  destruct (comprehension_fold id val ps Dict.empty)
    as (_ & _ & H3'); [constructor|].
  fold (Dict.comprehension id (fun p : Peer => p) ps) in H1, H3.
  fold (Dict.comprehension id val ps) in H3'.
  pose proof (dict_get_in_nodup _ _ _ H1 Hin) as Hget.
  rewrite H3 in Hget.
  destruct (find (fun x => String.eqb (id x) k) (rev ps)) as [x|] eqn:Hf;
    [|discriminate].
  injection Hget as ->.
  pose proof Hf as Hf'. apply find_some in Hf' as [Hx Hk].
  apply in_rev in Hx. apply String.eqb_eq in Hk.
  split; [exact Hx|]. split; [exact Hk|].
  rewrite H3, H3', Hf. split; reflexivity.
Qed.

Lemma metrics_result solution ps rtt m :
  SimulationRunner._evaluate_solution_metrics solution ps rtt = Ok m ->
  exists acc,
    for_each (SimulationRunner.metrics_peer solution rtt)
      (Dict.items (Dict.comprehension id (fun p => p) ps))
      {| SimulationRunner.acc_delays := [];
         SimulationRunner.acc_loads := (0, 0);
         SimulationRunner.acc_p2p_hits := 0;
         SimulationRunner.acc_edge_hits := (0%Z, 0%Z);
         SimulationRunner.acc_total_demand := 0 |} = Ok acc /\
    SimulationRunner.avg_delay_ms m
    = (if Qltb 0 (SimulationRunner.acc_total_demand acc)
       then weighted_sum (SimulationRunner.acc_delays acc)
            / SimulationRunner.acc_total_demand acc
       else 0) /\
    SimulationRunner.edge_a_utilization m
    = SimulationRunner.edge_a_load_kbps m / 10000 /\
    SimulationRunner.edge_b_utilization m
    = SimulationRunner.edge_b_load_kbps m / 10000 /\
    SimulationRunner.p2p_hit_rate m
    = match ps with
      | [] => 0
      | _ => inject_Z (SimulationRunner.acc_p2p_hits acc)
             / inject_Z (Z.of_nat (length ps))
      end /\
    SimulationRunner.p2p_hits m = SimulationRunner.acc_p2p_hits acc /\
    SimulationRunner.edge_a_hits m = fst (SimulationRunner.acc_edge_hits acc) /\
    SimulationRunner.edge_b_hits m = snd (SimulationRunner.acc_edge_hits acc) /\
    SimulationRunner.m_super_peers m = super_peers solution /\
    SimulationRunner.m_num_super_peers m = length (super_peers solution).
Proof.
  unfold SimulationRunner._evaluate_solution_metrics.
  destruct (for_each _ _ _) as [acc|x]; simpl rbind; [|discriminate].
  intros [= <-]. exists acc. simpl. repeat split; reflexivity.
Qed.

Lemma metrics_succeeds solution ps rtt :
  (forall peer_id peer,
     In (peer_id, peer) (Dict.items (Dict.comprehension id (fun p => p) ps)) ->
     assigned_edge_of solution peer_id = "A" \/
     assigned_edge_of solution peer_id = "B") ->
  succeeds (SimulationRunner._evaluate_solution_metrics solution ps rtt).
Proof.
  intros Hl. unfold SimulationRunner._evaluate_solution_metrics.
  destruct (metrics_loop_succeeds solution rtt _
              {| SimulationRunner.acc_delays := [];
                 SimulationRunner.acc_loads := (0, 0);
                 SimulationRunner.acc_p2p_hits := 0;
                 SimulationRunner.acc_edge_hits := (0%Z, 0%Z);
                 SimulationRunner.acc_total_demand := 0 |} Hl) as [acc ->].
  simpl rbind. unfold succeeds. eauto.
Qed.

Lemma metrics_raises solution ps rtt x :
  SimulationRunner._evaluate_solution_metrics solution ps rtt = Raise x ->
  x = KeyError /\
  exists peer_id peer,
    In (peer_id, peer) (Dict.items (Dict.comprehension id (fun p => p) ps)) /\
    assigned_edge_of solution peer_id <> "A" /\
    assigned_edge_of solution peer_id <> "B".
Proof.
  unfold SimulationRunner._evaluate_solution_metrics.
  destruct (for_each _ _ _) as [acc|y] eqn:Hloop; simpl rbind; [discriminate|].
  intros [= <-]. exact (metrics_loop_raises _ _ _ _ _ Hloop).
Qed.

(** X20: the [KeyError] and the loads of the metrics routine.
    [_evaluate_solution_metrics] raises [KeyError] exactly when some peer
    carries a label other than A and B (a peer without an entry counts as
    A), which is when [evaluate_solution] raises it.  Whenever the
    evaluator returns, the metrics routine returns too, with the same two
    edge loads and the same load imbalance, and each utilization is the
    load over the fixed capacity 10000 (the engine's [edge_capacity] is
    not consulted). *)
Theorem metrics_key_error_and_loads solution ps rtt nsp a b cap psize cf mr gens :
  let self := init ps rtt nsp a b cap psize cf mr gens in
  let metrics := SimulationRunner._evaluate_solution_metrics solution ps rtt in
  (metrics = Raise KeyError <-> has_bad_label self solution) /\
  (forall s e, evaluate_solution self solution = Ok (s, e) ->
     exists m, metrics = Ok m /\
       SimulationRunner.edge_a_load_kbps m = ev_load_a e /\
       SimulationRunner.edge_b_load_kbps m = ev_load_b e /\
       SimulationRunner.m_load_imbalance m = ev_load_imbalance e /\
       SimulationRunner.edge_a_utilization m = ev_load_a e / 10000 /\
       SimulationRunner.edge_b_utilization m = ev_load_b e / 10000).
Proof.
  intros self metrics. subst metrics.
  destruct (SimulationRunner._evaluate_solution_metrics solution ps rtt)
    as [m|x] eqn:Hm.
  - destruct (metrics_result _ _ _ _ Hm)
      as (acc & Hloop & _ & Hua & Hub & _).
    destruct (metrics_loop_inv _ _ _ _ _ Hloop) as (Hl & _).
    split.
    + split; [discriminate|].
      intros (k & p & Hin & HA & HB). destruct (Hl k p Hin); congruence.
    + intros s e Hev. exists m. split; [reflexivity|].
      destruct (metrics_loads_agree ps rtt nsp a b cap psize cf mr gens
                  solution s e m Hev Hm) as (Ha & Hb & Hi).
      rewrite Hua, Hub, Ha, Hb. auto.
  - destruct (metrics_raises _ _ _ _ Hm) as (-> & k & p & Hin & HA & HB).
    split.
    + split; [|reflexivity]. intros _. exists k, p. auto.
    + intros s e Hev. exfalso.
      destruct (evaluate_solution_inv_ok _ _ _ _ Hev)
        as (delays & loads & Hloop & _).
      destruct (evaluate_loop_labels _ _ _ _ _ Hloop k p Hin); congruence.
Qed.

Lemma metrics_key_error_and_loads_witness :
  SimulationRunner._evaluate_solution_metrics mislabelled four_peers_example
    no_rtt = Raise KeyError /\
  exists m,
    SimulationRunner._evaluate_solution_metrics all_on_A four_peers_example
      no_rtt = Ok m /\
    SimulationRunner.edge_a_load_kbps m == 400 /\
    SimulationRunner.edge_a_utilization m == 1 # 25.
Proof.
  split.
  - apply (proj2 (proj1 (metrics_key_error_and_loads mislabelled
                           four_peers_example no_rtt 0 (7 # 10) (3 # 10)
                           10000 3 3 (1 # 10) 2))).
    exists "p2", (mk_peer "p2" 100 25 80).
    split; [right; left; reflexivity|]. split; discriminate.
  - destruct (evaluate_solution (engine four_peers_example no_rtt 0 3 2)
                all_on_A) as [[s e]|x] eqn:Hev; [|vm_compute in Hev; discriminate].
    destruct (proj2 (metrics_key_error_and_loads all_on_A four_peers_example
                       no_rtt 0 (7 # 10) (3 # 10) 10000 3 3 (1 # 10) 2)
                s e Hev) as (m & Hm & Ha & _ & _ & Hu & _).
    exists m. split; [exact Hm|].
    rewrite Ha, Hu. vm_compute in Hev. injection Hev as _ <-.
    split; reflexivity.
Defined.

Lemma hit_rate_bounds p n :
  (0 <= p <= n)%Z -> (0 < n)%Z -> 0 <= inject_Z p / inject_Z n <= 1.
Proof.
  intros [Hp Hpn] Hn.
  assert (Hn' : 0 < inject_Z n).
  { change 0 with (inject_Z 0). rewrite <- Zlt_Qlt. exact Hn. }
  split.
  - apply Qle_shift_div_l; [exact Hn'|]. rewrite Qmult_0_l.
    change 0 with (inject_Z 0). rewrite <- Zle_Qle. exact Hp.
  - apply Qle_shift_div_r; [exact Hn'|]. rewrite Qmult_1_l.
    rewrite <- Zle_Qle. exact Hpn.
Qed.

Lemma peer_dict_length ps :
  (length (Dict.keys (Dict.comprehension id (fun p : Peer => p) ps))
   <= length ps)%nat.
Proof.
  destruct (comprehension_fold id (fun p : Peer => p) ps Dict.empty)
    as (H1 & H2 & _); [constructor|].
  fold (Dict.comprehension id (fun p : Peer => p) ps) in H1, H2.
  rewrite <- (length_map id ps).
  apply NoDup_incl_length; [exact H1|].
  intros x Hx. apply H2 in Hx. simpl in Hx. tauto.
Qed.

(** X21: hit accounting of the metrics routine.  When
    [_evaluate_solution_metrics] returns, every entry of the peer
    dictionary is counted exactly once, as a P2P hit or as a hit of one of
    the two edges; the three counters are non-negative; the P2P hit rate
    lies between 0 and 1 (it divides by the length of the peer list, which
    is at least the size of the dictionary); without super-peers there is
    no P2P hit; and the reported super-peers are those of the solution. *)
Theorem metrics_hit_accounting solution ps rtt m :
  SimulationRunner._evaluate_solution_metrics solution ps rtt = Ok m ->
  (SimulationRunner.p2p_hits m + SimulationRunner.edge_a_hits m
   + SimulationRunner.edge_b_hits m
   = Z.of_nat (length (Dict.keys (Dict.comprehension id (fun p => p) ps))))%Z /\
  (0 <= SimulationRunner.p2p_hits m)%Z /\
  (0 <= SimulationRunner.edge_a_hits m)%Z /\
  (0 <= SimulationRunner.edge_b_hits m)%Z /\
  0 <= SimulationRunner.p2p_hit_rate m <= 1 /\
  (super_peers solution = [] ->
   SimulationRunner.p2p_hits m = 0%Z /\ SimulationRunner.p2p_hit_rate m == 0) /\
  (List.NoDup (map id ps) ->
   (SimulationRunner.p2p_hits m + SimulationRunner.edge_a_hits m
    + SimulationRunner.edge_b_hits m = Z.of_nat (length ps))%Z) /\
  SimulationRunner.m_super_peers m = super_peers solution /\
  SimulationRunner.m_num_super_peers m = length (super_peers solution).
Proof.
  intros Hm.
  destruct (metrics_result _ _ _ _ Hm)
    as (acc & Hloop & _ & _ & _ & Hr & Hp & Ha & Hb & Hs & Hn).
  destruct (metrics_loop_inv _ _ _ _ _ Hloop)
    as (_ & _ & _ & Hh & H1 & H2 & H3 & H4).
  unfold hits_total in Hh. simpl in Hh, H1, H2, H3, H4.
  unfold Dict.items in Hh.
  assert (Hlen : length (Dict.keys (Dict.comprehension id (fun p : Peer => p) ps))
                 = length (Dict.comprehension id (fun p : Peer => p) ps)).
  { unfold Dict.keys. apply length_map. }
  pose proof (peer_dict_length ps) as Hle.
  rewrite Hp, Ha, Hb, Hr, Hlen.
  split; [lia|]. split; [lia|]. split; [lia|]. split; [lia|].
  split; [|split; [|split; [|split]]].
  - destruct ps as [|p0 ps']; [split; apply Qle_bool_imp_le; reflexivity|].
    apply hit_rate_bounds; [|cbn [length]; lia]. lia.
  - intros Hsp. rewrite (H4 Hsp). split; [reflexivity|].
    destruct ps as [|p0 ps']; [reflexivity|].
    unfold Qdiv. change (inject_Z 0) with 0. apply Qmult_0_l.
  - intros Hnd.
    rewrite (comprehension_nodup_keys id _ ps Hnd), length_map in Hh. lia.
  - exact Hs.
  - exact Hn.
Qed.

(** With two super-peers among four peers, two peers are served over P2P
    and two by edge A. *)
Lemma metrics_hit_accounting_witness :
  exists m,
    SimulationRunner._evaluate_solution_metrics two_super_peers
      four_peers_example no_rtt = Ok m /\
    (SimulationRunner.p2p_hits m + SimulationRunner.edge_a_hits m
     + SimulationRunner.edge_b_hits m = 4)%Z /\
    0 <= SimulationRunner.p2p_hit_rate m <= 1.
Proof.
  destruct (SimulationRunner._evaluate_solution_metrics two_super_peers
              four_peers_example no_rtt) as [m|x] eqn:Hm;
    [|vm_compute in Hm; discriminate].
  exists m. split; [reflexivity|].
  destruct (metrics_hit_accounting _ _ _ _ Hm) as (H1 & _ & _ & _ & H2 & _).
  split; [exact H1|exact H2].
Defined.

Lemma get_edge_rtt_consistent ps rtt nsp a b cap psize cf mr gens k p edge :
  edge_table_consistent ps rtt ->
  In (k, p) (Dict.items (peers (init ps rtt nsp a b cap psize cf mr gens))) ->
  get_edge_rtt (init ps rtt nsp a b cap psize cf mr gens) k edge
  = Ok (stored_edge_rtt p edge).
Proof.
  intros Hc Hin.
  destruct (peer_dict_items (fun p : Peer => p) ps k p Hin)
    as (Hp & Hk & Hget & _).
  unfold get_edge_rtt, Dict.index. simpl rtt_matrix. simpl peers.
  destruct (peer_to_edge rtt !! (k, edge)) as [v|] eqn:Hv.
  - rewrite <- Hk in Hv. rewrite (Hc p edge v Hp Hv). reflexivity.
  - rewrite Hget. reflexivity.
Qed.

Lemma evaluate_loop_no_super self solution rtt items :
  super_peers solution = [] ->
  (forall k p edge, In (k, p) items ->
     get_edge_rtt self k edge = Ok (stored_edge_rtt p edge)) ->
  forall D L D' L',
    for_each (evaluate_peer self solution) items (D, L) = Ok (D', L') ->
    D' = (D ++ map (metrics_entry solution rtt) items)%list.
Proof.
  intros Hs. induction items as [|[k p] items IH]; intros Hg D L D' L'.
  - intros [= <- _]. now rewrite app_nil_r.
  - rewrite for_each_cons. unfold evaluate_peer at 1.
    rewrite (Hg k p _ (or_introl eq_refl)). simpl rbind.
    destruct (add_load L _ (demand p)) as [L1|x]; simpl rbind; [|discriminate].
    intros Hloop. apply IH in Hloop.
    + rewrite Hloop, <- app_assoc. simpl app. f_equal. f_equal.
      unfold metrics_entry, metrics_delay, assigned_edge_of.
      rewrite Hs. reflexivity.
    + intros k' p' edge Hin. apply Hg. now right.
Qed.

Lemma metrics_entry_no_super solution rtt item :
  super_peers solution = [] ->
  metrics_entry solution rtt item = edge_entry solution item.
Proof.
  intros Hs. unfold metrics_entry, edge_entry, metrics_delay.
  rewrite Hs. reflexivity.
Qed.

(** X22: without super-peers the two routines record the same.  If the
    edge table agrees with the latencies stored on the peers and the
    solution has no super-peer (as the round-robin and nearest-edge
    baselines), then whenever [evaluate_solution] returns,
    [_evaluate_solution_metrics] returns as well; the per-peer loops of
    the two routines record the same list of (delay, demand) entries, for
    each peer the stored latency of its assigned edge; and the metrics
    carry the evaluator's two edge loads and load imbalance and count no
    P2P hit.  (The two averages divide the same numerator by totals that
    are summed differently, lines 139 against 138 of the runner, and are
    not compared here.) *)
Theorem metrics_record_same_entries_without_super_peers
    solution ps rtt nsp a b cap psize cf mr gens s e :
  edge_table_consistent ps rtt ->
  super_peers solution = [] ->
  evaluate_solution (init ps rtt nsp a b cap psize cf mr gens) solution
    = Ok (s, e) ->
  exists m delays loads acc,
    SimulationRunner._evaluate_solution_metrics solution ps rtt = Ok m /\
    for_each (evaluate_peer (init ps rtt nsp a b cap psize cf mr gens) solution)
      (Dict.items (peers (init ps rtt nsp a b cap psize cf mr gens)))
      ([], (0, 0)) = Ok (delays, loads) /\
    metrics_loop solution ps rtt = Ok acc /\
    delays = map (edge_entry solution)
               (Dict.items (peers (init ps rtt nsp a b cap psize cf mr gens))) /\
    SimulationRunner.acc_delays acc = delays /\
    SimulationRunner.edge_a_load_kbps m = ev_load_a e /\
    SimulationRunner.edge_b_load_kbps m = ev_load_b e /\
    SimulationRunner.m_load_imbalance m = ev_load_imbalance e /\
    SimulationRunner.p2p_hits m = 0%Z.
Proof.
  intros Hc Hs Hev.
  set (self := init ps rtt nsp a b cap psize cf mr gens) in *.
  destruct (evaluate_solution_inv_ok _ _ _ _ Hev)
    as (delays & loads & Hloop & _).
  pose proof (evaluate_loop_labels _ _ _ _ _ Hloop) as Hl.
  destruct (metrics_succeeds solution ps rtt Hl) as [m Hm].
  destruct (metrics_loads_agree ps rtt nsp a b cap psize cf mr gens
              solution s e m Hev Hm) as (Ha & Hb & Hi).
  destruct (metrics_result _ _ _ _ Hm)
    as (acc & Hmloop & _ & _ & _ & _ & Hp & _).
  destruct (metrics_loop_inv _ _ _ _ _ Hmloop)
    as (_ & Hd & _ & _ & _ & _ & _ & H4).
  assert (Hdel : delays
                 = ([] ++ map (metrics_entry solution rtt)
                            (Dict.items (peers self)))%list).
  { apply (evaluate_loop_no_super self solution rtt _ Hs) with (L := (0, 0))
                                                               (L' := loads).
    - intros k p edge Hin.
      now apply get_edge_rtt_consistent.
    - exact Hloop. }
  assert (Hmap : map (metrics_entry solution rtt) (Dict.items (peers self))
                 = map (edge_entry solution) (Dict.items (peers self))).
  { apply map_ext. intros item. now apply metrics_entry_no_super. }
  exists m, delays, loads, acc.
  split; [exact Hm|]. split; [exact Hloop|]. split; [exact Hmloop|].
  split; [rewrite Hdel, Hmap; reflexivity|].
  split; [rewrite Hd, Hdel; reflexivity|].
  split; [exact Ha|]. split; [exact Hb|]. split; [exact Hi|].
  rewrite Hp. exact (H4 Hs).
Qed.

Lemma four_peers_table_consistent :
  edge_table_consistent four_peers_example no_rtt.
Proof. intros p edge v _ H. vm_compute in H. discriminate. Qed.

(** With everybody on edge A the four-peer network records the four
    latencies to A. *)
Lemma metrics_record_same_entries_without_super_peers_witness :
  exists acc,
    metrics_loop all_on_A four_peers_example no_rtt = Ok acc /\
    SimulationRunner.acc_delays acc
    = [(20, 100); (25, 100); (90, 100); (70, 100)].
Proof.
  destruct (evaluate_solution (engine four_peers_example no_rtt 0 3 2)
              all_on_A) as [[s e]|x] eqn:Hev; [|vm_compute in Hev; discriminate].
  destruct (metrics_record_same_entries_without_super_peers all_on_A
              four_peers_example no_rtt 0 (7 # 10) (3 # 10) 10000 3 3
              (1 # 10) 2 s e four_peers_table_consistent eq_refl Hev)
    as (m & delays & loads & acc & _ & _ & Hacc & Hdel & Hd & _).
  exists acc. split; [exact Hacc|].
  rewrite Hd, Hdel. reflexivity.
Defined.

Lemma metrics_delay_mono rtt sps k d1 d2 :
  d1 <= d2 -> metrics_delay rtt sps k d1 <= metrics_delay rtt sps k d2.
Proof.
  intros H. unfold metrics_delay.
  destruct (xadd _ 5) as [x|]; [|exact H].
  destruct (Qltb x d1) eqn:H1, (Qltb x d2) eqn:H2.
  - apply Qle_refl.
  - apply Qltb_lt in H1. apply Qltb_ge in H2. lra.
  - apply Qltb_ge in H1. exact H1.
  - exact H.
Qed.

Lemma nearest_is_min p edge :
  stored_edge_rtt p (nearest_label p) <= stored_edge_rtt p edge.
Proof.
  unfold nearest_label, stored_edge_rtt.
  destruct (Qltb (rtt_to_edge_a p) (rtt_to_edge_b p)) eqn:H; simpl;
    destruct (String.eqb edge "A").
  - apply Qle_refl.
  - apply Qltb_lt in H. lra.
  - apply Qltb_ge in H. exact H.
  - apply Qle_refl.
Qed.

Lemma weighted_sum_map_le {X} (f g : X -> Q * Q) l :
  (forall x, In x l ->
     fst (f x) <= fst (g x) /\ snd (f x) = snd (g x) /\ 0 <= snd (f x)) ->
  weighted_sum (map f l) <= weighted_sum (map g l).
Proof.
  unfold weighted_sum. induction l as [|x l IH]; intros H.
  - apply Qle_refl.
  - simpl map. rewrite !qsum_cons.
    destruct (H x (or_introl eq_refl)) as (H1 & H2 & H3).
    assert (IH' := IH (fun y Hy => H y (or_intror Hy))).
    rewrite <- H2. nra.
Qed.

Lemma nearest_solution_label ps sps k p :
  In (k, p) (Dict.items (Dict.comprehension id (fun p => p) ps)) ->
  assigned_edge_of (nearest_solution ps sps) k = nearest_label p.
Proof.
  intros Hin.
  destruct (peer_dict_items nearest_label ps k p Hin) as (_ & _ & _ & Hg).
  unfold assigned_edge_of, nearest_solution, Dict.get_default.
  simpl edge_assignments.
  change (SimulationRunner.nearest_assign ps)
    with (Dict.comprehension id nearest_label ps).
  now rewrite Hg.
Qed.

Lemma nearest_solution_metrics_succeed ps sps rtt :
  succeeds (SimulationRunner._evaluate_solution_metrics
              (nearest_solution ps sps) ps rtt).
Proof.
  apply metrics_succeeds. intros k p Hin.
  rewrite (nearest_solution_label ps sps k p Hin). unfold nearest_label.
  destruct (Qltb _ _); auto.
Qed.

Lemma nearest_assignment_minimises solution ps rtt m :
  (forall p, In p ps -> 0 <= demand p) ->
  SimulationRunner._evaluate_solution_metrics solution ps rtt = Ok m ->
  exists m',
    SimulationRunner._evaluate_solution_metrics
      (nearest_solution ps (super_peers solution)) ps rtt = Ok m' /\
    SimulationRunner.avg_delay_ms m' <= SimulationRunner.avg_delay_ms m.
Proof.
  intros Hdem Hm.
  assert (Hnl : forall k p,
             In (k, p) (Dict.items (Dict.comprehension id (fun p => p) ps)) ->
             assigned_edge_of (nearest_solution ps (super_peers solution)) k
             = nearest_label p)
    by (intros k p; apply nearest_solution_label).
  destruct (nearest_solution_metrics_succeed ps (super_peers solution) rtt)
    as [m' Hm'].
  exists m'. split; [exact Hm'|].
  destruct (metrics_result _ _ _ _ Hm) as (acc & Hloop & Havg & _).
  destruct (metrics_result _ _ _ _ Hm') as (acc' & Hloop' & Havg' & _).
  destruct (metrics_loop_inv _ _ _ _ _ Hloop) as (Hl & Hd & Ht & _).
  destruct (metrics_loop_inv _ _ _ _ _ Hloop') as (_ & Hd' & Ht' & _).
  simpl in Hd, Hd', Ht, Ht'.
  rewrite Ht, Hd in Havg. rewrite Ht', Hd' in Havg'. rewrite Havg, Havg'.
  set (T := fold_left Qplus _ 0).
  destruct (Qltb 0 T) eqn:Hpos; [|apply Qle_refl].
  apply Qltb_lt in Hpos. apply Qdiv_le_compat; [exact Hpos|].
  apply weighted_sum_map_le. intros [k p] Hin.
  unfold metrics_entry. simpl fst. simpl snd.
  split; [|split; [reflexivity|]].
  - rewrite (Hnl k p Hin). apply metrics_delay_mono, nearest_is_min.
  - apply Hdem. now destruct (peer_dict_items (fun p : Peer => p) ps k p Hin).
Qed.

Lemma Forall2_map_pointwise {X Y} (R : Y -> Y -> Prop) (f g : X -> Y) l :
  (forall x, In x l -> R (f x) (g x)) -> Forall2 R (map f l) (map g l).
Proof.
  induction l as [|x l IH]; intros H; simpl; constructor.
  - apply H. now left.
  - apply IH. intros y Hy. apply H. now right.
Qed.

(** X23: the nearest-edge assignment minimises every recorded delay.
    Whenever [_evaluate_solution_metrics] returns for a solution, its
    per-peer loop also runs to the end for the solution with the same
    super-peers and the nearest-edge assignment (what
    [_nearest_edge_baseline] and [_random_super_peers_baseline] build),
    and, peer by peer, the entry recorded for that one has the same demand
    and a delay that is no larger. *)
Theorem nearest_edge_minimises_each_delay solution ps rtt m :
  SimulationRunner._evaluate_solution_metrics solution ps rtt = Ok m ->
  exists acc acc',
    metrics_loop solution ps rtt = Ok acc /\
    metrics_loop (nearest_solution ps (super_peers solution)) ps rtt
      = Ok acc' /\
    Forall2 no_slower (SimulationRunner.acc_delays acc')
                      (SimulationRunner.acc_delays acc).
Proof.
  intros Hm.
  assert (Hnl : forall k p,
             In (k, p) (Dict.items (Dict.comprehension id (fun p => p) ps)) ->
             assigned_edge_of (nearest_solution ps (super_peers solution)) k
             = nearest_label p)
    by (intros k p; apply nearest_solution_label).
  destruct (metrics_result _ _ _ _ Hm) as (acc & Hloop & _).
  destruct (metrics_loop_succeeds
              (nearest_solution ps (super_peers solution)) rtt
              (Dict.items (Dict.comprehension id (fun p => p) ps))
              {| SimulationRunner.acc_delays := [];
                 SimulationRunner.acc_loads := (0, 0);
                 SimulationRunner.acc_p2p_hits := 0;
                 SimulationRunner.acc_edge_hits := (0%Z, 0%Z);
                 SimulationRunner.acc_total_demand := 0 |}) as [acc' Hloop'].
  { intros k p Hin. rewrite (Hnl k p Hin). unfold nearest_label.
    destruct (Qltb _ _); auto. }
  exists acc, acc'. split; [exact Hloop|]. split; [exact Hloop'|].
  destruct (metrics_loop_inv _ _ _ _ _ Hloop) as (_ & Hd & _).
  destruct (metrics_loop_inv _ _ _ _ _ Hloop') as (_ & Hd' & _).
  simpl in Hd, Hd'. rewrite Hd, Hd'.
  apply Forall2_map_pointwise. intros [k p] Hin.
  unfold no_slower, metrics_entry. simpl fst. simpl snd.
  split; [|reflexivity].
  rewrite (Hnl k p Hin). apply metrics_delay_mono, nearest_is_min.
Qed.

(** On the four-peer network no peer is slower under the nearest-edge
    assignment than under the round-robin one. *)
Lemma nearest_edge_minimises_each_delay_witness :
  exists acc acc',
    metrics_loop
      (SimulationRunner._round_robin_baseline four_peers_example no_rtt)
      four_peers_example no_rtt = Ok acc /\
    metrics_loop
      (SimulationRunner._nearest_edge_baseline four_peers_example no_rtt)
      four_peers_example no_rtt = Ok acc' /\
    Forall2 no_slower (SimulationRunner.acc_delays acc')
                      (SimulationRunner.acc_delays acc).
Proof.
  destruct (SimulationRunner._evaluate_solution_metrics
              (SimulationRunner._round_robin_baseline four_peers_example no_rtt)
              four_peers_example no_rtt) as [m|x] eqn:Hm;
    [|vm_compute in Hm; discriminate].
  exact (nearest_edge_minimises_each_delay _ _ _ _ Hm).
Defined.

(** ** The synthetic network generator *)

Section GeneratorRules.

Variable E : Prop.

(** A loop whose invariant names the items already visited. *)
Lemma post_for_each_M_prefix {S X} (body : S -> X -> M S)
    (Inv : list X -> S -> Prop) l :
  (forall pre x suf s, l = (pre ++ x :: suf)%list -> Inv pre s ->
     post E (body s x) (Inv (pre ++ [x])%list)) ->
  forall s, Inv [] s -> post E (for_each_M body l s) (Inv l).
Proof.
  intros Hbody.
  assert (H : forall rest done s, l = (done ++ rest)%list -> Inv done s ->
                post E (for_each_M body rest s) (Inv l)).
  { induction rest as [|x rest IH]; intros done s Hl Hs; simpl.
    - apply post_ret. rewrite app_nil_r in Hl. now subst l.
    - eapply post_bind; [exact (Hbody done x rest s Hl Hs)|].
      intros s' Hs'. apply (IH (done ++ [x])%list); [|exact Hs'].
      rewrite <- app_assoc. exact Hl. }
  intros s Hs. exact (H l [] s eq_refl Hs).
Qed.

Lemma post_seed stream : post E (seed stream) (fun _ => True).
Proof. intros g. exact I. Qed.

(** The upper end is included: in binary64, [a + (b - a) * random()] can
    round up to [b]. *)
Lemma post_uniform a b :
  a <= b -> post E (uniform a b) (fun x => a <= x /\ x <= b).
Proof.
  intros Hab. unfold uniform.
  eapply post_bind; [apply post_random_range|].
  intros r [H0 H1]. apply post_ret. split; nra.
Qed.

Lemma post_edge_rtts region :
  post E (edge_rtts region)
    (fun ab =>
       if near_edge_a region
       then 15 <= fst ab /\ fst ab <= 50 /\ 80 <= snd ab /\ snd ab <= 150
       else if european region
       then 70 <= fst ab /\ fst ab <= 120 /\ 20 <= snd ab /\ snd ab <= 45
       else 100 <= fst ab /\ fst ab <= 200 /\ 30 <= snd ab /\ snd ab <= 80).
Proof.
  unfold edge_rtts, near_edge_a, european.
  destruct (in_list region ["us-east"; "us-west"; "canada"; "brazil"]).
  - eapply post_bind; [apply (post_uniform 15 50); lra|].
    intros a [Ha1 Ha2].
    eapply post_bind; [apply (post_uniform 80 150); lra|].
    intros b [Hb1 Hb2]. apply post_ret. simpl. auto.
  - destruct (in_list region ["eu-west"; "eu-central"]).
    + eapply post_bind; [apply (post_uniform 70 120); lra|].
      intros a [Ha1 Ha2].
      eapply post_bind; [apply (post_uniform 20 45); lra|].
      intros b [Hb1 Hb2]. apply post_ret. simpl. auto.
    + eapply post_bind; [apply (post_uniform 100 200); lra|].
      intros a [Ha1 Ha2].
      eapply post_bind; [apply (post_uniform 30 80); lra|].
      intros b [Hb1 Hb2]. apply post_ret. simpl. auto.
Qed.

Lemma post_base_rtt p q :
  post E (base_rtt p q) (fun r => 10 <= r /\ r <= 200).
Proof.
  unfold base_rtt.
  destruct (String.eqb (region p) (region q)).
  - eapply post_weaken; [apply (post_uniform 10 30); lra|].
    intros r [H1 H2]. split; lra.
  - destruct (String.eqb _ _).
    + eapply post_weaken; [apply (post_uniform 30 80); lra|].
      intros r [H1 H2]. split; lra.
    + eapply post_weaken; [apply (post_uniform 80 200); lra|].
      intros r [H1 H2]. split; lra.
Qed.

End GeneratorRules.

Lemma peer_name_inj i j : peer_name i = peer_name j -> i = j.
Proof.
  unfold peer_name. intros H.
  apply (inj (String.app "peer-")) in H.
  exact (pretty_Z_inj _ _ H).
Qed.

Lemma nodup_map_inj {A B} (f : A -> B) l :
  (forall a b, f a = f b -> a = b) ->
  List.NoDup l -> List.NoDup (map f l).
Proof.
  intros Hinj. induction 1 as [|x l Hx Hnd IH]; simpl; constructor; auto.
  rewrite in_map_iff. intros (y & Hy & Hin).
  apply Hinj in Hy. subst y. tauto.
Qed.

Lemma py_range_nodup lo hi : List.NoDup (py_range lo hi).
Proof.
  unfold py_range. apply nodup_map_inj.
  - intros a b H. lia.
  - apply seq_NoDup.
Qed.

Lemma py_range_length lo hi : length (py_range lo hi) = Z.to_nat (hi - lo).
Proof. unfold py_range. now rewrite length_map, length_seq. Qed.

Lemma py_max_bounds x :
  10 <= py_max 10 x /\ x <= py_max 10 x /\
  (py_max 10 x = x \/ py_max 10 x = 10).
Proof.
  unfold py_max. destruct (Qltb 10 x) eqn:H.
  - apply Qltb_lt in H. repeat split; auto; lra.
  - apply Qltb_ge in H. repeat split; auto; lra.
Qed.

Lemma py_max_band x lo hi :
  lo <= x -> x <= hi -> 10 <= lo ->
  lo <= py_max 10 x /\ py_max 10 x <= hi.
Proof.
  intros H1 H2 H3. destruct (py_max_bounds x) as (B1 & B2 & B3).
  split; [lra|]. destruct B3 as [B3|B3]; rewrite B3; lra.
Qed.

Lemma combine_seq_in {X} (l : list X) : forall s i x,
  In (i, x) (combine (seq s (length l)) l) <->
  (s <= i)%nat /\ nth_error l (i - s) = Some x.
Proof.
  induction l as [|y l IH]; intros s i x; simpl.
  - split; [tauto|]. intros [_ H]. destruct (i - s)%nat; discriminate.
  - split.
    + intros [[= <- <-]|H].
      * split; [lia|]. now rewrite Nat.sub_diag.
      * apply IH in H as [H1 H2]. split; [lia|].
        replace (i - s)%nat with (Datatypes.S (i - Datatypes.S s)) by lia.
        exact H2.
    + intros [H1 H2]. destruct (Nat.eq_dec i s) as [->|Hne].
      * left. rewrite Nat.sub_diag in H2. simpl in H2. now injection H2 as ->.
      * right. apply IH. split; [lia|].
        replace (i - s)%nat with (Datatypes.S (i - Datatypes.S s)) in H2 by lia.
        exact H2.
Qed.

Lemma enumerate_in {X} (l : list X) i x :
  In (i, x) (enumerate l) <-> nth_error l i = Some x.
Proof.
  unfold enumerate. rewrite combine_seq_in, Nat.sub_0_r.
  split; [tauto|]. split; [lia|assumption].
Qed.

Lemma enumerate_has {X} (l : list X) x :
  In x l -> exists i, In (i, x) (enumerate l).
Proof.
  intros H. apply In_nth_error in H as [i Hi].
  exists i. now apply enumerate_in.
Qed.

Lemma enumerate_snd {X} (l : list X) ix : In ix (enumerate l) -> In (snd ix) l.
Proof.
  destruct ix as [i x]. intros H. apply enumerate_in in H.
  simpl. eapply nth_error_In; eauto.
Qed.

Lemma unique_ids_positions ps i j p q :
  List.NoDup (map id ps) ->
  In (i, p) (enumerate ps) -> In (j, q) (enumerate ps) ->
  id p = id q -> i = j.
Proof.
  intros Hnd Hi Hj Hid. apply enumerate_in in Hi, Hj.
  apply (proj1 (NoDup_nth_error (map id ps)) Hnd).
  - rewrite length_map. apply nth_error_Some. congruence.
  - rewrite (map_nth_error id _ _ Hi), (map_nth_error id _ _ Hj).
    now rewrite Hid.
Qed.

Section GeneratorLoops.

Variable E : Prop.
Variable num_peers : Z.

Lemma post_neighbors i :
  post E (for_each_M (neighbor_step i) (py_range 1 (num_peers + 1)) [])
    (fun l => forall x, In x l ->
       x <> peer_name i /\
       In x (map peer_name (py_range 1 (num_peers + 1)))).
Proof.
  apply post_for_each_M.
  - intros l j Hj Hl. unfold neighbor_step.
    destruct (Z.eqb_spec i j) as [->|Hne]; [now apply post_ret|].
    eapply post_bind; [apply post_random|]. intros r _. apply post_ret.
    destruct (Qltb r (3 # 10)); [|exact Hl].
    intros x Hx. apply in_app_iff in Hx as [Hx|[<-|[]]]; [auto|].
    split; [|now apply in_map].
    intros H. apply peer_name_inj in H. congruence.
  - intros x [].
Qed.

Lemma post_generate_peer pre acc i :
  peers_generated num_peers pre acc -> ~ In i pre ->
  post E (generate_peer num_peers acc i)
    (peers_generated num_peers (pre ++ [i])%list).
Proof.
  destruct acc as [ps rtt]. intros (Hids & Hok & Hp2p & Het1 & Het2) Hi.
  simpl in Hids, Hok, Hp2p, Het1, Het2.
  assert (Hfresh : ~ In (peer_name i) (map id ps)).
  { rewrite Hids, in_map_iff. intros (j & Hj & Hin).
    apply peer_name_inj in Hj. subst j. tauto. }
  unfold generate_peer.
  eapply post_bind; [apply post_choice|]. intros region Hregion.
  eapply post_bind; [apply post_edge_rtts|]. intros ab Hab.
  eapply post_bind; [apply (post_uniform E (-5) 5); lra|].
  intros na [Hna1 Hna2].
  eapply post_bind; [apply (post_uniform E (-5) 5); lra|].
  intros nb [Hnb1 Hnb2].
  eapply post_bind; [apply (post_uniform E 50 500); lra|].
  intros d [Hd1 Hd2].
  eapply post_bind; [apply post_neighbors|]. intros nbs Hnbs.
  apply post_ret. unfold peers_generated. simpl fst. simpl snd.
  split; [rewrite !map_app, Hids; reflexivity|].
  split.
  { intros p Hp. apply in_app_iff in Hp as [Hp|[<-|[]]]; [auto|].
    unfold generated_peer_ok. simpl.
    split; [exact Hregion|]. split; [exact Hd1|]. split; [exact Hd2|].
    split; [|exact Hnbs].
    destruct (near_edge_a region).
    - destruct Hab as (A1 & A2 & B1 & B2).
      assert (Ha : 10 <= py_max 10 (fst ab + na) /\ py_max 10 (fst ab + na) <= 55)
        by (apply py_max_band; lra).
      assert (Hb : 75 <= py_max 10 (snd ab + nb) /\ py_max 10 (snd ab + nb) <= 155)
        by (apply py_max_band; lra).
      tauto.
    - destruct (european region); destruct Hab as (A1 & A2 & B1 & B2).
      + assert (Ha : 65 <= py_max 10 (fst ab + na) /\
                     py_max 10 (fst ab + na) <= 125)
          by (apply py_max_band; lra).
        assert (Hb : 15 <= py_max 10 (snd ab + nb) /\
                     py_max 10 (snd ab + nb) <= 50)
          by (apply py_max_band; lra).
        tauto.
      + assert (Ha : 95 <= py_max 10 (fst ab + na) /\
                     py_max 10 (fst ab + na) <= 205)
          by (apply py_max_band; lra).
        assert (Hb : 25 <= py_max 10 (snd ab + nb) /\
                     py_max 10 (snd ab + nb) <= 85)
          by (apply py_max_band; lra).
        tauto. }
  split; [exact Hp2p|].
  split.
  - intros p Hp. apply in_app_iff in Hp as [Hp|[<-|[]]].
    + assert (Hne : id p <> peer_name i).
      { intros H. apply Hfresh. rewrite <- H. now apply in_map. }
      cbn [peer_to_edge].
      rewrite !lookup_insert_ne by congruence.
      now apply Het1.
    + cbn [peer_to_edge id rtt_to_edge_a rtt_to_edge_b]. split.
      * rewrite lookup_insert_ne by (intros [= H]; discriminate).
        apply lookup_insert_eq.
      * apply lookup_insert_eq.
  - intros k e v Hv. cbn [peer_to_edge] in Hv.
    rewrite map_app, in_app_iff. simpl.
    apply lookup_insert_Some in Hv as [[[= <- <-] _]|[_ Hv]]; [auto|].
    apply lookup_insert_Some in Hv as [[[= <- <-] _]|[_ Hv]]; [auto|].
    destruct (Het2 k e v Hv). auto.
Qed.

Lemma post_generate_peers :
  post E (for_each_M (generate_peer num_peers) (py_range 1 (num_peers + 1))
            ([], {| peer_to_peer := ∅; peer_to_edge := ∅ |}))
    (peers_generated num_peers (py_range 1 (num_peers + 1))).
Proof.
  apply post_for_each_M_prefix.
  - intros pre x suf s Hl Hs. apply post_generate_peer; [exact Hs|].
    pose proof (py_range_nodup 1 (num_peers + 1)) as Hnd.
    rewrite Hl in Hnd. apply NoDup_remove_2 in Hnd.
    intros Hin. apply Hnd. apply in_or_app. now left.
  - unfold peers_generated, edge_table_of.
    cbn [fst snd peer_to_edge peer_to_peer map].
    split; [reflexivity|].
    split; [intros p []|]. split; [reflexivity|].
    split; [intros p []|].
    intros k e v H. rewrite lookup_empty in H. discriminate.
Qed.

Variable ps : list Peer.
Hypothesis Hnd : List.NoDup (map id ps).

Lemma post_pair_row ip rows t :
  In ip (enumerate ps) ->
  pair_table_sound ps t ->
  pair_table_covers rows (enumerate ps) t ->
  post E (for_each_M (pair_step ip) (enumerate ps) t)
    (fun t' => pair_table_sound ps t' /\
               pair_table_covers (rows ++ [ip])%list (enumerate ps) t').
Proof.
  intros Hip Hs Hc.
  eapply post_weaken.
  - apply post_for_each_M_prefix with
      (Inv := fun pre t' =>
                pair_table_sound ps t' /\
                pair_table_covers rows (enumerate ps) t' /\
                pair_table_covers [ip] pre t').
    + intros pre jp suf t' Hl (Hs' & Hc' & Hrow).
      assert (Hjp : In jp (enumerate ps)).
      { rewrite Hl. apply in_or_app. right. now left. }
      unfold pair_step.
      destruct (Nat.eqb_spec (fst ip) (fst jp)) as [Heq|Hne].
      * apply post_ret. split; [exact Hs'|]. split; [exact Hc'|].
        intros ip' jp' [<-|[]] Hin Hdiff.
        apply in_app_iff in Hin as [Hin|[<-|[]]]; [|congruence].
        apply Hrow; [now left|exact Hin|exact Hdiff].
      * eapply post_bind; [apply post_base_rtt|]. intros r [Hr1 Hr2].
        apply post_ret.
        assert (Hmono : forall k, is_Some (t' !! k) ->
                  is_Some (<[(id (snd ip), id (snd jp)) := r]> t' !! k)).
        { intros k Hk.
          destruct (decide ((id (snd ip), id (snd jp)) = k)) as [<-|Hk'].
          - rewrite lookup_insert_eq. eauto.
          - rewrite lookup_insert_ne by exact Hk'. exact Hk. }
        split; [|split].
        -- intros k v Hv.
           apply lookup_insert_Some in Hv as [[<- <-]|[_ Hv]]; [|now apply Hs'].
           simpl. split; [exact Hr1|]. split; [exact Hr2|].
           split; [|split; apply in_map; now apply enumerate_snd].
           intros Hid. apply Hne.
           destruct ip as [i p], jp as [j q].
           exact (unique_ids_positions ps i j p q Hnd Hip Hjp Hid).
        -- intros ip' jp' H1 H2 H3. apply Hmono. now apply Hc'.
        -- intros ip' jp' [<-|[]] Hin Hdiff.
           apply in_app_iff in Hin as [Hin|[<-|[]]].
           ++ apply Hmono. apply Hrow; [now left|exact Hin|exact Hdiff].
           ++ rewrite lookup_insert_eq. eauto.
    + split; [exact Hs|]. split; [exact Hc|]. intros ip' jp' _ [].
  - intros t' (Hs' & Hc' & Hrow). split; [exact Hs'|].
    intros ip' jp' Hin Hjp Hdiff.
    apply in_app_iff in Hin as [Hin|Hin]; [now apply Hc'|now apply Hrow].
Qed.

Lemma post_pair_table :
  post E (for_each_M (fun p2p ip =>
                        for_each_M (pair_step ip) (enumerate ps) p2p)
            (enumerate ps) ∅)
    (fun t => pair_table_sound ps t /\
              forall p q, In p ps -> In q ps -> id p <> id q ->
                is_Some (t !! (id p, id q))).
Proof.
  eapply post_weaken.
  - apply post_for_each_M_prefix with
      (Inv := fun pre t => pair_table_sound ps t /\
                           pair_table_covers pre (enumerate ps) t).
    + intros pre ip suf t Hl [Hs Hc]. apply post_pair_row; auto.
      rewrite Hl. apply in_or_app. right. now left.
    + split.
      * intros k v H. rewrite lookup_empty in H. discriminate.
      * intros ip jp [].
  - intros t [Hs Hc]. split; [exact Hs|].
    intros p q Hp Hq Hid.
    destruct (enumerate_has ps p Hp) as [i Hi].
    destruct (enumerate_has ps q Hq) as [j Hj].
    apply (Hc (i, p) (j, q) Hi Hj). simpl. intros ->.
    apply enumerate_in in Hi, Hj. congruence.
Qed.

End GeneratorLoops.

Lemma post_generate_synthetic_network E num_peers stream :
  post E (generate_synthetic_network num_peers stream)
    (fun r =>
       map id (fst r) = map peer_name (py_range 1 (num_peers + 1)) /\
       (forall p, In p (fst r) -> generated_peer_ok num_peers p) /\
       edge_table_of (fst r) (snd r) /\
       pair_table_of (fst r) (snd r)).
Proof.
  unfold generate_synthetic_network.
  eapply post_bind; [apply post_seed|]. intros _ _.
  eapply post_bind; [apply post_generate_peers|].
  intros [ps rtt] (Hids & Hok & Hp2p & Het).
  cbn [fst snd] in Hids, Hok, Hp2p, Het.
  assert (Hnd : List.NoDup (map id ps)).
  { rewrite Hids. apply nodup_map_inj; [exact peer_name_inj|].
    apply py_range_nodup. }
  rewrite Hp2p.
  eapply post_bind; [apply (post_pair_table E ps Hnd)|].
  intros t [Hs Hc]. apply post_ret. cbn [fst snd].
  split; [exact Hids|]. split; [exact Hok|]. split; [exact Het|].
  split; assumption.
Qed.

Lemma generated_ids_nodup num_peers (ps : list Peer) :
  map id ps = map peer_name (py_range 1 (num_peers + 1)) ->
  List.NoDup (map id ps) /\ length ps = Z.to_nat num_peers.
Proof.
  intros Hids. split.
  - rewrite Hids. apply nodup_map_inj; [exact peer_name_inj|].
    apply py_range_nodup.
  - rewrite <- (length_map id ps), Hids, length_map, py_range_length.
    f_equal. lia.
Qed.

Lemma edge_table_of_consistent ps rtt :
  edge_table_of ps rtt -> edge_table_consistent ps rtt.
Proof.
  intros [H1 H2] p edge v Hp Hv.
  destruct (H2 _ _ _ Hv) as [_ [-> | ->]];
    destruct (H1 p Hp) as [HA HB]; unfold stored_edge_rtt; simpl; congruence.
Qed.


(** X25: the tables of the synthetic network and the distance oracle.
    The edge table holds exactly the two latencies stored on every peer,
    so [get_edge_rtt] of an engine built on the network returns the
    stored latency.  The pairwise table has an entry in [[10, 200]] for
    both orderings of every pair of different peers and none for a peer
    with itself; the two orderings are drawn independently, and
    [get_peer_rtt] returns the entry of the ordering it is asked for,
    never the swapped one or the default 100. *)
Theorem generated_tables_and_oracle
    num_peers stream g ps rtt g' nsp a b cap psize cf mr gens :
  generate_synthetic_network num_peers stream g = Ok (ps, rtt, g') ->
  let self := init ps rtt nsp a b cap psize cf mr gens in
  edge_table_of ps rtt /\ pair_table_of ps rtt /\
  (forall p edge, In p ps -> edge = "A" \/ edge = "B" ->
     get_edge_rtt self (id p) edge = Ok (stored_edge_rtt p edge)) /\
  (forall p q, In p ps -> In q ps -> id p <> id q ->
     peer_to_peer rtt !! (id p, id q) = Some (get_peer_rtt self (id p) (id q)) /\
     10 <= get_peer_rtt self (id p) (id q) /\
     get_peer_rtt self (id p) (id q) <= 200) /\
  (forall p, peer_to_peer rtt !! (id p, id p) = None).
Proof.
  intros Hgen self.
  destruct (post_partial _ _ _ _ _
              (post_generate_synthetic_network True num_peers stream) Hgen)
    as (Hids & Hok & Het & Hs & Hc).
  cbn [fst snd] in Hids, Hok, Het, Hs, Hc.
  split; [exact Het|]. split; [split; assumption|].
  split; [|split].
  - intros p edge Hp He. unfold get_edge_rtt, self. cbn [rtt_matrix].
    destruct Het as [H1 _]. destruct (H1 p Hp) as [HA HB].
    unfold stored_edge_rtt. destruct He as [-> | ->]; simpl.
    + now rewrite HA.
    + now rewrite HB.
  - intros p q Hp Hq Hid.
    destruct (Hc p q Hp Hq Hid) as [v Hv].
    assert (Hget : get_peer_rtt self (id p) (id q) = v).
    { unfold get_peer_rtt, self. cbv zeta. simpl rtt_matrix.
      destruct (String.eqb_spec (id p) (id q)) as [Heq|_]; [tauto|].
      now rewrite Hv. }
    rewrite Hget. split; [exact Hv|].
    destruct (Hs _ _ Hv) as (H1 & H2 & _). auto.
  - intros p. destruct (peer_to_peer rtt !! (id p, id p)) as [v|] eqn:Hv;
      [|reflexivity].
    destruct (Hs _ _ Hv) as (_ & _ & Hne & _). simpl in Hne. congruence.
Qed.

Lemma generated_tables_and_oracle_witness :
  exists ps rtt g',
    generate_synthetic_network 2 (tape tape0) tape0 = Ok (ps, rtt, g') /\
    edge_table_of ps rtt /\ pair_table_of ps rtt.
Proof.
  destruct (generate_synthetic_network 2 (tape tape0) tape0)
    as [[[ps rtt] g']|x] eqn:Hgen.
  - exists ps, rtt, g'. split; [reflexivity|].
    destruct (generated_tables_and_oracle 2 (tape tape0) tape0 ps rtt g'
                1 (7 # 10) (3 # 10) 10000 3 3 (1 # 10) 2 Hgen)
      as (H1 & H2 & _).
    split; assumption.
  - vm_compute in Hgen. discriminate.
Defined.

(** X26: the regional bias of the synthetic network decides the
    nearest-edge baseline.  A generated peer is closer to edge A, by 20 ms
    or more, exactly when its region is us-east, us-west, canada or
    brazil; in every other region it is closer to edge B by 10 ms or more.
    There is never a tie, and the nearest-edge baseline assigns A in the
    first case and B in the second. *)
Theorem generated_network_regional_bias num_peers stream g ps rtt g' p :
  generate_synthetic_network num_peers stream g = Ok (ps, rtt, g') ->
  In p ps ->
  (if near_edge_a (region p)
   then rtt_to_edge_a p + 20 <= rtt_to_edge_b p
   else rtt_to_edge_b p + 10 <= rtt_to_edge_a p) /\
  Dict.get (edge_assignments
              (SimulationRunner._nearest_edge_baseline ps rtt)) (id p)
  = Some (if near_edge_a (region p) then "A" else "B").
Proof.
  intros Hgen Hp.
  destruct (post_partial _ _ _ _ _
              (post_generate_synthetic_network True num_peers stream) Hgen)
    as (Hids & Hok & _).
  cbn [fst snd] in Hids, Hok.
  destruct (generated_ids_nodup _ _ Hids) as [Hnd _].
  destruct (Hok p Hp) as (_ & _ & _ & Hband & _).
  assert (Hgap : if near_edge_a (region p)
                 then rtt_to_edge_a p + 20 <= rtt_to_edge_b p
                 else rtt_to_edge_b p + 10 <= rtt_to_edge_a p).
  { destruct (near_edge_a (region p)); [lra|].
    destruct (european (region p)); lra. }
  split; [exact Hgap|].
  simpl edge_assignments. rewrite (nearest_assign_keyed ps Hnd).
  rewrite (keyed_map_get id nearest_label ps p Hnd Hp).
  f_equal. unfold nearest_label.
  destruct (near_edge_a (region p)).
  - assert (H : Qltb (rtt_to_edge_a p) (rtt_to_edge_b p) = true)
      by (apply Qltb_lt; lra).
    now rewrite H.
  - assert (H : Qltb (rtt_to_edge_a p) (rtt_to_edge_b p) = false)
      by (apply Qltb_ge; lra).
    now rewrite H.
Qed.

Lemma generated_network_regional_bias_witness :
  exists ps rtt g',
    generate_synthetic_network 3 (tape tape0) tape0 = Ok (ps, rtt, g') /\
    forall p, In p ps ->
      Dict.get (edge_assignments
                  (SimulationRunner._nearest_edge_baseline ps rtt)) (id p)
      = Some (if near_edge_a (region p) then "A" else "B").
Proof.
  destruct (generate_synthetic_network 3 (tape tape0) tape0)
    as [[[ps rtt] g']|x] eqn:Hgen.
  - exists ps, rtt, g'. split; [reflexivity|]. intros p Hp.
    exact (proj2 (generated_network_regional_bias 3 (tape tape0) tape0
                    ps rtt g' p Hgen Hp)).
  - vm_compute in Hgen. discriminate.
Defined.

(** ** The baseline comparison scenario *)

Lemma post_and {A} (E E' : Prop) (m : M A) (P Q : A -> Prop) :
  post E m P -> post E' m Q -> post E m (fun a => P a /\ Q a).
Proof.
  intros HP HQ g. specialize (HP g). specialize (HQ g).
  destruct (m g) as [[a g']|x]; auto.
Qed.

Lemma post_lift_succeeds {A} (r : result A) :
  succeeds r -> post False (lift r) (fun a => r = Ok a).
Proof. intros [a ->]. apply post_lift. reflexivity. Qed.

(** A computation raises [x] if its first part returns and what follows
    raises [x]. *)
Lemma bind_raises {A B} (m : M A) (k : A -> M B) (P : A -> Prop) x :
  post False m P -> (forall a, P a -> forall g, k a g = Raise x) ->
  forall g, bind m k g = Raise x.
Proof.
  intros Hm Hk g. unfold bind. specialize (Hm g).
  destruct (m g) as [[a g']|e]; [auto|tauto].
Qed.

Lemma sample_too_large population k g :
  (Z.of_nat (length population) < k)%Z ->
  sample population k g = Raise ValueError.
Proof.
  intros Hk. unfold sample.
  destruct (k <=? Z.of_nat (length population))%Z eqn:E1;
    [apply Z.leb_le in E1; lia|].
  now rewrite andb_false_r.
Qed.

Lemma optimize_supported self :
  valid_instance self -> nonneg_inputs self ->
  0 <= alpha self -> 0 <= beta self ->
  (0 <= num_super_peers self)%Z ->
  (1 <= pop_size self)%Z -> (1 <= max_generations self)%Z ->
  post False (optimize self) (fun r => solution_inv self (fst r)).
Proof.
  intros Hvalid Hnn Ha Hb Hcount Hpop Hgens.
  assert (Heval : forall solution,
            labels_ok (edge_assignments solution) ->
            match evaluate_solution self solution with
            | Ok (s, _) => (fun f => 0 < f) (fitness s)
            | Raise _ => False
            end).
  { intros solution Hl.
    destruct (evaluate_solution_succeeds self solution Hl Hnn Ha Hb)
      as (delays & loads & _ & Hev & _ & Hpos).
    rewrite Hev. exact Hpos. }
  assert (Hfit : forall f, (fun f => 0 < f) f -> False \/ - (1) < f)
    by (intros f Hf; right; simpl in Hf; lra).
  exact (post_optimize False _ self Hvalid
           (fun H => ltac:(lia)) Heval Hfit
           (fun H => ltac:(lia)) (fun H => ltac:(lia))).
Qed.

Lemma labels_ok_metrics_succeed solution ps rtt :
  labels_ok (edge_assignments solution) ->
  succeeds (SimulationRunner._evaluate_solution_metrics solution ps rtt).
Proof.
  intros Hl. apply metrics_succeeds. intros k p _.
  now apply dict_get_default_label.
Qed.

Lemma round_robin_metrics_succeed ps rtt :
  List.NoDup (map id ps) ->
  succeeds (SimulationRunner._evaluate_solution_metrics
              (SimulationRunner._round_robin_baseline ps rtt) ps rtt).
Proof.
  intros Hnd. apply labels_ok_metrics_succeed.
  destruct (round_robin_assign_spec ps 0 Dict.empty Hnd) as (_ & _ & _ & Hl).
  apply Hl. intros v [].
Qed.

Lemma metrics_without_super_peers solution ps rtt m :
  super_peers solution = [] ->
  SimulationRunner._evaluate_solution_metrics solution ps rtt = Ok m ->
  SimulationRunner.p2p_hits m = 0%Z.
Proof.
  intros Hs Hm.
  destruct (metrics_result _ _ _ _ Hm)
    as (acc & Hloop & _ & _ & _ & _ & Hp & _).
  destruct (metrics_loop_inv _ _ _ _ _ Hloop)
    as (_ & _ & _ & _ & _ & _ & _ & H4).
  rewrite Hp. exact (H4 Hs).
Qed.

Lemma post_random_super_peers_baseline ps rtt n :
  List.NoDup (map id ps) ->
  (0 <= n <= Z.of_nat (length ps))%Z ->
  post False (SimulationRunner._random_super_peers_baseline ps rtt n)
    (fun s => s = nearest_solution ps (super_peers s) /\
              length (super_peers s) = Z.to_nat n).
Proof.
  intros Hnd Hn. unfold SimulationRunner._random_super_peers_baseline.
  eapply post_bind.
  - apply post_sample; [exact Hnd|lia|rewrite length_map; lia].
  - intros sps (_ & H1 & _). apply post_ret. simpl. auto.
Qed.

Lemma generated_nonneg num_peers ps rtt nsp a b cap psize cf mr gens :
  (forall p, In p ps -> generated_peer_ok num_peers p) ->
  edge_table_of ps rtt -> pair_table_of ps rtt ->
  nonneg_inputs (init ps rtt nsp a b cap psize cf mr gens).
Proof.
  intros Hok [He1 He2] [Hs _]. split; [|split].
  - intros k p Hin.
    destruct (peer_dict_items (fun p : Peer => p) ps k p Hin) as (Hp & _).
    destruct (Hok p Hp) as (_ & Hd & _ & Hband & _).
    destruct (near_edge_a (region p)); [lra|].
    destruct (european (region p)); lra.
  - intros k v Hv. simpl in Hv. destruct (Hs k v Hv) as (H & _). lra.
  - intros [k e] v Hv. simpl in Hv.
    destruct (He2 k e v Hv) as [Hk He].
    apply in_map_iff in Hk as (p & <- & Hp).
    destruct (He1 p Hp) as [HA HB].
    destruct (Hok p Hp) as (_ & _ & _ & Hband & _).
    assert (Hv' : v = rtt_to_edge_a p \/ v = rtt_to_edge_b p)
      by (destruct He as [-> | ->]; [left|right]; congruence).
    destruct (near_edge_a (region p)); [destruct Hv' as [-> | ->]; lra|].
    destruct (european (region p)); destruct Hv' as [-> | ->]; lra.
Qed.

Section Scenario.

Variable stream42 : nat -> N.
Variable num_peers : Z.

Lemma post_run_baseline_comparison :
  (15 <= num_peers)%Z ->
  post False (run_baseline_comparison stream42 num_peers)
    (comparison_ok num_peers).
Proof.
  intros Hn. unfold run_baseline_comparison.
  eapply post_bind; [apply post_generate_synthetic_network|].
  intros [ps rtt] (Hids & Hok & Het & Hpt). cbn [fst snd] in Hids, Hok, Het, Hpt.
  destruct (generated_ids_nodup _ _ Hids) as [Hnd Hlen].
  cbv beta iota zeta.
  eapply post_bind;
    [apply post_lift_succeeds, round_robin_metrics_succeed; exact Hnd|].
  intros rr Hrr.
  eapply post_bind;
    [apply post_lift_succeeds, (nearest_solution_metrics_succeed ps [] rtt)|].
  intros ne Hne.
  eapply post_bind.
  { apply post_random_super_peers_baseline; [exact Hnd|lia]. }
  intros s [Hs Hslen].
  eapply post_bind.
  { apply post_lift_succeeds. rewrite Hs.
    apply nearest_solution_metrics_succeed. }
  intros rs Hrs.
  set (algorithm := init ps rtt 15 (7 # 10) (3 # 10) 10000 30 3 (1 # 10) 100).
  eapply post_bind.
  { apply (post_and False True).
    - apply (optimize_supported algorithm).
      + apply init_valid. exact Hnd.
      + exact (generated_nonneg num_peers ps rtt _ _ _ _ _ _ _ _ Hok Het Hpt).
      + simpl. lra.
      + simpl. lra.
      + simpl. lia.
      + simpl. lia.
      + simpl. lia.
    - apply (history_optimize algorithm). }
  intros [best history] [[Hwf Hcap] [_ Hhist]].
  cbn [fst snd] in Hwf, Hcap, Hhist.
  eapply post_bind.
  { apply post_lift_succeeds, labels_ok_metrics_succeed.
    exact (wf_labels _ _ Hwf). }
  intros opt Hopt. apply post_ret.
  unfold comparison_ok.
  cbn [bc_num_peers round_robin nearest_edge random_super_peers optimized
       convergence_history].
  split; [reflexivity|]. split.
  { cbv beta in Hrr, Hne.
    assert (Hdem : forall p, In p ps -> 0 <= demand p).
    { intros p Hp. destruct (Hok p Hp) as (_ & Hd & _). lra. }
    destruct (nearest_assignment_minimises
                (SimulationRunner._round_robin_baseline ps rtt) ps rtt rr
                Hdem Hrr) as (m' & Hm' & Hle).
    change (nearest_solution ps
                (super_peers (SimulationRunner._round_robin_baseline ps rtt)))
      with (SimulationRunner._nearest_edge_baseline ps rtt) in Hm'.
    assert (m' = ne) by congruence. subst m'. exact Hle. }
  cbv beta in Hrr, Hne, Hrs, Hopt.
  split.
  { exact (metrics_without_super_peers
             (SimulationRunner._round_robin_baseline ps rtt) ps rtt rr
             eq_refl Hrr). }
  split.
  { exact (metrics_without_super_peers
             (SimulationRunner._nearest_edge_baseline ps rtt) ps rtt ne
             eq_refl Hne). }
  destruct (metrics_result _ _ _ _ Hrs)
    as (? & _ & _ & _ & _ & _ & _ & _ & _ & _ & Hnrs).
  destruct (metrics_result _ _ _ _ Hopt)
    as (? & _ & _ & _ & _ & _ & _ & _ & _ & _ & Hnopt).
  split; [rewrite Hnrs, Hslen; reflexivity|].
  split; [|rewrite Hhist; reflexivity].
  rewrite Hnopt. unfold super_peers_capped in Hcap. simpl in Hcap. lia.
Qed.

Lemma run_baseline_comparison_raises :
  (num_peers < 15)%Z ->
  forall g, run_baseline_comparison stream42 num_peers g = Raise ValueError.
Proof.
  intros Hn. unfold run_baseline_comparison.
  eapply bind_raises; [apply post_generate_synthetic_network|].
  intros [ps rtt] (Hids & Hok & Het & Hpt). cbn [fst snd] in Hids, Hok, Het, Hpt.
  destruct (generated_ids_nodup _ _ Hids) as [Hnd Hlen].
  cbv beta iota zeta.
  eapply bind_raises;
    [apply post_lift_succeeds, round_robin_metrics_succeed; exact Hnd|].
  intros rr Hrr.
  eapply bind_raises;
    [apply post_lift_succeeds, (nearest_solution_metrics_succeed ps [] rtt)|].
  intros ne Hne g. unfold bind at 1.
  unfold SimulationRunner._random_super_peers_baseline, bind at 1.
  rewrite sample_too_large; [reflexivity|].
  rewrite length_map, Hlen. lia.
Qed.

End Scenario.

(** ** The report *)

Lemma convergence_section_raises history :
  history <> [] ->
  (forall e, In e history -> best_avg_delay e = 0) ->
  ReportGenerator.convergence_section history = Raise ZeroDivisionError.
Proof.
  intros Hne Hz. unfold ReportGenerator.convergence_section.
  destruct history as [|e0 r]; [congruence|].
  unfold ReportGenerator.first_entry, ReportGenerator.last_entry.
  destruct (rev (e0 :: r)) as [|l r'] eqn:Hrev.
  { apply (f_equal (@length _)) in Hrev. rewrite length_rev in Hrev.
    discriminate. }
  assert (Hl : In l (e0 :: r)).
  { apply in_rev. rewrite Hrev. now left. }
  simpl rbind. rewrite (Hz e0 (or_introl eq_refl)), (Hz l Hl).
  unfold py_div. destruct (Qeq_bool (best_fitness e0) 0); reflexivity.
Qed.

Lemma optimize_runs_a_generation self g r :
  optimize self g = Ok r -> (1 <= max_generations self)%Z.
Proof.
  intros H. destruct (Z_lt_le_dec (max_generations self) 1) as [Hlt|]; [|lia].
  exfalso.
  assert (Hn : Z.to_nat (max_generations self) = 0%nat) by lia.
  unfold optimize, bind in H. rewrite Hn in H.
  destruct (initial_population self g) as [[population g1]|x];
    simpl in H; discriminate.
Qed.

Lemma optimize_history_convergence self g best history g' :
  optimize self g = Ok (best, history, g') ->
  ReportGenerator.convergence_section history = Raise ZeroDivisionError.
Proof.
  intros Hopt.
  pose proof (optimize_runs_a_generation _ _ _ Hopt) as Hgens.
  destruct (post_partial _ _ _ _ _ (history_optimize self) Hopt)
    as [_ Hlen].
  destruct (post_partial _ _ _ _ _ (bookkeeping_optimize self) Hopt)
    as [_ Hall].
  cbn [fst snd] in Hlen, Hall.
  apply convergence_section_raises.
  - intros ->. simpl in Hlen. lia.
  - intros e He. apply list_elem_of_In, list_elem_of_lookup_1 in He as [i Hi].
    destruct (Hall i e Hi) as (H & _). exact H.
Qed.

Lemma post_run_history stream42 num_peers :
  post True (run_baseline_comparison stream42 num_peers)
    (fun c => ReportGenerator.convergence_section (convergence_history c)
              = Raise ZeroDivisionError).
Proof.
  unfold run_baseline_comparison.
  eapply post_bind; [apply post_any|]. intros [ps rtt] _.
  cbv beta iota zeta.
  eapply post_bind; [apply post_any|]. intros rr _.
  eapply post_bind; [apply post_any|]. intros ne _.
  eapply post_bind; [apply post_any|]. intros s _.
  eapply post_bind; [apply post_any|]. intros rs _.
  apply post_bind with
    (P := fun r => ReportGenerator.convergence_section (snd r)
                   = Raise ZeroDivisionError).
  { intros g.
    destruct (optimize (init ps rtt 15 (7 # 10) (3 # 10) 10000 30 3
                          (1 # 10) 100) g)
      as [[[best history] g']|x] eqn:Hopt; [|exact I].
    exact (optimize_history_convergence _ _ _ _ _ Hopt). }
  intros [best history] Hconv. cbn [snd] in Hconv.
  eapply post_bind; [apply post_any|]. intros opt _.
  apply post_ret. exact Hconv.
Qed.

(** X27: the baseline comparison needs fifteen peers.
    [run_baseline_comparison] asks the random baseline for fifteen
    super-peers without capping, so with fewer than fifteen peers it
    raises [ValueError] (after the first two baselines have been scored).
    With fifteen peers or more it returns on every stream: the
    nearest-edge baseline is reported no slower than round-robin, neither
    has a P2P hit, the random baseline has exactly fifteen super-peers and
    the optimised solution at most fifteen, and the convergence history
    has one record for each of the hundred generations; the convergence
    section of the report cannot be computed from that history. *)
Theorem baseline_comparison_needs_fifteen_peers stream42 num_peers g :
  ((num_peers < 15)%Z ->
   run_baseline_comparison stream42 num_peers g = Raise ValueError) /\
  ((15 <= num_peers)%Z ->
   exists c g',
     run_baseline_comparison stream42 num_peers g = Ok (c, g') /\
     comparison_ok num_peers c /\
     ReportGenerator.convergence_section (convergence_history c)
     = Raise ZeroDivisionError).
Proof.
  split.
  - intros Hn. now apply run_baseline_comparison_raises.
  - intros Hn.
    destruct (post_total _ _ g
                (post_run_baseline_comparison stream42 num_peers Hn))
      as (c & g' & Hrun & Hok).
    exists c, g'. split; [exact Hrun|]. split; [exact Hok|].
    exact (post_partial _ _ _ _ _ (post_run_history stream42 num_peers) Hrun).
Qed.

(** Four peers are too few; fifteen are enough. *)
Lemma baseline_comparison_needs_fifteen_peers_witness :
  run_baseline_comparison (tape tape0) 4 tape0 = Raise ValueError /\
  exists c g',
    run_baseline_comparison (tape tape0) 15 tape0 = Ok (c, g') /\
    comparison_ok 15 c.
Proof.
  split.
  - apply (proj1 (baseline_comparison_needs_fifteen_peers
                    (tape tape0) 4 tape0)). lia.
  - destruct (proj2 (baseline_comparison_needs_fifteen_peers
                       (tape tape0) 15 tape0)) as (c & g' & Hrun & Hok & _).
    + lia.
    + exists c, g'. split; [exact Hrun|exact Hok].
Defined.

(** X28: the convergence section of the report divides by zero.  The
    records of a history hold 0 for [best_avg_delay], so for every history
    [optimize] returns, the "Delay Reduction" line of the report (or
    already the "Improvement" line, when the first best fitness is 0)
    raises [ZeroDivisionError]. *)
Theorem report_convergence_divides_by_zero self g best history g' :
  optimize self g = Ok (best, history, g') ->
  ReportGenerator.convergence_section history = Raise ZeroDivisionError.
Proof. exact (optimize_history_convergence self g best history g'). Qed.

Lemma report_convergence_divides_by_zero_witness :
  let self := engine four_peers_example no_rtt 2 4 3 in
  exists best history g',
    optimize self tape0 = Ok (best, history, g') /\
    ReportGenerator.convergence_section history = Raise ZeroDivisionError.
Proof.
  intros self.
  destruct (optimize self tape0) as [[[best history] g']|e] eqn:Hopt.
  - exists best, history, g'. split; [reflexivity|].
    exact (report_convergence_divides_by_zero self tape0 best history g' Hopt).
  - vm_compute in Hopt. discriminate.
Defined.

(** X29: the percentage the report quotes.  [_calculate_improvement]
    returns 0 for a zero baseline whatever the optimised value is.  For a
    positive baseline the result is positive exactly when the optimised
    value is smaller, 0 exactly when the two are equal, and at most 100
    when the optimised value is not negative; for a negative baseline the
    sign is reversed. *)
Theorem calculate_improvement_sign_and_bound baseline optimized :
  let r := ReportGenerator._calculate_improvement baseline optimized in
  (baseline == 0 -> r = 0) /\
  (0 < baseline ->
   (0 < r <-> optimized < baseline) /\
   (r == 0 <-> optimized == baseline) /\
   (0 <= optimized -> r <= 100)) /\
  (baseline < 0 -> (0 < r <-> baseline < optimized)).
Proof.
  intros r. subst r. unfold ReportGenerator._calculate_improvement.
  split; [|split].
  - intros H. apply Qeq_bool_iff in H. now rewrite H.
  - intros Hb.
    assert (Hnz : Qeq_bool baseline 0 = false).
    { destruct (Qeq_bool baseline 0) eqn:E; [|reflexivity].
      apply Qeq_bool_iff in E. lra. }
    rewrite Hnz.
    assert (Hd : (baseline - optimized) / baseline * 100
                 == 100 * (baseline - optimized) * / baseline)
      by (unfold Qdiv; ring).
    assert (Hinv : 0 < / baseline) by now apply Qinv_lt_0_compat.
    assert (Hone : baseline * / baseline == 1)
      by (apply Qmult_inv_r; lra).
    rewrite Hd. split; [|split].
    + split; intros H; nra.
    + split; intros H; nra.
    + intros Ho. nra.
  - intros Hb.
    assert (Hnz : Qeq_bool baseline 0 = false).
    { destruct (Qeq_bool baseline 0) eqn:E; [|reflexivity].
      apply Qeq_bool_iff in E. lra. }
    rewrite Hnz.
    assert (Hd : (baseline - optimized) / baseline * 100
                 == 100 * (optimized - baseline) * / (- baseline)).
    { unfold Qdiv. field. lra. }
    assert (Hinv : 0 < / (- baseline)) by (apply Qinv_lt_0_compat; lra).
    rewrite Hd. split; intros H; nra.
Qed.

(** ** The parameter sensitivity scenario *)

Section Sensitivity.

Variable num_peers : Z.
Variable ps : list Peer.
Variable rtt : RTTMatrix.

Hypothesis Hids : map id ps = map peer_name (py_range 1 (num_peers + 1)).
Hypothesis Hok : forall p, In p ps -> generated_peer_ok num_peers p.
Hypothesis Het : edge_table_of ps rtt.
Hypothesis Hpt : pair_table_of ps rtt.

(** One optimisation run on a generated network, then its scoring. *)
Lemma post_optimize_and_score nsp a b (X : Type)
    (k : SimulationRunner.Metrics -> X) :
  0 <= a -> 0 <= b -> (0 <= nsp)%Z ->
  post False
    (best_history <~ optimize (init ps rtt nsp a b 10000 20 3 (1 # 10) 50) ;;
     metrics <~ lift (SimulationRunner._evaluate_solution_metrics
                        (fst best_history) ps rtt) ;;
     ret (k metrics))
    (fun x => exists m,
       x = k m /\
       (Z.of_nat (SimulationRunner.m_num_super_peers m)
        <= Z.min nsp (Z.max 0 num_peers))%Z).
Proof.
  intros Ha Hb Hnsp.
  destruct (generated_ids_nodup _ _ Hids) as [Hnd Hlen].
  set (algorithm := init ps rtt nsp a b 10000 20 3 (1 # 10) 50).
  eapply post_bind.
  { apply (optimize_supported algorithm).
    - apply init_valid. exact Hnd.
    - exact (generated_nonneg num_peers ps rtt _ _ _ _ _ _ _ _ Hok Het Hpt).
    - exact Ha.
    - exact Hb.
    - exact Hnsp.
    - simpl. lia.
    - simpl. lia. }
  intros [best history] [Hwf Hcap]. cbn [fst] in Hwf, Hcap |- *.
  eapply post_bind.
  { apply post_lift_succeeds, labels_ok_metrics_succeed.
    exact (wf_labels _ _ Hwf). }
  intros m Hm. cbv beta in Hm. apply post_ret. exists m.
  split; [reflexivity|].
  destruct (metrics_result _ _ _ _ Hm)
    as (? & _ & _ & _ & _ & _ & _ & _ & _ & _ & Hnum).
  rewrite Hnum. unfold super_peers_capped in Hcap.
  destruct (init_valid ps rtt nsp a b 10000 20 3 (1 # 10) 50 Hnd) as [_ Hkeys].
  fold algorithm in Hkeys. rewrite Hkeys in Hcap.
  simpl in Hcap. rewrite length_map, Hlen in Hcap. lia.
Qed.

Lemma post_alpha_beta_tests :
  post False
    (for_each_M (alpha_beta_test ps rtt)
       [5 # 10; 6 # 10; 7 # 10; 8 # 10; 9 # 10] [])
    (fun tests => length tests = 5%nat /\
                  forall t, In t tests -> alpha_beta_ok t).
Proof.
  eapply post_weaken.
  - apply post_for_each_M_prefix with
      (Inv := fun (pre : list Q) tests =>
                length tests = length pre /\
                forall t, In t tests -> alpha_beta_ok t).
    + intros pre alpha suf tests Hl [Hlen Hall].
      assert (Hin : In alpha [5 # 10; 6 # 10; 7 # 10; 8 # 10; 9 # 10]).
      { rewrite Hl. apply in_or_app. right. now left. }
      assert (Hrange : 0 <= alpha /\ 0 <= 1 - alpha).
      { destruct Hin as [<-|[<-|[<-|[<-|[<-|[]]]]]];
          split; apply Qle_bool_imp_le; reflexivity. }
      unfold alpha_beta_test. cbv zeta.
      eapply post_weaken.
      * apply (post_optimize_and_score 15 alpha (1 - alpha) _
                 (fun m => (tests ++ [(alpha, 1 - alpha, m)])%list));
          [tauto|tauto|lia].
      * intros x (m & -> & Hm). split.
        -- rewrite !length_app, Hlen. reflexivity.
        -- intros t Ht. apply in_app_iff in Ht as [Ht|[<-|[]]]; [auto|].
           unfold alpha_beta_ok. simpl. split; [ring|lia].
    + split; [reflexivity|intros t []].
  - intros tests [Hlen Hall]. split; [exact Hlen|exact Hall].
Qed.

Lemma post_super_peer_tests :
  post False
    (for_each_M (super_peer_test ps rtt) [5; 10; 15; 20; 25; 30]%Z [])
    (fun tests => map fst tests = [5; 10; 15; 20; 25; 30]%Z /\
                  forall t, In t tests -> super_peer_ok num_peers t).
Proof.
  eapply post_weaken.
  - apply post_for_each_M_prefix with
      (Inv := fun (pre : list Z) tests =>
                map fst tests = pre /\
                forall t, In t tests -> super_peer_ok num_peers t).
    + intros pre num_sp suf tests Hl [Hfst Hall].
      assert (Hin : In num_sp [5; 10; 15; 20; 25; 30]%Z).
      { rewrite Hl. apply in_or_app. right. now left. }
      assert (Hpos : (0 <= num_sp)%Z).
      { destruct Hin as [<-|[<-|[<-|[<-|[<-|[<-|[]]]]]]]; lia. }
      unfold super_peer_test. cbv zeta.
      eapply post_weaken.
      * apply (post_optimize_and_score num_sp (7 # 10) (3 # 10) _
                 (fun m => (tests ++ [(num_sp, m)])%list));
          [apply Qle_bool_imp_le; reflexivity
          |apply Qle_bool_imp_le; reflexivity|exact Hpos].
      * intros x (m & -> & Hm). split.
        -- rewrite map_app, Hfst. reflexivity.
        -- intros t Ht. apply in_app_iff in Ht as [Ht|[<-|[]]]; [auto|].
           exact Hm.
    + split; [reflexivity|intros t []].
  - intros tests H. exact H.
Qed.

End Sensitivity.

(** X30: the sensitivity analysis never fails.  Unlike the baseline
    comparison, [run_parameter_sensitivity] returns on every stream and
    for every number of peers, because the engine caps the number of
    super-peers: it yields one record for each of the five weight pairs
    (whose weights add up to 1, with at most fifteen super-peers scored)
    and one for each of the six super-peer counts 5, 10, ..., 30 (with at
    most that many super-peers scored, and never more than there are
    peers). *)
Theorem parameter_sensitivity_always_returns stream42 num_peers g :
  exists r g',
    run_parameter_sensitivity stream42 num_peers g = Ok (r, g') /\
    ps_num_peers r = num_peers /\
    length (alpha_beta_tests r) = 5%nat /\
    (forall t, In t (alpha_beta_tests r) -> alpha_beta_ok t) /\
    map fst (super_peer_tests r) = [5; 10; 15; 20; 25; 30]%Z /\
    (forall t, In t (super_peer_tests r) -> super_peer_ok num_peers t).
Proof.
  apply (post_total (run_parameter_sensitivity stream42 num_peers)
           (fun r =>
              ps_num_peers r = num_peers /\
              length (alpha_beta_tests r) = 5%nat /\
              (forall t, In t (alpha_beta_tests r) -> alpha_beta_ok t) /\
              map fst (super_peer_tests r) = [5; 10; 15; 20; 25; 30]%Z /\
              (forall t, In t (super_peer_tests r) ->
                 super_peer_ok num_peers t))).
  unfold run_parameter_sensitivity.
  eapply post_bind; [apply post_generate_synthetic_network|].
  intros [ps rtt] (Hids & Hok & Het & Hpt).
  cbn [fst snd] in Hids, Hok, Het, Hpt. cbv beta iota zeta.
  eapply post_bind;
    [apply (post_alpha_beta_tests num_peers ps rtt Hids Hok Het Hpt)|].
  intros ab [Hab1 Hab2].
  eapply post_bind;
    [apply (post_super_peer_tests num_peers ps rtt Hids Hok Het Hpt)|].
  intros sp [Hsp1 Hsp2]. apply post_ret. simpl. auto.
Qed.
